(** * logdb: the log-indexing store of the node (package [logdb])

    A shallow embedding of [logdb/logdb.go]: the dynamic composition of the
    SELECT statements of [FilterEvents] and [FilterTransfers], the row
    scanners [queryEvents] and [queryTransfers], [QueryLastBlockNumber], and
    the batch writer ([Prepare], [ForTransaction]/[Insert], [execInTx],
    [Commit]).

    The relational engine behind [database/sql] is modelled by the small
    module [SQL] below: tables are lists of rows in row-id order, a WHERE
    clause is the token sequence the Go code concatenates, evaluated with
    SQL's three-valued logic and SQL's operator precedence (AND binds
    tighter than OR). *)

From Stdlib Require Import String.
From Stdlib Require Import List ZArith NArith Lia Bool Arith Permutation Sorted.
From Stdlib.Strings Require Import Byte.
Import ListNotations.
Local Open Scope Z_scope.

Set Implicit Arguments.

(* ================================================================== *)
(** ** Bytes, hashes, addresses, integers *)

Definition bytes := list byte.

Definition bytes_eqb (a b : bytes) : bool :=
  if list_eq_dec Byte.byte_eq_dec a b then true else false.

Definition zero_byte : byte := x00.

(** [thor.Bytes32] is [[32]byte] and [thor.Address] is [[20]byte]; both are
    carried as byte lists whose length is the array length. *)
Definition thor_Bytes32 := bytes.
Definition thor_Address := bytes.

Definition wf_bytes32 (h : thor_Bytes32) : Prop := length h = 32%nat.
Definition wf_address (a : thor_Address) : Prop := length a = 20%nat.

(** [h.Bytes()] / [a.Bytes()]: the array as a slice. *)
Definition Bytes32_Bytes (h : thor_Bytes32) : bytes := h.
Definition Address_Bytes (a : thor_Address) : bytes := a.

(** Right-aligned copy into a zeroed array of [n] bytes; a longer input is
    cropped from the left ([thor.BytesToBytes32], [thor.BytesToAddress]). *)
Definition set_bytes (n : nat) (b : bytes) : bytes :=
  let b' := skipn (length b - n) b in
  repeat zero_byte (n - length b') ++ b'.

Definition BytesToBytes32 (b : bytes) : thor_Bytes32 := set_bytes 32 b.
Definition BytesToAddress (b : bytes) : thor_Address := set_bytes 20 b.

(** [uint32(x)] conversion. *)
Definition uint32 (z : Z) : Z := z mod 2 ^ 32.

Definition byte_of_Z (z : Z) : byte :=
  match Byte.of_N (Z.to_N (z mod 256)) with
  | Some b => b
  | None => zero_byte
  end.

Definition Z_of_byte (b : byte) : Z := Z.of_N (Byte.to_N b).

(** [binary.BigEndian.PutUint32] on a 4-byte array. *)
Definition PutUint32 (v : Z) : bytes :=
  [ byte_of_Z (Z.shiftr v 24); byte_of_Z (Z.shiftr v 16);
    byte_of_Z (Z.shiftr v 8); byte_of_Z v ].

(** [binary.BigEndian.Uint32]: reads the first four bytes; it panics on a
    shorter slice, which is [None] here. *)
Definition Uint32 (b : bytes) : option Z :=
  match b with
  | b0 :: b1 :: b2 :: b3 :: _ =>
      Some (Z.lor (Z.lor (Z.lor (Z.shiftl (Z_of_byte b0) 24)
                                 (Z.shiftl (Z_of_byte b1) 16))
                         (Z.shiftl (Z_of_byte b2) 8))
                  (Z_of_byte b3))
  | _ => None
  end.

(** [Amount.Bytes()] on a [big.Int]: the big-endian bytes of the absolute value, without
    leading zeros (empty for 0).  The little-endian digits are produced with
    fuel bounded by the bit size, then reversed. *)
Fixpoint le_digits (fuel : nat) (n : Z) : bytes :=
  match fuel with
  | O => []
  | S f => if n =? 0 then [] else byte_of_Z n :: le_digits f (n / 256)
  end.

Definition BigInt_Bytes (a : Z) : bytes :=
  rev (le_digits (S (Z.to_nat (Z.log2 (Z.abs a)))) (Z.abs a)).

(** [new(big.Int).SetBytes]: the bytes read as a big-endian unsigned
    integer. *)
Definition BigInt_SetBytes (b : bytes) : Z :=
  fold_left (fun acc x => acc * 256 + Z_of_byte x) b 0.

(** The value of little-endian digits. *)
Definition le_value (l : bytes) : Z :=
  fold_right (fun x acc => acc * 256 + Z_of_byte x) 0 l.

(** A fixed array of five slots ([[5]*thor.Bytes32], [[5][]byte]). *)
Record Array5 (A : Type) : Type := mkArray5 {
  slot0 : A; slot1 : A; slot2 : A; slot3 : A; slot4 : A
}.

Definition Array5_list {A} (a : Array5 A) : list A :=
  [slot0 a; slot1 a; slot2 a; slot3 a; slot4 a].

Definition Array5_map {A B} (f : A -> B) (a : Array5 A) : Array5 B :=
  mkArray5 (f (slot0 a)) (f (slot1 a)) (f (slot2 a)) (f (slot3 a)) (f (slot4 a)).

Definition Array5_get {A} (a : Array5 A) (j : nat) (d : A) : A :=
  nth j (Array5_list a) d.

(* ================================================================== *)
(** ** The relational engine

    What [database/sql] over SQLite does with the statements this package
    issues.  A table is the list of its rows in row-id order.  A WHERE clause
    is kept as the sequence of lexical fragments the Go code concatenates;
    its value on a row is computed by an operator-precedence evaluator, so
    that where parentheses are placed (or not) in the text decides the
    result, as it does in the engine. *)
Module SQL.

Inductive value : Type :=
| VNull
| VInt (z : Z)
| VBlob (b : bytes).

(** SQL's three truth values. *)
Inductive tv : Type := TTrue | TFalse | TNull.

Definition and3 (a b : tv) : tv :=
  match a, b with
  | TFalse, _ => TFalse
  | _, TFalse => TFalse
  | TTrue, TTrue => TTrue
  | _, _ => TNull
  end.

Definition or3 (a b : tv) : tv :=
  match a, b with
  | TTrue, _ => TTrue
  | _, TTrue => TTrue
  | TFalse, TFalse => TFalse
  | _, _ => TNull
  end.

Definition of_bool (b : bool) : tv := if b then TTrue else TFalse.

(** A row is selected when the WHERE clause is true (neither false nor NULL). *)
Definition is_true (t : tv) : bool :=
  match t with TTrue => true | _ => false end.

Inductive cmpop : Type := OpGe | OpLe | OpEq.

(** memcmp on the common prefix, then the shorter blob first. *)
Fixpoint blob_compare (a b : bytes) : comparison :=
  match a, b with
  | [], [] => Eq
  | [], _ :: _ => Lt
  | _ :: _, [] => Gt
  | x :: a', y :: b' =>
      match Z.compare (Z_of_byte x) (Z_of_byte y) with
      | Eq => blob_compare a' b'
      | c => c
      end
  end.

(** The order of storage classes: NULL, then INTEGER, then BLOB. *)
Definition value_order (x y : value) : comparison :=
  match x, y with
  | VNull, VNull => Eq
  | VNull, _ => Lt
  | _, VNull => Gt
  | VInt a, VInt b => Z.compare a b
  | VInt _, VBlob _ => Lt
  | VBlob _, VInt _ => Gt
  | VBlob a, VBlob b => blob_compare a b
  end.

(** A comparison with NULL is NULL. *)
Definition compare_op (o : cmpop) (x y : value) : tv :=
  match x, y with
  | VNull, _ => TNull
  | _, VNull => TNull
  | _, _ =>
      match o, value_order x y with
      | OpEq, Eq => TTrue
      | OpEq, _ => TFalse
      | OpGe, Lt => TFalse
      | OpGe, _ => TTrue
      | OpLe, Gt => TFalse
      | OpLe, _ => TTrue
      end
  end.

Inductive direction : Type := Asc | Desc.

Section Engine.
Variable col : Type.

(** The fragments of a WHERE clause: the literal [1], [AND], [OR], the two
    parentheses, and a comparison [c op ?] of a column with the next
    positional parameter. *)
Inductive token : Type :=
| TkOne
| TkAnd
| TkOr
| TkOpen
| TkClose
| TkCmp (c : col) (o : cmpop).

(** One nesting level of the evaluator: the level's value so far is
    [f_or OR f_and], where [f_and] is the conjunction being read. *)
Record frame : Type := mkFrame { f_or : tv; f_and : tv }.

Record pstate : Type := mkP {
  p_stack : list frame;     (* the enclosing levels *)
  p_cur : frame;
  p_operand : bool;         (* an operand (not an operator) comes next *)
  p_args : list value       (* parameters not bound yet *)
}.

Definition operand (s : pstate) (v : tv) (rest : list value) : pstate :=
  mkP (p_stack s) (mkFrame (f_or (p_cur s)) (and3 (f_and (p_cur s)) v)) false rest.

Definition step (lookup : col -> value) (s : pstate) (t : token) : option pstate :=
  if p_operand s then
    match t with
    | TkOne => Some (operand s TTrue (p_args s))
    | TkCmp c o =>
        match p_args s with
        | a :: rest => Some (operand s (compare_op o (lookup c) a) rest)
        | [] => None
        end
    | TkOpen => Some (mkP (p_cur s :: p_stack s) (mkFrame TFalse TTrue) true (p_args s))
    | _ => None
    end
  else
    match t with
    | TkAnd => Some (mkP (p_stack s) (p_cur s) true (p_args s))
    | TkOr =>
        Some (mkP (p_stack s)
                  (mkFrame (or3 (f_or (p_cur s)) (f_and (p_cur s))) TTrue)
                  true (p_args s))
    | TkClose =>
        match p_stack s with
        | up :: st =>
            let v := or3 (f_or (p_cur s)) (f_and (p_cur s)) in
            Some (mkP st (mkFrame (f_or up) (and3 (f_and up) v)) false (p_args s))
        | [] => None
        end
    | _ => None
    end.

Fixpoint run (lookup : col -> value) (s : pstate) (ts : list token) : option pstate :=
  match ts with
  | [] => Some s
  | t :: ts' =>
      match step lookup s t with
      | Some s' => run lookup s' ts'
      | None => None
      end
  end.

Definition start (args : list value) : pstate :=
  mkP [] (mkFrame TFalse TTrue) true args.

(** The value of a WHERE clause on a row, with the parameters it did not
    consume; [None] for a clause that is not well formed or that lacks
    parameters. *)
Definition eval_where (lookup : col -> value) (ts : list token) (args : list value)
  : option (tv * list value) :=
  match run lookup (start args) ts with
  | Some s =>
      match p_stack s, p_operand s with
      | [], false => Some (or3 (f_or (p_cur s)) (f_and (p_cur s)), p_args s)
      | _, _ => None
      end
  | None => None
  end.

(** [SELECT * FROM t [WHERE w] [ORDER BY c1 d1, c2 d2, ...] [LIMIT ?, ?]] *)
Record select : Type := mkSelect {
  sel_where : option (list token);
  sel_order : list (col * direction);
  sel_limit : bool
}.

Variable row : Type.
Variable get : row -> col -> value.

Fixpoint order_leb (spec : list (col * direction)) (a b : row) : bool :=
  match spec with
  | [] => true
  | (c, d) :: spec' =>
      match value_order (get a c) (get b c), d with
      | Eq, _ => order_leb spec' a b
      | Lt, Asc => true
      | Lt, Desc => false
      | Gt, Asc => false
      | Gt, Desc => true
      end
  end.

Fixpoint insert_by (le : row -> row -> bool) (x : row) (l : list row) : list row :=
  match l with
  | [] => [x]
  | y :: l' => if le x y then x :: l else y :: insert_by le x l'
  end.

Fixpoint sort_by (le : row -> row -> bool) (l : list row) : list row :=
  match l with
  | [] => []
  | x :: l' => insert_by le x (sort_by le l')
  end.

(** [LIMIT off, cnt]: skip [off] rows, then at most [cnt] rows; a negative
    count is no bound. *)
Definition apply_limit (off cnt : Z) (l : list row) : list row :=
  let l' := skipn (Z.to_nat off) l in
  if cnt <? 0 then l' else firstn (Z.to_nat cnt) l'.

Definition where_true (s : select) (args : list value) (r : row) : bool :=
  match sel_where s with
  | None => true
  | Some ts =>
      match eval_where (get r) ts args with
      | Some (v, _) => is_true v
      | None => false
      end
  end.

(** Runs a SELECT on a table.  The statement is prepared first (its text
    must be well formed and the number of parameters must be the number of
    placeholders), whatever the table holds; [None] is the engine's error. *)
Definition run_select (tbl : list row) (s : select) (args : list value)
  : option (list row) :=
  let prepared :=
    match sel_where s with
    | None => Some args
    | Some ts =>
        match eval_where (fun _ => VNull) ts args with
        | Some (_, rest) => Some rest
        | None => None
        end
    end in
  match prepared with
  | None => None
  | Some rest =>
      let selected := filter (where_true s args) tbl in
      let ordered :=
        match sel_order s with
        | [] => selected
        | spec => sort_by (order_leb spec) selected
        end in
      match sel_limit s, rest with
      | false, [] => Some ordered
      | true, [VInt off; VInt cnt] => Some (apply_limit off cnt ordered)
      | _, _ => None
      end
  end.

End Engine.

Arguments TkOne {col}.
Arguments TkAnd {col}.
Arguments TkOr {col}.
Arguments TkOpen {col}.
Arguments TkClose {col}.

End SQL.

(* ================================================================== *)
(** ** The record model

    The declarations of these types are in files of the package that are not
    at hand; their fields are the ones [logdb.go] reads and writes. *)

(** [block.Header], through its accessors [Number()], [ID()] and
    [Timestamp()]. *)
Record Header : Type := mkHeader {
  Number : Z;               (* uint32 *)
  ID : thor_Bytes32;
  Timestamp : Z             (* uint64 *)
}.

Module Event.
Record t : Type := mk {
  BlockNumber : Z;        (* uint32 *)
  Index : Z;              (* uint32 *)
  BlockID : thor_Bytes32;
  BlockTime : Z;          (* uint64 *)
  TxID : thor_Bytes32;
  TxOrigin : thor_Address;
  ClauseIndex : Z;        (* uint32 *)
  Address : thor_Address;
  Topics : Array5 (option thor_Bytes32);
  Data : bytes
}.
End Event.

Module Transfer.
Record t : Type := mk {
  BlockNumber : Z;
  Index : Z;
  BlockID : thor_Bytes32;
  BlockTime : Z;
  TxID : thor_Bytes32;
  TxOrigin : thor_Address;
  ClauseIndex : Z;
  Sender : thor_Address;
  Recipient : thor_Address;
  Amount : Z              (* *big.Int, not nil *)
}.
End Transfer.

(** [tx.Event] and [tx.Transfer], the payloads handed to [Insert]. *)
Module TxEvent.
Record t : Type := mk {
  Address : thor_Address;
  Topics : list thor_Bytes32;
  Data : bytes
}.
End TxEvent.

Module TxTransfer.
Record t : Type := mk {
  Sender : thor_Address;
  Recipient : thor_Address;
  Amount : Z
}.
End TxTransfer.

Inductive RangeType : Type := Block | Time.
Inductive OrderType : Type := ASC | DESC.

Record Range : Type := mkRange {
  Unit : RangeType;
  From : Z;                 (* uint64 *)
  To : Z                    (* uint64 *)
}.

Record Options : Type := mkOptions {
  Offset : Z;               (* uint64 *)
  Limit : Z                 (* uint64 *)
}.

Module EventCriteria.
Record t : Type := mk {
  Address : option thor_Address;
  Topics : Array5 (option thor_Bytes32)
}.
End EventCriteria.

Module TransferCriteria.
Record t : Type := mk {
  TxOrigin : option thor_Address;
  Sender : option thor_Address;
  Recipient : option thor_Address
}.
End TransferCriteria.

Module EventFilter.
Record t : Type := mk {
  CriteriaSet : list EventCriteria.t;
  Range : option Range;
  Options : option Options;
  Order : OrderType
}.
End EventFilter.

Module TransferFilter.
Record t : Type := mk {
  TxID : option thor_Bytes32;
  CriteriaSet : list TransferCriteria.t;
  Range : option Range;
  Options : option Options;
  Order : OrderType
}.
End TransferFilter.

(* ================================================================== *)
(** ** The persisted layout *)

(** A row of table [event]; a topic column is NULL ([None]) or a blob.  The
    tables are written by [Commit] only, so every column holds a value of
    the type [rows.Scan] reads it into; a NULL and an empty blob in column
    [data] both scan to the empty byte sequence. *)
Record EventRow : Type := mkEventRow {
  er_blockNumber : Z;
  er_eventIndex : Z;
  er_blockID : bytes;
  er_blockTime : Z;
  er_txID : bytes;
  er_txOrigin : bytes;
  er_clauseIndex : Z;
  er_address : bytes;
  er_topics : Array5 (option bytes);
  er_data : bytes
}.

(** A row of table [transfer]. *)
Record TransferRow : Type := mkTransferRow {
  tr_blockNumber : Z;
  tr_transferIndex : Z;
  tr_blockID : bytes;
  tr_blockTime : Z;
  tr_txID : bytes;
  tr_txOrigin : bytes;
  tr_clauseIndex : Z;
  tr_sender : bytes;
  tr_recipient : bytes;
  tr_amount : bytes
}.

(** The store: table [config] (key, value) and the two record tables. *)
Record DB : Type := mkDB {
  config : list (string * bytes);
  event : list EventRow;
  transfer : list TransferRow
}.

Definition configBlockNumKey : string := "blockNum"%string.

(** Column names of table [event]. *)
Inductive ecol : Type :=
| EBlockNumber | EEventIndex | EBlockID | EBlockTime | ETxID | ETxOrigin
| EClauseIndex | EAddress | ETopic (j : nat) | EData.

(** Column names of table [transfer]. *)
Inductive tcol : Type :=
| TBlockNumber | TTransferIndex | TBlockID | TBlockTime | TTxID | TTxOrigin
| TClauseIndex | TSender | TRecipient | TAmount.

Definition nullable (b : option bytes) : SQL.value :=
  match b with
  | Some x => SQL.VBlob x
  | None => SQL.VNull
  end.

Definition event_get (r : EventRow) (c : ecol) : SQL.value :=
  match c with
  | EBlockNumber => SQL.VInt (er_blockNumber r)
  | EEventIndex => SQL.VInt (er_eventIndex r)
  | EBlockID => SQL.VBlob (er_blockID r)
  | EBlockTime => SQL.VInt (er_blockTime r)
  | ETxID => SQL.VBlob (er_txID r)
  | ETxOrigin => SQL.VBlob (er_txOrigin r)
  | EClauseIndex => SQL.VInt (er_clauseIndex r)
  | EAddress => SQL.VBlob (er_address r)
  | ETopic j => nullable (Array5_get (er_topics r) j None)
  | EData => SQL.VBlob (er_data r)
  end.

Definition transfer_get (r : TransferRow) (c : tcol) : SQL.value :=
  match c with
  | TBlockNumber => SQL.VInt (tr_blockNumber r)
  | TTransferIndex => SQL.VInt (tr_transferIndex r)
  | TBlockID => SQL.VBlob (tr_blockID r)
  | TBlockTime => SQL.VInt (tr_blockTime r)
  | TTxID => SQL.VBlob (tr_txID r)
  | TTxOrigin => SQL.VBlob (tr_txOrigin r)
  | TClauseIndex => SQL.VInt (tr_clauseIndex r)
  | TSender => SQL.VBlob (tr_sender r)
  | TRecipient => SQL.VBlob (tr_recipient r)
  | TAmount => SQL.VBlob (tr_amount r)
  end.

(* ================================================================== *)
(** ** Errors, contexts and I/O faults *)

Inductive ctx_error : Type := Canceled | DeadlineExceeded.

Inductive error : Type :=
| StorageError                      (* any error of the backing store *)
| ContextError (e : ctx_error).     (* [ctx.Err()] *)

(** What a call returns: a value with a nil error, an error, or a run-time
    panic. *)
Inductive result (A : Type) : Type :=
| Ok (a : A)
| Err (e : error)
| Panic.
Arguments Ok {A} a.
Arguments Err {A} e.
Arguments Panic {A}.

(** A [context.Context]: [Done ctx i] tells whether the Done channel is
    closed when it is polled after [i] rows have been produced; [CtxErr] is
    what [ctx.Err()] then returns. *)
Record Context : Type := mkContext {
  Done : nat -> bool;
  CtxErr : ctx_error
}.

Definition Background : Context := mkContext (fun _ => false) Canceled.

(** Faults of the backing store during a read: [query_fails] makes
    [QueryContext] (or [QueryRow]) return an error (for any reason: I/O, a
    parameter the driver refuses), [next_fails i] makes fetching row number
    [i] fail, which ends the iteration and is reported by [rows.Err()]. *)
Record ReadIO : Type := mkReadIO {
  query_fails : bool;
  next_fails : nat -> bool
}.

Definition read_ok : ReadIO := mkReadIO false (fun _ => false).

(** [db.QueryContext(ctx, stmt, args...)]: the context is polled before
    anything else.  The conversion of the arguments by database/sql is not
    modelled apart: an argument it refuses (a uint64 of 2^63 or more, which
    Range.From, Range.To, Options.Offset and Options.Limit can hold) is one
    of the faults of [query_fails]. *)
Definition QueryContext {col row : Type} (get : row -> col -> SQL.value)
    (ctx : Context) (io : ReadIO) (tbl : list row)
    (stmt : SQL.select col) (args : list SQL.value) : result (list row) :=
  if Done ctx 0%nat then Err (ContextError (CtxErr ctx))
  else if query_fails io then Err StorageError
  else match SQL.run_select get tbl stmt args with
       | Some rows => Ok rows
       | None => Err StorageError
       end.

(** The loop [for rows.Next() { select { case <-ctx.Done(): ... } ... }]
    followed by [rows.Err()], common to [queryEvents] and [queryTransfers];
    [i] rows have been produced so far. *)
Fixpoint scan_rows {row A : Type} (decode : row -> A) (ctx : Context) (io : ReadIO)
    (i : nat) (rows : list row) (acc : list A) : result (list A) :=
  if next_fails io i then Err StorageError
  else
    match rows with
    | [] => Ok acc
    | r :: rows' =>
        if Done ctx i then Err (ContextError (CtxErr ctx))
        else scan_rows decode ctx io (S i) rows' (acc ++ [decode r])
    end.

(** The body of the loop of [queryEvents]: a scanned row as an [Event]. *)
Definition scan_topic (topic : option bytes) : option thor_Bytes32 :=
  match topic with
  | Some b => if (0 <? length b)%nat then Some (BytesToBytes32 b) else None
  | None => None
  end.

Definition scan_event (r : EventRow) : Event.t :=
  Event.mk (er_blockNumber r) (er_eventIndex r)
           (BytesToBytes32 (er_blockID r)) (er_blockTime r)
           (BytesToBytes32 (er_txID r)) (BytesToAddress (er_txOrigin r))
           (er_clauseIndex r) (BytesToAddress (er_address r))
           (Array5_map scan_topic (er_topics r)) (er_data r).

Definition scan_transfer (r : TransferRow) : Transfer.t :=
  Transfer.mk (tr_blockNumber r) (tr_transferIndex r)
              (BytesToBytes32 (tr_blockID r)) (tr_blockTime r)
              (BytesToBytes32 (tr_txID r)) (BytesToAddress (tr_txOrigin r))
              (tr_clauseIndex r) (BytesToAddress (tr_sender r))
              (BytesToAddress (tr_recipient r))
              (BigInt_SetBytes (tr_amount r)).

Definition queryEvents (ctx : Context) (io : ReadIO) (db : DB)
    (stmt : SQL.select ecol) (args : list SQL.value) : result (list Event.t) :=
  match QueryContext event_get ctx io (event db) stmt args with
  | Ok rows => scan_rows scan_event ctx io 0 rows []
  | Err e => Err e
  | Panic => Panic
  end.

Definition queryTransfers (ctx : Context) (io : ReadIO) (db : DB)
    (stmt : SQL.select tcol) (args : list SQL.value) : result (list Transfer.t) :=
  match QueryContext transfer_get ctx io (transfer db) stmt args with
  | Ok rows => scan_rows scan_transfer ctx io 0 rows []
  | Err e => Err e
  | Panic => Panic
  end.

(* ================================================================== *)
(** ** Composition of the SELECT statements *)

(** The statement text under construction ([stmt]) with its parameters
    ([args]); [emit] is [stmt += ...] together with [args = append(args, ...)]. *)
Definition sql (col : Type) : Type := (list (SQL.token col) * list SQL.value)%type.

Definition emit {col} (q : sql col) (ts : list (SQL.token col)) (vs : list SQL.value)
  : sql col :=
  (fst q ++ ts, snd q ++ vs).

(** [for i, x := range l]. *)
Definition enumerate {A} (l : list A) : list (nat * A) :=
  combine (seq 0 (length l)) l.

Definition range_sql {col} (blockNumber blockTime : col) (q : sql col) (r : option Range)
  : sql col :=
  match r with
  | None => q
  | Some r =>
      let condition := match Unit r with Time => blockTime | Block => blockNumber end in
      let q := emit q [SQL.TkAnd; SQL.TkCmp condition SQL.OpGe] [SQL.VInt (From r)] in
      if To r >=? From r
      then emit q [SQL.TkAnd; SQL.TkCmp condition SQL.OpLe] [SQL.VInt (To r)]
      else q
  end.

Definition order_sql {col} (blockNumber index : col) (o : OrderType)
  : list (col * SQL.direction) :=
  match o with
  | DESC => [(blockNumber, SQL.Desc); (index, SQL.Desc)]
  | ASC => [(blockNumber, SQL.Asc); (index, SQL.Asc)]
  end.

Definition limit_sql {col} (q : sql col) (o : option Options) : bool * list SQL.value :=
  match o with
  | Some o => (true, snd q ++ [SQL.VInt (Offset o); SQL.VInt (Limit o)])
  | None => (false, snd q)
  end.

(** One iteration of the loop over [filter.CriteriaSet] in [FilterEvents]. *)
Definition event_topic_sql (q : sql ecol) (jt : nat * option thor_Bytes32) : sql ecol :=
  match snd jt with
  | Some topic =>
      emit q [SQL.TkAnd; SQL.TkCmp (ETopic (fst jt)) SQL.OpEq]
             [SQL.VBlob (Bytes32_Bytes topic)]
  | None => q
  end.

Definition event_criteria_sql (q : sql ecol) (ic : nat * EventCriteria.t) : sql ecol :=
  let (i, criteria) := ic in
  let q := if (i =? 0)%nat
           then emit q [SQL.TkAnd; SQL.TkOpen; SQL.TkOne] []
           else emit q [SQL.TkOr; SQL.TkOpen; SQL.TkOne] [] in
  let q := match EventCriteria.Address criteria with
           | Some a => emit q [SQL.TkAnd; SQL.TkCmp EAddress SQL.OpEq]
                              [SQL.VBlob (Address_Bytes a)]
           | None => q
           end in
  let q := fold_left event_topic_sql
                     (enumerate (Array5_list (EventCriteria.Topics criteria))) q in
  emit q [SQL.TkClose] [].

(** The statement and parameters [FilterEvents] hands to [queryEvents] for a
    non-nil filter. *)
Definition FilterEvents_sql (filter : EventFilter.t) : SQL.select ecol * list SQL.value :=
  let q : sql ecol := ([SQL.TkOne], []) in
  let q := range_sql EBlockNumber EBlockTime q (EventFilter.Range filter) in
  let q := fold_left event_criteria_sql (enumerate (EventFilter.CriteriaSet filter)) q in
  let order := order_sql EBlockNumber EEventIndex (EventFilter.Order filter) in
  let (limit, args) := limit_sql q (EventFilter.Options filter) in
  (SQL.mkSelect (Some (fst q)) order limit, args).

Definition FilterEvents (ctx : Context) (io : ReadIO) (db : DB)
    (filter : option EventFilter.t) : result (list Event.t) :=
  match filter with
  | None => queryEvents ctx io db (SQL.mkSelect None [] false) []
  | Some f => let (stmt, args) := FilterEvents_sql f in queryEvents ctx io db stmt args
  end.

(** One iteration of the loop over [filter.CriteriaSet] in [FilterTransfers];
    [length] is [len(filter.CriteriaSet)]. *)
Definition transfer_address_sql (c : tcol) (q : sql tcol) (a : option thor_Address)
  : sql tcol :=
  match a with
  | Some a => emit q [SQL.TkAnd; SQL.TkCmp c SQL.OpEq] [SQL.VBlob (Address_Bytes a)]
  | None => q
  end.

Definition transfer_criteria_sql (length : nat) (q : sql tcol)
    (ic : nat * TransferCriteria.t) : sql tcol :=
  let (i, criteria) := ic in
  let q := if (i =? 0)%nat
           then emit q [SQL.TkAnd; SQL.TkOpen; SQL.TkOpen; SQL.TkOne] []
           else emit q [SQL.TkOr; SQL.TkOpen; SQL.TkOne] [] in
  let q := transfer_address_sql TTxOrigin q (TransferCriteria.TxOrigin criteria) in
  let q := transfer_address_sql TSender q (TransferCriteria.Sender criteria) in
  let q := transfer_address_sql TRecipient q (TransferCriteria.Recipient criteria) in
  if (i =? length - 1)%nat
  then emit q [SQL.TkClose; SQL.TkClose] []
  else emit q [SQL.TkClose] [].

Definition FilterTransfers_sql (filter : TransferFilter.t)
  : SQL.select tcol * list SQL.value :=
  let q : sql tcol := ([SQL.TkOne], []) in
  let q := range_sql TBlockNumber TBlockTime q (TransferFilter.Range filter) in
  let q := match TransferFilter.TxID filter with
           | Some id => emit q [SQL.TkAnd; SQL.TkCmp TTxID SQL.OpEq]
                               [SQL.VBlob (Bytes32_Bytes id)]
           | None => q
           end in
  let length := length (TransferFilter.CriteriaSet filter) in
  let q := if (0 <? length)%nat
           then fold_left (transfer_criteria_sql length)
                          (enumerate (TransferFilter.CriteriaSet filter)) q
           else q in
  let order := order_sql TBlockNumber TTransferIndex (TransferFilter.Order filter) in
  let (limit, args) := limit_sql q (TransferFilter.Options filter) in
  (SQL.mkSelect (Some (fst q)) order limit, args).

Definition FilterTransfers (ctx : Context) (io : ReadIO) (db : DB)
    (filter : option TransferFilter.t) : result (list Transfer.t) :=
  match filter with
  | None => queryTransfers ctx io db (SQL.mkSelect None [] false) []
  | Some f => let (stmt, args) := FilterTransfers_sql f in queryTransfers ctx io db stmt args
  end.

(** [QueryLastBlockNumber]: the value of key [blockNum] in table [config];
    no row is 0 without an error; a value shorter than 4 bytes makes
    [binary.BigEndian.Uint32] panic. *)
Fixpoint config_lookup (k : string) (c : list (string * bytes)) : option bytes :=
  match c with
  | [] => None
  | (k', v) :: c' => if String.eqb k k' then Some v else config_lookup k c'
  end.

Definition QueryLastBlockNumber (io : ReadIO) (db : DB) : result Z :=
  if query_fails io then Err StorageError
  else match config_lookup configBlockNumKey (config db) with
       | None => Ok 0
       | Some data =>
           match Uint32 data with
           | Some n => Ok n
           | None => Panic
           end
       end.

(* ================================================================== *)
(** ** The block batch *)

Record BlockBatch : Type := mkBatch {
  header : Header;
  events : list Event.t;
  transfers : list Transfer.t
}.

Definition Prepare (h : Header) : BlockBatch := mkBatch h [] [].

(** Modelled from the spec: [newEvent] and [newTransfer] are not in the
    sources at hand.  Each record is stamped with the owning block's header
    fields, the bound transaction id and origin, and the given clause index,
    and carries the sequence index it is given; an event keeps its first five
    topics, the other slots are absent. *)
Definition newEvent (h : Header) (index : Z) (txID : thor_Bytes32) (txOrigin : thor_Address)
    (clauseIndex : Z) (e : TxEvent.t) : Event.t :=
  let topic j := nth_error (TxEvent.Topics e) j in
  Event.mk (Number h) index (ID h) (Timestamp h) txID txOrigin clauseIndex
           (TxEvent.Address e)
           (mkArray5 (topic 0%nat) (topic 1%nat) (topic 2%nat) (topic 3%nat) (topic 4%nat))
           (TxEvent.Data e).

Definition newTransfer (h : Header) (index : Z) (txID : thor_Bytes32)
    (txOrigin : thor_Address) (clauseIndex : Z) (t : TxTransfer.t) : Transfer.t :=
  Transfer.mk (Number h) index (ID h) (Timestamp h) txID txOrigin clauseIndex
              (TxTransfer.Sender t) (TxTransfer.Recipient t) (TxTransfer.Amount t).

(** [bb.ForTransaction(txID, txOrigin).Insert(events, transfers, clauseIndex)] *)
Definition Insert (bb : BlockBatch) (txID : thor_Bytes32) (txOrigin : thor_Address)
    (evs : list TxEvent.t) (trs : list TxTransfer.t) (clauseIndex : Z) : BlockBatch :=
  let bb :=
    fold_left (fun bb event =>
      mkBatch (header bb)
              (events bb ++ [newEvent (header bb) (uint32 (Z.of_nat (length (events bb))))
                                      txID txOrigin clauseIndex event])
              (transfers bb)) evs bb in
  fold_left (fun bb transfer =>
    mkBatch (header bb) (events bb)
            (transfers bb ++ [newTransfer (header bb)
                                          (uint32 (Z.of_nat (length (transfers bb))))
                                          txID txOrigin clauseIndex transfer])) trs bb.

(** One call of [ForTransaction(...).Insert(...)]. *)
Record InsertCall : Type := mkCall {
  call_txID : thor_Bytes32;
  call_txOrigin : thor_Address;
  call_events : list TxEvent.t;
  call_transfers : list TxTransfer.t;
  call_clauseIndex : Z
}.

Definition apply_call (bb : BlockBatch) (c : InsertCall) : BlockBatch :=
  Insert bb (call_txID c) (call_txOrigin c) (call_events c) (call_transfers c)
         (call_clauseIndex c).

(** A batch as its creator builds it: [Prepare], then any number of
    [Insert] calls. *)
Definition build (h : Header) (calls : list InsertCall) : BlockBatch :=
  fold_left apply_call calls (Prepare h).

(* ================================================================== *)
(** ** The statements of [Commit] *)

Definition topicValue (topic : option thor_Bytes32) : option bytes :=
  match topic with
  | None => None
  | Some t => Some (Bytes32_Bytes t)
  end.

Definition event_row (e : Event.t) : EventRow :=
  mkEventRow (Event.BlockNumber e) (Event.Index e) (Bytes32_Bytes (Event.BlockID e))
             (Event.BlockTime e) (Bytes32_Bytes (Event.TxID e))
             (Address_Bytes (Event.TxOrigin e)) (Event.ClauseIndex e)
             (Address_Bytes (Event.Address e))
             (Array5_map topicValue (Event.Topics e)) (Event.Data e).

Definition transfer_row (t : Transfer.t) : TransferRow :=
  mkTransferRow (Transfer.BlockNumber t) (Transfer.Index t)
                (Bytes32_Bytes (Transfer.BlockID t)) (Transfer.BlockTime t)
                (Bytes32_Bytes (Transfer.TxID t)) (Address_Bytes (Transfer.TxOrigin t))
                (Transfer.ClauseIndex t) (Address_Bytes (Transfer.Sender t))
                (Address_Bytes (Transfer.Recipient t))
                (BigInt_Bytes (Transfer.Amount t)).

Definition event_key (r : EventRow) : Z * Z := (er_blockNumber r, er_eventIndex r).
Definition transfer_key (r : TransferRow) : Z * Z := (tr_blockNumber r, tr_transferIndex r).

Definition key_eqb (a b : Z * Z) : bool := (fst a =? fst b) && (snd a =? snd b).

(** Modelled from the spec: the table schemas ([configTableSchema],
    [eventTableSchema], [transferTableSchema]) are not in the sources at
    hand.  The two record tables are keyed by (block number, sequence index)
    and table [config] by its key, so INSERT OR REPLACE removes the row that
    holds the key, if any, and adds the new row. *)
Definition insert_or_replace {row} (key : row -> Z * Z) (r : row) (tbl : list row)
  : list row :=
  filter (fun x => negb (key_eqb (key x) (key r))) tbl ++ [r].

(** [DELETE from event where blockNumber >= ?] *)
Definition delete_events_from (n : Z) (db : DB) : DB :=
  mkDB (config db) (filter (fun r => negb (er_blockNumber r >=? n)) (event db))
       (transfer db).

(** [DELETE from transfer where blockNumber >= ?] *)
Definition delete_transfers_from (n : Z) (db : DB) : DB :=
  mkDB (config db) (event db)
       (filter (fun r => negb (tr_blockNumber r >=? n)) (transfer db)).

(** [INSERT OR REPLACE INTO config(key, value) VALUES(?,?)] *)
Definition replace_config (k : string) (v : bytes) (db : DB) : DB :=
  mkDB (filter (fun kv => negb (String.eqb (fst kv) k)) (config db) ++ [(k, v)])
       (event db) (transfer db).

(** [INSERT OR REPLACE INTO event(...) VALUES (...)] *)
Definition insert_event (e : Event.t) (db : DB) : DB :=
  mkDB (config db) (insert_or_replace event_key (event_row e) (event db)) (transfer db).

(** [INSERT OR REPLACE INTO transfer(...) VALUES (...)] *)
Definition insert_transfer (t : Transfer.t) (db : DB) : DB :=
  mkDB (config db) (event db)
       (insert_or_replace transfer_key (transfer_row t) (transfer db)).

(* ================================================================== *)
(** ** Transactions *)

(** Faults of the backing store during a write transaction: [Begin] fails,
    the [k]-th [Exec] of the transaction fails (for any reason: I/O, a
    constraint, a parameter the driver refuses, such as a block time of
    2^63 or more), or the final commit fails. *)
Record TxIO : Type := mkTxIO {
  begin_fails : bool;
  exec_fails : nat -> bool;
  commit_fails : bool
}.

Definition tx_ok : TxIO := mkTxIO false (fun _ => false) false.

(** Inside a transaction: the working copy of the store and the number of
    statements executed so far. *)
Definition TxState : Type := (DB * nat)%type.

(** A step of the procedure run inside the transaction: the error it
    returns (if any) and the new state. *)
Definition Tx : Type := TxState -> option error * TxState.

(** [tx.Exec(stmt, args...)]: a statement that fails changes nothing. *)
Definition Exec (io : TxIO) (stmt : DB -> DB) : Tx :=
  fun s =>
    if exec_fails io (snd s)
    then (Some StorageError, (fst s, S (snd s)))
    else (None, (stmt (fst s), S (snd s))).

(** [if err := m; err != nil { return err }; k] *)
Definition and_then (m k : Tx) : Tx :=
  fun s =>
    match m s with
    | (Some e, s') => (Some e, s')
    | (None, s') => k s'
    end.

(** A call whose error is not looked at. *)
Definition ignore_error (m : Tx) : Tx :=
  fun s => (None, snd (m s)).

Definition skip : Tx := fun s => (None, s).

Notation "m ;; k" := (and_then m k) (at level 61, right associativity).

(** [for _, x := range l { if err := Exec(...); err != nil { return err } }] *)
Fixpoint for_each {A} (io : TxIO) (stmt : A -> DB -> DB) (l : list A) : Tx :=
  match l with
  | [] => skip
  | x :: l' => Exec io (stmt x) ;; for_each io stmt l'
  end.

(** [execInTx]: [Begin], the procedure, then [Rollback] on its error or
    [Commit]; a transaction that is rolled back, or whose commit fails,
    leaves the store as it was. *)
Definition execInTx (io : TxIO) (db : DB) (proc : Tx) : option error * DB :=
  if begin_fails io then (Some StorageError, db)
  else
    match proc (db, 0%nat) with
    | (Some e, _) => (Some e, db)
    | (None, (db', _)) =>
        if commit_fails io then (Some StorageError, db) else (None, db')
    end.

(** [Commit]: the error it returns and the store afterwards. *)
Definition Commit (io : TxIO) (bb : BlockBatch) (db : DB) : option error * DB :=
  execInTx io db
    ((if Number (header bb) >? 0
      then Exec io (delete_events_from (Number (header bb))) ;;
           Exec io (delete_transfers_from (Number (header bb))) ;;
           ignore_error (Exec io (replace_config configBlockNumKey
                                                 (PutUint32 (Number (header bb)))))
      else skip) ;;
     for_each io insert_event (events bb) ;;
     for_each io insert_transfer (transfers bb)).

(* ================================================================== *)
(** ** What a filter selects, stated on rows *)

(** The Range constraint: none for a nil Range, the closed interval
    [[From, To]] when [To >= From], the half line from [From] otherwise. *)
Definition range_holds (r : option Range) (blockNumber blockTime : Z) : bool :=
  match r with
  | None => true
  | Some r =>
      let x := match Unit r with Block => blockNumber | Time => blockTime end in
      if To r >=? From r then (From r <=? x) && (x <=? To r) else From r <=? x
  end.

(** An optional equality constraint on a blob column. *)
Definition blob_holds (want : option bytes) (have : bytes) : bool :=
  match want with
  | Some w => bytes_eqb have w
  | None => true
  end.

(** An optional equality constraint on a topic column; NULL equals nothing. *)
Definition topic_holds (want : option thor_Bytes32) (have : option bytes) : bool :=
  match want, have with
  | Some w, Some b => bytes_eqb b w
  | Some _, None => false
  | None, _ => true
  end.

(** One criteria group: the conjunction of its non-nil fields. *)
Definition event_group_holds (c : EventCriteria.t) (r : EventRow) : bool :=
  blob_holds (EventCriteria.Address c) (er_address r)
  && topic_holds (slot0 (EventCriteria.Topics c)) (slot0 (er_topics r))
  && topic_holds (slot1 (EventCriteria.Topics c)) (slot1 (er_topics r))
  && topic_holds (slot2 (EventCriteria.Topics c)) (slot2 (er_topics r))
  && topic_holds (slot3 (EventCriteria.Topics c)) (slot3 (er_topics r))
  && topic_holds (slot4 (EventCriteria.Topics c)) (slot4 (er_topics r)).

Definition transfer_group_holds (c : TransferCriteria.t) (r : TransferRow) : bool :=
  blob_holds (TransferCriteria.TxOrigin c) (tr_txOrigin r)
  && blob_holds (TransferCriteria.Sender c) (tr_sender r)
  && blob_holds (TransferCriteria.Recipient c) (tr_recipient r).

Definition event_range_holds (f : EventFilter.t) (r : EventRow) : bool :=
  range_holds (EventFilter.Range f) (er_blockNumber r) (er_blockTime r).

Definition transfer_range_holds (f : TransferFilter.t) (r : TransferRow) : bool :=
  range_holds (TransferFilter.Range f) (tr_blockNumber r) (tr_blockTime r).

(** The filter model of the specification: Range AND (Group1 OR Group2 OR
    ...), an empty group list constraining nothing. *)
Definition event_range_and_groups (f : EventFilter.t) (r : EventRow) : bool :=
  event_range_holds f r
  && match EventFilter.CriteriaSet f with
     | [] => true
     | cs => existsb (fun c => event_group_holds c r) cs
     end.

Definition transfer_range_and_groups (f : TransferFilter.t) (r : TransferRow) : bool :=
  transfer_range_holds f r
  && match TransferFilter.CriteriaSet f with
     | [] => true
     | cs => existsb (fun c => transfer_group_holds c r) cs
     end.

(** The rows the statement of [FilterEvents] selects: the Range is conjoined
    with the first group only. *)
Definition event_selected (f : EventFilter.t) (r : EventRow) : bool :=
  match EventFilter.CriteriaSet f with
  | [] => event_range_holds f r
  | c :: cs =>
      (event_range_holds f r && event_group_holds c r)
      || existsb (fun c => event_group_holds c r) cs
  end.

(** The rows the statement of [FilterTransfers] selects. *)
Definition transfer_selected (f : TransferFilter.t) (r : TransferRow) : bool :=
  transfer_range_holds f r
  && blob_holds (TransferFilter.TxID f) (tr_txID r)
  && match TransferFilter.CriteriaSet f with
     | [] => true
     | cs => existsb (fun c => transfer_group_holds c r) cs
     end.

(** Block number first, then sequence index. *)
Definition lex_leb (a b : Z * Z) : bool :=
  (fst a <? fst b) || ((fst a =? fst b) && (snd a <=? snd b)).

Definition key_leb (o : OrderType) (a b : Z * Z) : bool :=
  match o with
  | ASC => lex_leb a b
  | DESC => lex_leb b a
  end.

(** Ranks [Offset+1 .. Offset+Limit] of a sequence. *)
Definition paginate {A} (o : option Options) (l : list A) : list A :=
  match o with
  | None => l
  | Some o => firstn (Z.to_nat (Limit o)) (skipn (Z.to_nat (Offset o)) l)
  end.

Definition wf_options (o : option Options) : Prop :=
  match o with
  | None => True
  | Some o => 0 <= Offset o /\ 0 <= Limit o
  end.

Definition never_done (ctx : Context) : Prop := forall i, Done ctx i = false.

Definition no_read_fault (io : ReadIO) : Prop :=
  query_fails io = false /\ forall i, next_fails io i = false.

(** Well-formed inputs: array lengths, and a non-negative amount. *)
Definition wf_header (h : Header) : Prop := wf_bytes32 (ID h).

Definition wf_tx_event (e : TxEvent.t) : Prop :=
  wf_address (TxEvent.Address e) /\ Forall wf_bytes32 (TxEvent.Topics e).

Definition wf_tx_transfer (t : TxTransfer.t) : Prop :=
  wf_address (TxTransfer.Sender t) /\ wf_address (TxTransfer.Recipient t)
  /\ 0 <= TxTransfer.Amount t.

Definition wf_call (c : InsertCall) : Prop :=
  wf_bytes32 (call_txID c) /\ wf_address (call_txOrigin c)
  /\ Forall wf_tx_event (call_events c) /\ Forall wf_tx_transfer (call_transfers c).

Definition wf_topic (t : option thor_Bytes32) : Prop :=
  match t with
  | Some h => wf_bytes32 h
  | None => True
  end.

Definition wf_event (e : Event.t) : Prop :=
  wf_bytes32 (Event.BlockID e) /\ wf_bytes32 (Event.TxID e)
  /\ wf_address (Event.TxOrigin e) /\ wf_address (Event.Address e)
  /\ Forall wf_topic (Array5_list (Event.Topics e)).

Definition wf_transfer (t : Transfer.t) : Prop :=
  wf_bytes32 (Transfer.BlockID t) /\ wf_bytes32 (Transfer.TxID t)
  /\ wf_address (Transfer.TxOrigin t) /\ wf_address (Transfer.Sender t)
  /\ wf_address (Transfer.Recipient t) /\ 0 <= Transfer.Amount t.

(** The sequence indices of a batch are distinct as long as they do not wrap
    around. *)
Definition batch_fits (bb : BlockBatch) : Prop :=
  Z.of_nat (length (events bb)) <= 2 ^ 32
  /\ Z.of_nat (length (transfers bb)) <= 2 ^ 32.

(** Stored rows that a commit of [bb] replaces: those holding the key of one
    of its records. *)
Definition event_replaced (bb : BlockBatch) (r : EventRow) : bool :=
  existsb (fun e => key_eqb (event_key r) (event_key (event_row e))) (events bb).

Definition transfer_replaced (bb : BlockBatch) (r : TransferRow) : bool :=
  existsb (fun t => key_eqb (transfer_key r) (transfer_key (transfer_row t)))
          (transfers bb).

(** Stored rows that a commit of [bb] leaves in place. *)
Definition event_kept (bb : BlockBatch) (r : EventRow) : bool :=
  negb ((Number (header bb) >? 0) && (er_blockNumber r >=? Number (header bb)))
  && negb (event_replaced bb r).

Definition transfer_kept (bb : BlockBatch) (r : TransferRow) : bool :=
  negb ((Number (header bb) >? 0) && (tr_blockNumber r >=? Number (header bb)))
  && negb (transfer_replaced bb r).

(* ================================================================== *)
(** ** The shape of the composed statements *)

(** A run of [AND c op ?] fragments with the parameters they bind. *)
Definition conjunct (col : Type) : Type := (col * SQL.cmpop * SQL.value)%type.

Definition conj_tokens {col} (cs : list (conjunct col)) : list (SQL.token col) :=
  flat_map (fun c => [SQL.TkAnd; SQL.TkCmp (fst (fst c)) (snd (fst c))]) cs.

Definition conj_args {col} (cs : list (conjunct col)) : list SQL.value :=
  map snd cs.

Definition conj_value {col} (lookup : col -> SQL.value) (a : SQL.tv)
    (cs : list (conjunct col)) : SQL.tv :=
  fold_left (fun a c => SQL.and3 a (SQL.compare_op (snd (fst c)) (lookup (fst (fst c))) (snd c)))
            cs a.

Definition conj_holds {col} (lookup : col -> SQL.value) (cs : list (conjunct col)) : bool :=
  forallb (fun c => SQL.is_true (SQL.compare_op (snd (fst c)) (lookup (fst (fst c))) (snd c)))
          cs.

Definition eq_conjunct {col} (c : col) (v : option bytes) : list (conjunct col) :=
  match v with
  | Some b => [(c, SQL.OpEq, SQL.VBlob b)]
  | None => []
  end.

Definition range_conjuncts {col} (blockNumber blockTime : col) (r : option Range)
  : list (conjunct col) :=
  match r with
  | None => []
  | Some r =>
      let condition := match Unit r with Time => blockTime | Block => blockNumber end in
      (condition, SQL.OpGe, SQL.VInt (From r))
      :: (if To r >=? From r then [(condition, SQL.OpLe, SQL.VInt (To r))] else [])
  end.

Definition topic_conjuncts (l : list (nat * option thor_Bytes32)) : list (conjunct ecol) :=
  flat_map (fun jt => eq_conjunct (ETopic (fst jt)) (snd jt)) l.

Definition event_conjuncts (c : EventCriteria.t) : list (conjunct ecol) :=
  eq_conjunct EAddress (EventCriteria.Address c)
  ++ topic_conjuncts (enumerate (Array5_list (EventCriteria.Topics c))).

Definition transfer_conjuncts (c : TransferCriteria.t) : list (conjunct tcol) :=
  eq_conjunct TTxOrigin (TransferCriteria.TxOrigin c)
  ++ eq_conjunct TSender (TransferCriteria.Sender c)
  ++ eq_conjunct TRecipient (TransferCriteria.Recipient c).

(** The text of one criteria group of [FilterEvents]. *)
Definition event_group_tokens (ic : nat * EventCriteria.t) : list (SQL.token ecol) :=
  (if (fst ic =? 0)%nat
   then [SQL.TkAnd; SQL.TkOpen; SQL.TkOne]
   else [SQL.TkOr; SQL.TkOpen; SQL.TkOne])
  ++ conj_tokens (event_conjuncts (snd ic)) ++ [SQL.TkClose].

(** The text of one criteria group of [FilterTransfers]. *)
Definition transfer_group_tokens (length : nat) (ic : nat * TransferCriteria.t)
  : list (SQL.token tcol) :=
  (if (fst ic =? 0)%nat
   then [SQL.TkAnd; SQL.TkOpen; SQL.TkOpen; SQL.TkOne]
   else [SQL.TkOr; SQL.TkOpen; SQL.TkOne])
  ++ conj_tokens (transfer_conjuncts (snd ic))
  ++ (if (fst ic =? length - 1)%nat then [SQL.TkClose; SQL.TkClose] else [SQL.TkClose]).


(** The text of a group that follows [OR]. *)
Definition or_group_tokens {col} (cs : list (conjunct col)) : list (SQL.token col) :=
  [SQL.TkOr; SQL.TkOpen; SQL.TkOne] ++ conj_tokens cs ++ [SQL.TkClose].

(** What the WHERE clause of [FilterEvents] evaluates to, for any reading of
    the columns. *)
Definition event_where_holds (lookup : ecol -> SQL.value) (f : EventFilter.t) : bool :=
  let range := conj_holds lookup
                 (range_conjuncts EBlockNumber EBlockTime (EventFilter.Range f)) in
  match EventFilter.CriteriaSet f with
  | [] => range
  | c :: cs =>
      (range && conj_holds lookup (event_conjuncts c))
      || existsb (fun c => conj_holds lookup (event_conjuncts c)) cs
  end.

(** What the WHERE clause of [FilterTransfers] evaluates to. *)
Definition transfer_where_holds (lookup : tcol -> SQL.value) (f : TransferFilter.t) : bool :=
  conj_holds lookup (range_conjuncts TBlockNumber TBlockTime (TransferFilter.Range f))
  && conj_holds lookup (eq_conjunct TTxID (TransferFilter.TxID f))
  && match TransferFilter.CriteriaSet f with
     | [] => true
     | cs => existsb (fun c => conj_holds lookup (transfer_conjuncts c)) cs
     end.


(** The rows a filter call reads, in the order it reads them. *)
Definition event_order (o : OrderType) (a b : EventRow) : bool :=
  key_leb o (event_key a) (event_key b).

Definition transfer_order (o : OrderType) (a b : TransferRow) : bool :=
  key_leb o (transfer_key a) (transfer_key b).

Definition selected_events (f : option EventFilter.t) (db : DB) : list EventRow :=
  match f with
  | None => event db
  | Some f =>
      paginate (EventFilter.Options f)
               (SQL.sort_by (event_order (EventFilter.Order f))
                            (filter (event_selected f) (event db)))
  end.

Definition selected_transfers (f : option TransferFilter.t) (db : DB) : list TransferRow :=
  match f with
  | None => transfer db
  | Some f =>
      paginate (TransferFilter.Options f)
               (SQL.sort_by (transfer_order (TransferFilter.Order f))
                            (filter (transfer_selected f) (transfer db)))
  end.

Definition event_filter_options (f : option EventFilter.t) : option Options :=
  match f with
  | Some f => EventFilter.Options f
  | None => None
  end.

Definition transfer_filter_options (f : option TransferFilter.t) : option Options :=
  match f with
  | Some f => TransferFilter.Options f
  | None => None
  end.

(** The Done channel is found closed by one of the polls of a scan that
    would produce [n] rows: the poll of [QueryContext], or the poll made
    before row [i], for [i < n]. *)
Definition cancelled (ctx : Context) (n : nat) : bool :=
  Done ctx 0%nat || existsb (Done ctx) (seq 0 n).


(** The three effects of a commit on the store. *)
Definition truncate (bb : BlockBatch) (db : DB) : DB :=
  if Number (header bb) >? 0
  then delete_transfers_from (Number (header bb))
                             (delete_events_from (Number (header bb)) db)
  else db.

Definition mark (bb : BlockBatch) (db : DB) : DB :=
  if Number (header bb) >? 0
  then replace_config configBlockNumKey (PutUint32 (Number (header bb))) db
  else db.

Definition insert_all (bb : BlockBatch) (db : DB) : DB :=
  fold_left (fun d t => insert_transfer t d) (transfers bb)
            (fold_left (fun d e => insert_event e d) (events bb) db).

(** The records of a batch carry the block number of its header and their
    position as sequence index. *)
Definition indexed_events (h : Header) (l : list Event.t) : Prop :=
  forall i e, nth_error l i = Some e ->
    Event.BlockNumber e = Number h /\ Event.Index e = uint32 (Z.of_nat i).

Definition indexed_transfers (h : Header) (l : list Transfer.t) : Prop :=
  forall i t, nth_error l i = Some t ->
    Transfer.BlockNumber t = Number h /\ Transfer.Index t = uint32 (Z.of_nat i).

Definition batch_indexed (bb : BlockBatch) : Prop :=
  indexed_events (header bb) (events bb) /\ indexed_transfers (header bb) (transfers bb).

Definition wf_batch (bb : BlockBatch) : Prop :=
  Forall wf_event (events bb) /\ Forall wf_transfer (transfers bb).


(* ================================================================== *)
(** ** Further notions used by the properties of the package *)

(** The statements of the transaction of [Commit] whose error is looked at,
    by their position in the transaction: the two DELETEs and then the
    INSERTs from position 3 on for a height above 0 (position 2 is the marker
    update), the INSERTs from position 0 on for height 0. *)
Definition commit_checked (bb : BlockBatch) : list nat :=
  if Number (header bb) >? 0
  then [0%nat; 1%nat] ++ seq 3 (length (events bb) + length (transfers bb))
  else seq 0 (length (events bb) + length (transfers bb)).

(** Stores that [Commit] alone has written, starting from the empty store
    that [New] creates. *)
Inductive written_by_commits : DB -> Prop :=
| written_new : written_by_commits (mkDB [] [] [])
| written_commit (db : DB) (io : TxIO) (bb : BlockBatch) :
    written_by_commits db -> written_by_commits (snd (Commit io bb db)).

(** A returned event carries what a criteria group asks for: its address,
    and each of its non-nil topics in the same slot. *)
Definition event_matches (c : EventCriteria.t) (e : Event.t) : Prop :=
  (forall a, EventCriteria.Address c = Some a -> Event.Address e = a)
  /\ (forall j t, Array5_get (EventCriteria.Topics c) j None = Some t ->
        Array5_get (Event.Topics e) j None = Some t).

Definition wf_event_criteria (c : EventCriteria.t) : Prop :=
  (forall a, EventCriteria.Address c = Some a -> wf_address a)
  /\ Forall wf_topic (Array5_list (EventCriteria.Topics c)).


(** Every value of table [config] is a 4-byte array. *)
Definition marker_well_formed (db : DB) : Prop :=
  Forall (fun kv => length (snd kv) = 4%nat) (config db).


(** One commit per batch, in order, on a store that does not fail: what the
    chain pipeline does block after block. *)
Definition commit_all (db : DB) (batches : list BlockBatch) : DB :=
  fold_left (fun d bb => snd (Commit tx_ok bb d)) batches db.

(** A block to index: its header and the [Insert] calls made for it. *)
Definition block_batch (b : Header * list InsertCall) : BlockBatch :=
  build (fst b) (snd b).


(** Sample data used by the examples below. *)
Module Sample.
Definition addrA : thor_Address := repeat x0a 20.
Definition addrB : thor_Address := repeat x0b 20.
Definition hash (b : byte) : thor_Bytes32 := repeat b 32.
Definition hdr (n : Z) : Header := mkHeader n (hash x01) (1000 + n).
Definition no_topics : Array5 (option thor_Bytes32) :=
  mkArray5 None None None None None.

(** One clause emitting an event from contract [a] and moving 300 from
    [addrA] to [a]. *)
Definition call (a : thor_Address) : InsertCall :=
  mkCall (hash x02) addrA
         [TxEvent.mk a [hash x07] [x01; x02]]
         [TxTransfer.mk addrA a 300] 0.

Definition empty : DB := mkDB [] [] [].

(** A store indexed at height 5, then at height 15. *)
Definition db5 : DB := snd (Commit tx_ok (build (hdr 5) [call addrB]) empty).
Definition db15 : DB :=
  snd (Commit tx_ok (build (hdr 15) [call addrA; call addrB]) db5).

(** Blocks 10 to 20, emitted by [addrA] or by [addrB]. *)
Definition two_groups : EventFilter.t :=
  EventFilter.mk [EventCriteria.mk (Some addrA) no_topics;
                  EventCriteria.mk (Some addrB) no_topics]
                 (Some (mkRange Block 10 20)) None ASC.

Definition two_groups_transfers : TransferFilter.t :=
  TransferFilter.mk None
                    [TransferCriteria.mk None None (Some addrA);
                     TransferCriteria.mk None None (Some addrB)]
                    (Some (mkRange Block 10 20)) None ASC.

(** The third statement of the transaction (the marker update) fails. *)
Definition marker_fault : TxIO := mkTxIO false (fun k => Nat.eqb k 2) false.

Definition keys (r : result (list Event.t)) : option (list (Z * Z)) :=
  match r with
  | Ok l => Some (map (fun e => (Event.BlockNumber e, Event.Index e)) l)
  | _ => None
  end.

Definition transfer_keys (r : result (list Transfer.t)) : option (list (Z * Z)) :=
  match r with
  | Ok l => Some (map (fun e => (Transfer.BlockNumber e, Transfer.Index e)) l)
  | _ => None
  end.

(** A context cancelled before the call, and one whose deadline passes
    after the first row. *)
Definition cancelled_ctx : Context := mkContext (fun _ => true) Canceled.
Definition late_ctx : Context := mkContext (fun i => Nat.leb 1 i) DeadlineExceeded.

(** Transfers of one transaction, second page of size one, newest first. *)
Definition by_txid : TransferFilter.t :=
  TransferFilter.mk (Some (hash x02)) [] None (Some (mkOptions 1 1)) DESC.

(** The criteria groups of [two_groups] under another Range; one group
    alone; and the groups of [two_groups_transfers]. *)
Definition groups_in (r : Range) : EventFilter.t :=
  EventFilter.mk (EventFilter.CriteriaSet two_groups) (Some r) None ASC.

Definition one_group_in (r : Range) : EventFilter.t :=
  EventFilter.mk [EventCriteria.mk (Some addrB) no_topics] (Some r) None ASC.

Definition transfer_groups_in (r : Range) : TransferFilter.t :=
  TransferFilter.mk None (TransferFilter.CriteriaSet two_groups_transfers)
                    (Some r) None ASC.

(** The keys of the returned records that Range [r] excludes. *)
Definition events_outside (r : Range) (res : result (list Event.t))
  : option (list (Z * Z)) :=
  keys match res with
       | Ok l => Ok (filter (fun e => negb (range_holds (Some r) (Event.BlockNumber e)
                                                        (Event.BlockTime e))) l)
       | other => other
       end.

Definition transfers_outside (r : Range) (res : result (list Transfer.t))
  : option (list (Z * Z)) :=
  transfer_keys
    match res with
    | Ok l => Ok (filter (fun t => negb (range_holds (Some r) (Transfer.BlockNumber t)
                                                     (Transfer.BlockTime t))) l)
    | other => other
    end.
End Sample.

(* ================================================================== *)
(** * Properties *)

(** ** Byte-level codecs *)

Lemma bytes_eqb_true (a b : bytes) : bytes_eqb a b = true <-> a = b.
Proof.
  unfold bytes_eqb. destruct (list_eq_dec byte_eq_dec a b); split; congruence.
Qed.

Lemma bytes_eqb_refl (a : bytes) : bytes_eqb a a = true.
Proof. apply bytes_eqb_true. reflexivity. Qed.

Lemma set_bytes_exact (n : nat) (b : bytes) : length b = n -> set_bytes n b = b.
Proof.
  intros <-. unfold set_bytes. rewrite Nat.sub_diag. simpl. rewrite Nat.sub_diag.
  reflexivity.
Qed.

Lemma BytesToBytes32_Bytes (h : thor_Bytes32) :
  wf_bytes32 h -> BytesToBytes32 (Bytes32_Bytes h) = h.
Proof. apply set_bytes_exact. Qed.

Lemma BytesToAddress_Bytes (a : thor_Address) :
  wf_address a -> BytesToAddress (Address_Bytes a) = a.
Proof. apply set_bytes_exact. Qed.

Lemma Z_of_byte_inj (x y : byte) : Z_of_byte x = Z_of_byte y -> x = y.
Proof.
  unfold Z_of_byte. intros H. apply N2Z.inj in H.
  assert (E : Byte.of_N (Byte.to_N x) = Byte.of_N (Byte.to_N y)) by (now rewrite H).
  rewrite !Byte.of_to_N in E. congruence.
Qed.

Lemma Z_of_byte_of_Z (z : Z) : Z_of_byte (byte_of_Z z) = z mod 256.
Proof.
  unfold Z_of_byte, byte_of_Z.
  assert (B : 0 <= z mod 256 < 256) by (apply Z.mod_pos_bound; lia).
  destruct (Byte.of_N (Z.to_N (z mod 256))) as [b|] eqn:E.
  - apply Byte.to_of_N in E. rewrite E. lia.
  - apply Byte.of_N_None_iff in E. lia.
Qed.

Lemma BigInt_SetBytes_rev (l : bytes) : BigInt_SetBytes (rev l) = le_value l.
Proof.
  unfold BigInt_SetBytes, le_value.
  rewrite <- (rev_involutive l) at 2. rewrite fold_left_rev_right. reflexivity.
Qed.

Lemma le_value_digits (fuel : nat) :
  forall n, 0 <= n < 2 ^ Z.of_nat fuel -> le_value (le_digits fuel n) = n.
Proof.
  induction fuel as [|f IH]; intros n Hn.
  - simpl in *. lia.
  - cbn [le_digits]. destruct (n =? 0) eqn:E.
    + apply Z.eqb_eq in E. subst. reflexivity.
    + cbn [le_value fold_right]. fold (le_value (le_digits f (n / 256))).
      rewrite Z_of_byte_of_Z, IH.
      * pose proof (Z.div_mod n 256). lia.
      * split; [apply Z.div_pos; lia|].
        apply Z.div_lt_upper_bound; [lia|].
        rewrite Nat2Z.inj_succ, Z.pow_succ_r in Hn by lia.
        assert (0 < 2 ^ Z.of_nat f) by (apply Z.pow_pos_nonneg; lia). lia.
Qed.

Lemma BigInt_roundtrip (a : Z) : 0 <= a -> BigInt_SetBytes (BigInt_Bytes a) = a.
Proof.
  intros Ha. unfold BigInt_Bytes. rewrite BigInt_SetBytes_rev, Z.abs_eq by assumption.
  apply le_value_digits. split; [assumption|].
  destruct (Z.eq_dec a 0) as [->|Hne]; [simpl; lia|].
  rewrite Nat2Z.inj_succ, Z2Nat.id by apply Z.log2_nonneg.
  apply Z.log2_spec. lia.
Qed.

(** ** Three-valued logic and comparisons *)

Lemma is_true_and3 (a b : SQL.tv) :
  SQL.is_true (SQL.and3 a b) = SQL.is_true a && SQL.is_true b.
Proof. destruct a, b; reflexivity. Qed.

Lemma is_true_or3 (a b : SQL.tv) :
  SQL.is_true (SQL.or3 a b) = SQL.is_true a || SQL.is_true b.
Proof. destruct a, b; reflexivity. Qed.

Lemma and3_true_l (a : SQL.tv) : SQL.and3 SQL.TTrue a = a.
Proof. destruct a; reflexivity. Qed.

Lemma or3_false_l (a : SQL.tv) : SQL.or3 SQL.TFalse a = a.
Proof. destruct a; reflexivity. Qed.

Lemma blob_compare_eq (a : bytes) : forall b, SQL.blob_compare a b = Eq <-> a = b.
Proof.
  induction a as [|x a IH]; intros [|y b]; simpl; try (split; congruence).
  destruct (Z.compare_spec (Z_of_byte x) (Z_of_byte y)) as [E|L|G].
  - apply Z_of_byte_inj in E. subst y. rewrite IH. split; congruence.
  - split; [discriminate|]. intros [= -> _]. lia.
  - split; [discriminate|]. intros [= -> _]. lia.
Qed.

Lemma is_true_eq_blob (x y : bytes) :
  SQL.is_true (SQL.compare_op SQL.OpEq (SQL.VBlob x) (SQL.VBlob y)) = bytes_eqb x y.
Proof.
  simpl. destruct (SQL.blob_compare x y) eqn:E.
  - apply blob_compare_eq in E. subst. now rewrite bytes_eqb_refl.
  - destruct (bytes_eqb x y) eqn:B; [|reflexivity].
    apply bytes_eqb_true, blob_compare_eq in B. congruence.
  - destruct (bytes_eqb x y) eqn:B; [|reflexivity].
    apply bytes_eqb_true, blob_compare_eq in B. congruence.
Qed.

Lemma is_true_ge_int (x a : Z) :
  SQL.is_true (SQL.compare_op SQL.OpGe (SQL.VInt x) (SQL.VInt a)) = (a <=? x).
Proof.
  simpl. destruct (Z.compare_spec x a); destruct (Z.leb_spec a x); try reflexivity; lia.
Qed.

Lemma is_true_le_int (x a : Z) :
  SQL.is_true (SQL.compare_op SQL.OpLe (SQL.VInt x) (SQL.VInt a)) = (x <=? a).
Proof.
  simpl. destruct (Z.compare_spec x a); destruct (Z.leb_spec x a); try reflexivity; lia.
Qed.

(** ** The evaluator on composed text *)

Section Run.
Context {col : Type}.
Variable lookup : col -> SQL.value.

Lemma run_app (ts1 ts2 : list (SQL.token col)) : forall s,
  SQL.run lookup s (ts1 ++ ts2) =
  match SQL.run lookup s ts1 with
  | Some s' => SQL.run lookup s' ts2
  | None => None
  end.
Proof.
  induction ts1 as [|t ts1 IH]; intros s; simpl; [reflexivity|].
  destruct (SQL.step lookup s t); [apply IH|reflexivity].
Qed.

Lemma run_conj (cs : list (conjunct col)) : forall st o a rest,
  SQL.run lookup (SQL.mkP st (SQL.mkFrame o a) false (conj_args cs ++ rest))
          (conj_tokens cs)
  = Some (SQL.mkP st (SQL.mkFrame o (conj_value lookup a cs)) false rest).
Proof.
  induction cs as [|[[c op] v] cs IH]; intros st o a rest; simpl; [reflexivity|].
  unfold SQL.operand. simpl. apply IH.
Qed.

Lemma is_true_conj_value (cs : list (conjunct col)) : forall a,
  SQL.is_true (conj_value lookup a cs) = SQL.is_true a && conj_holds lookup cs.
Proof.
  induction cs as [|c cs IH]; intros a; simpl.
  - now rewrite andb_true_r.
  - unfold conj_value in *. simpl. rewrite IH, is_true_and3, andb_assoc. reflexivity.
Qed.

Lemma conj_holds_app (cs1 cs2 : list (conjunct col)) :
  conj_holds lookup (cs1 ++ cs2) = conj_holds lookup cs1 && conj_holds lookup cs2.
Proof. apply forallb_app. Qed.

(** [... ( 1 AND c1 = ? AND ... )] after an operator: the group's value
    joins the conjunction being read. *)
Lemma run_group (cs : list (conjunct col)) st o a rest :
  SQL.run lookup (SQL.mkP st (SQL.mkFrame o a) true (conj_args cs ++ rest))
          ([SQL.TkOpen; SQL.TkOne] ++ conj_tokens cs ++ [SQL.TkClose])
  = Some (SQL.mkP st (SQL.mkFrame o (SQL.and3 a (conj_value lookup SQL.TTrue cs)))
                  false rest).
Proof.
  change ([SQL.TkOpen; SQL.TkOne] ++ conj_tokens cs ++ [SQL.TkClose])
    with (SQL.TkOpen :: SQL.TkOne :: (conj_tokens cs ++ [SQL.TkClose])).
  cbn [SQL.run SQL.step SQL.p_operand SQL.p_args SQL.p_cur SQL.p_stack
       SQL.operand SQL.f_or SQL.f_and].
  unfold SQL.operand. cbn [SQL.p_stack SQL.p_cur SQL.f_or SQL.f_and SQL.and3].
  rewrite run_app, run_conj.
  cbn [SQL.run SQL.step SQL.p_operand SQL.p_args SQL.p_cur SQL.p_stack
       SQL.f_or SQL.f_and].
  now rewrite or3_false_l.
Qed.
End Run.

(** ** The composed statements, fragment by fragment *)

Lemma emit_nil {col} (q : sql col) : emit q [] [] = q.
Proof. destruct q. unfold emit. simpl. now rewrite !app_nil_r. Qed.

Lemma emit_emit {col} (q : sql col) ts1 vs1 ts2 vs2 :
  emit (emit q ts1 vs1) ts2 vs2 = emit q (ts1 ++ ts2) (vs1 ++ vs2).
Proof. unfold emit. simpl. now rewrite !app_assoc. Qed.

Lemma conj_tokens_app {col} (a b : list (conjunct col)) :
  conj_tokens (a ++ b) = conj_tokens a ++ conj_tokens b.
Proof. apply flat_map_app. Qed.

Lemma conj_args_app {col} (a b : list (conjunct col)) :
  conj_args (a ++ b) = conj_args a ++ conj_args b.
Proof. apply map_app. Qed.

Lemma range_sql_emit {col} (bn bt : col) (q : sql col) (r : option Range) :
  range_sql bn bt q r
  = emit q (conj_tokens (range_conjuncts bn bt r)) (conj_args (range_conjuncts bn bt r)).
Proof.
  destruct r as [r|]; simpl; [|now rewrite emit_nil].
  destruct (To r >=? From r); [now rewrite emit_emit|reflexivity].
Qed.

Lemma eq_conjunct_emit {col} (c : col) (q : sql col) (v : option bytes) :
  match v with
  | Some a => emit q [SQL.TkAnd; SQL.TkCmp c SQL.OpEq] [SQL.VBlob a]
  | None => q
  end
  = emit q (conj_tokens (eq_conjunct c v)) (conj_args (eq_conjunct c v)).
Proof. destruct v; simpl; [reflexivity|now rewrite emit_nil]. Qed.

Lemma topics_sql_emit (l : list (nat * option thor_Bytes32)) : forall q,
  fold_left event_topic_sql l q
  = emit q (conj_tokens (topic_conjuncts l)) (conj_args (topic_conjuncts l)).
Proof.
  induction l as [|[j t] l IH]; intros q; simpl; [now rewrite emit_nil|].
  rewrite IH. unfold event_topic_sql, topic_conjuncts, Bytes32_Bytes. cbn [fst snd flat_map].
  fold (topic_conjuncts l).
  destruct t; cbn [eq_conjunct app]; [now rewrite emit_emit|reflexivity].
Qed.

Lemma event_criteria_sql_emit (q : sql ecol) (ic : nat * EventCriteria.t) :
  event_criteria_sql q ic
  = emit q (event_group_tokens ic) (conj_args (event_conjuncts (snd ic))).
Proof.
  destruct ic as [i c].
  unfold event_criteria_sql, event_group_tokens, event_conjuncts, Address_Bytes.
  cbn [fst snd].
  rewrite topics_sql_emit, conj_tokens_app, conj_args_app.
  destruct (EventCriteria.Address c); destruct (i =? 0)%nat;
    rewrite !emit_emit; cbn [eq_conjunct conj_tokens conj_args flat_map map app fst snd];
    rewrite ?app_nil_r, <- ?app_assoc; reflexivity.
Qed.

Lemma event_groups_sql_emit (l : list (nat * EventCriteria.t)) : forall q,
  fold_left event_criteria_sql l q
  = emit q (flat_map event_group_tokens l)
           (flat_map (fun ic => conj_args (event_conjuncts (snd ic))) l).
Proof.
  induction l as [|ic l IH]; intros q; simpl; [now rewrite emit_nil|].
  now rewrite IH, event_criteria_sql_emit, emit_emit.
Qed.

Lemma transfer_criteria_sql_emit (n : nat) (q : sql tcol) (ic : nat * TransferCriteria.t) :
  transfer_criteria_sql n q ic
  = emit q (transfer_group_tokens n ic) (conj_args (transfer_conjuncts (snd ic))).
Proof.
  destruct ic as [i c].
  unfold transfer_criteria_sql, transfer_group_tokens, transfer_conjuncts,
    transfer_address_sql, Address_Bytes.
  cbn [fst snd].
  destruct (TransferCriteria.TxOrigin c); destruct (TransferCriteria.Sender c);
    destruct (TransferCriteria.Recipient c);
    destruct (i =? 0)%nat; destruct (i =? n - 1)%nat;
    rewrite ?emit_emit; reflexivity.
Qed.

Lemma transfer_groups_sql_emit (n : nat) (l : list (nat * TransferCriteria.t)) : forall q,
  fold_left (transfer_criteria_sql n) l q
  = emit q (flat_map (transfer_group_tokens n) l)
           (flat_map (fun ic => conj_args (transfer_conjuncts (snd ic))) l).
Proof.
  induction l as [|ic l IH]; intros q; simpl; [now rewrite emit_nil|].
  now rewrite IH, transfer_criteria_sql_emit, emit_emit.
Qed.

(** ** Groups joined by AND and OR *)

Section Groups.
Context {col : Type}.
Variable lookup : col -> SQL.value.

Lemma run_or_group (cs : list (conjunct col)) st o a rest :
  SQL.run lookup (SQL.mkP st (SQL.mkFrame o a) false (conj_args cs ++ rest))
          (or_group_tokens cs)
  = Some (SQL.mkP st (SQL.mkFrame (SQL.or3 o a)
                                   (SQL.and3 SQL.TTrue (conj_value lookup SQL.TTrue cs)))
                  false rest).
Proof.
  unfold or_group_tokens.
  change ([SQL.TkOr; SQL.TkOpen; SQL.TkOne] ++ conj_tokens cs ++ [SQL.TkClose])
    with (SQL.TkOr :: ([SQL.TkOpen; SQL.TkOne] ++ conj_tokens cs ++ [SQL.TkClose])).
  cbn [SQL.run SQL.step SQL.p_operand SQL.p_args SQL.p_cur SQL.p_stack
       SQL.f_or SQL.f_and].
  apply run_group.
Qed.

Lemma run_and_group (cs : list (conjunct col)) st o a rest :
  SQL.run lookup (SQL.mkP st (SQL.mkFrame o a) false (conj_args cs ++ rest))
          ([SQL.TkAnd; SQL.TkOpen; SQL.TkOne] ++ conj_tokens cs ++ [SQL.TkClose])
  = Some (SQL.mkP st (SQL.mkFrame o (SQL.and3 a (conj_value lookup SQL.TTrue cs)))
                  false rest).
Proof.
  change ([SQL.TkAnd; SQL.TkOpen; SQL.TkOne] ++ conj_tokens cs ++ [SQL.TkClose])
    with (SQL.TkAnd :: ([SQL.TkOpen; SQL.TkOne] ++ conj_tokens cs ++ [SQL.TkClose])).
  cbn [SQL.run SQL.step SQL.p_operand SQL.p_args SQL.p_cur SQL.p_stack
       SQL.f_or SQL.f_and].
  apply run_group.
Qed.

(** [AND (( 1 AND ... )]: the outer parenthesis stays open. *)
Lemma run_and_open_group (cs : list (conjunct col)) st o a rest :
  SQL.run lookup (SQL.mkP st (SQL.mkFrame o a) false (conj_args cs ++ rest))
          ([SQL.TkAnd; SQL.TkOpen; SQL.TkOpen; SQL.TkOne] ++ conj_tokens cs
           ++ [SQL.TkClose])
  = Some (SQL.mkP (SQL.mkFrame o a :: st)
                  (SQL.mkFrame SQL.TFalse
                               (SQL.and3 SQL.TTrue (conj_value lookup SQL.TTrue cs)))
                  false rest).
Proof.
  change ([SQL.TkAnd; SQL.TkOpen; SQL.TkOpen; SQL.TkOne] ++ conj_tokens cs
          ++ [SQL.TkClose])
    with (SQL.TkAnd :: SQL.TkOpen
          :: ([SQL.TkOpen; SQL.TkOne] ++ conj_tokens cs ++ [SQL.TkClose])).
  cbn [SQL.run SQL.step SQL.p_operand SQL.p_args SQL.p_cur SQL.p_stack
       SQL.f_or SQL.f_and].
  apply run_group.
Qed.

Lemma run_close up st o a rest :
  SQL.run lookup (SQL.mkP (up :: st) (SQL.mkFrame o a) false rest) [SQL.TkClose]
  = Some (SQL.mkP st (SQL.mkFrame (SQL.f_or up)
                                   (SQL.and3 (SQL.f_and up) (SQL.or3 o a)))
                  false rest).
Proof. reflexivity. Qed.

Lemma run_or_groups (gs : list (list (conjunct col))) : forall st o a rest,
  exists o' a',
    SQL.run lookup (SQL.mkP st (SQL.mkFrame o a) false (flat_map conj_args gs ++ rest))
            (flat_map or_group_tokens gs)
    = Some (SQL.mkP st (SQL.mkFrame o' a') false rest)
    /\ SQL.is_true (SQL.or3 o' a')
       = SQL.is_true (SQL.or3 o a) || existsb (conj_holds lookup) gs.
Proof.
  induction gs as [|cs gs IH]; intros st o a rest.
  - exists o, a. simpl. now rewrite orb_false_r.
  - cbn [flat_map existsb]. rewrite <- app_assoc, run_app, run_or_group.
    destruct (IH st (SQL.or3 o a)
                 (SQL.and3 SQL.TTrue (conj_value lookup SQL.TTrue cs)) rest)
      as (o' & a' & Hrun & Hv).
    exists o', a'. split; [exact Hrun|].
    rewrite Hv, is_true_or3, is_true_and3, is_true_conj_value, is_true_or3.
    simpl. now rewrite orb_assoc.
Qed.
End Groups.

(** ** The WHERE clauses of the two filters *)

Ltac sql_cbn :=
  cbn [SQL.run SQL.step SQL.p_operand SQL.p_args SQL.p_cur SQL.p_stack
       SQL.f_or SQL.f_and flat_map map app].


Lemma event_tail_tokens (cs : list EventCriteria.t) : forall k,
  (1 <= k)%nat ->
  flat_map event_group_tokens (combine (seq k (length cs)) cs)
  = flat_map or_group_tokens (map event_conjuncts cs).
Proof.
  induction cs as [|c cs IH]; intros k Hk; [reflexivity|].
  cbn [length seq combine flat_map map]. rewrite IH by lia.
  unfold event_group_tokens at 1. cbn [fst snd].
  destruct k; [lia|]. reflexivity.
Qed.

Lemma event_tail_args (cs : list EventCriteria.t) : forall k,
  flat_map (fun ic => conj_args (event_conjuncts (snd ic))) (combine (seq k (length cs)) cs)
  = flat_map conj_args (map event_conjuncts cs).
Proof.
  induction cs as [|c cs IH]; intros k; [reflexivity|].
  cbn [length seq combine flat_map map snd]. now rewrite IH.
Qed.

Lemma transfer_tail_tokens (cs : list TransferCriteria.t) : forall k n,
  (1 <= k)%nat -> cs <> [] -> (k + length cs = n)%nat ->
  flat_map (transfer_group_tokens n) (combine (seq k (length cs)) cs)
  = flat_map or_group_tokens (map transfer_conjuncts cs) ++ [SQL.TkClose].
Proof.
  induction cs as [|c cs IH]; intros k n Hk Hne Hn; [congruence|].
  cbn [length seq combine flat_map map].
  unfold transfer_group_tokens at 1. cbn [fst snd].
  destruct k as [|k]; [lia|]. change (S k =? 0)%nat with false. cbv iota.
  destruct cs as [|c' cs].
  - cbn [length] in Hn.
    replace (S k =? n - 1)%nat with true by (symmetry; apply Nat.eqb_eq; lia).
    cbn [combine seq length flat_map map]. unfold or_group_tokens.
    rewrite !app_nil_r, <- !app_assoc. reflexivity.
  - cbn [length] in Hn.
    replace (S k =? n - 1)%nat with false by (symmetry; apply Nat.eqb_neq; lia).
    rewrite (IH (S (S k)) n) by (cbn [length]; try lia; congruence).
    cbn [map flat_map]. unfold or_group_tokens. rewrite <- !app_assoc. reflexivity.
Qed.

Lemma transfer_tail_args (cs : list TransferCriteria.t) : forall k,
  flat_map (fun ic => conj_args (transfer_conjuncts (snd ic)))
           (combine (seq k (length cs)) cs)
  = flat_map conj_args (map transfer_conjuncts cs).
Proof.
  induction cs as [|c cs IH]; intros k; [reflexivity|].
  cbn [length seq combine flat_map map snd]. now rewrite IH.
Qed.

Lemma existsb_map {A B} (f : A -> B) (p : B -> bool) (l : list A) :
  existsb p (map f l) = existsb (fun x => p (f x)) l.
Proof. induction l as [|x l IH]; simpl; [reflexivity|now rewrite IH]. Qed.

Lemma eval_where_events (lookup : ecol -> SQL.value) (f : EventFilter.t) rest :
  let q := fold_left event_criteria_sql (enumerate (EventFilter.CriteriaSet f))
             (range_sql EBlockNumber EBlockTime ([SQL.TkOne], []) (EventFilter.Range f)) in
  exists v,
    SQL.eval_where lookup (fst q) (snd q ++ rest) = Some (v, rest)
    /\ SQL.is_true v = event_where_holds lookup f.
Proof.
  intros q. subst q.
  rewrite event_groups_sql_emit, range_sql_emit, emit_emit.
  unfold emit, event_where_holds. cbn [fst snd app].
  set (R := range_conjuncts EBlockNumber EBlockTime (EventFilter.Range f)).
  unfold SQL.eval_where, SQL.start.
  cbn [SQL.run SQL.step SQL.p_operand SQL.p_args SQL.p_cur SQL.p_stack].
  unfold SQL.operand. cbn [SQL.p_stack SQL.p_cur SQL.f_or SQL.f_and SQL.and3].
  rewrite <- app_assoc, run_app, run_conj.
  destruct (EventFilter.CriteriaSet f) as [|c cs].
  - sql_cbn. eexists. split; [reflexivity|]. sql_cbn.
    now rewrite or3_false_l, is_true_conj_value.
  - unfold enumerate. cbn [length seq combine flat_map].
    rewrite event_tail_tokens, event_tail_args by lia.
    unfold event_group_tokens at 1. cbn [fst snd Nat.eqb].
    rewrite <- app_assoc, run_app, run_and_group.
    destruct (run_or_groups lookup (map event_conjuncts cs) [] SQL.TFalse
                (SQL.and3 (conj_value lookup SQL.TTrue R)
                          (conj_value lookup SQL.TTrue (event_conjuncts c))) rest)
      as (o' & a' & Hrun & Hv).
    rewrite Hrun. sql_cbn. eexists. split; [reflexivity|]. sql_cbn.
    rewrite Hv, or3_false_l, is_true_and3, !is_true_conj_value, existsb_map.
    reflexivity.
Qed.

Lemma eval_where_transfers (lookup : tcol -> SQL.value) (f : TransferFilter.t) rest :
  let n := length (TransferFilter.CriteriaSet f) in
  let q := range_sql TBlockNumber TBlockTime ([SQL.TkOne], []) (TransferFilter.Range f) in
  let q := match TransferFilter.TxID f with
           | Some id => emit q [SQL.TkAnd; SQL.TkCmp TTxID SQL.OpEq]
                               [SQL.VBlob (Bytes32_Bytes id)]
           | None => q
           end in
  let q := if (0 <? n)%nat
           then fold_left (transfer_criteria_sql n)
                          (enumerate (TransferFilter.CriteriaSet f)) q
           else q in
  exists v,
    SQL.eval_where lookup (fst q) (snd q ++ rest) = Some (v, rest)
    /\ SQL.is_true v = transfer_where_holds lookup f.
Proof.
  intros n q0 q1 q. subst q q1 q0.
  unfold Bytes32_Bytes.
  rewrite (eq_conjunct_emit TTxID _ (TransferFilter.TxID f)).
  rewrite range_sql_emit, emit_emit, <- conj_tokens_app, <- conj_args_app.
  unfold transfer_where_holds. rewrite <- conj_holds_app.
  set (R := range_conjuncts TBlockNumber TBlockTime (TransferFilter.Range f)
            ++ eq_conjunct TTxID (TransferFilter.TxID f)).
  subst n. destruct (TransferFilter.CriteriaSet f) as [|c cs].
  - cbn [length Nat.ltb Nat.leb]. unfold emit. cbn [fst snd app].
    unfold SQL.eval_where, SQL.start.
    cbn [SQL.run SQL.step SQL.p_operand SQL.p_args SQL.p_cur SQL.p_stack].
    unfold SQL.operand. cbn [SQL.p_stack SQL.p_cur SQL.f_or SQL.f_and SQL.and3].
    rewrite run_conj. sql_cbn. eexists. split; [reflexivity|]. sql_cbn.
    now rewrite or3_false_l, is_true_conj_value, andb_true_r.
  - replace (0 <? length (c :: cs))%nat with true by reflexivity.
    rewrite transfer_groups_sql_emit, emit_emit.
    unfold emit. cbn [fst snd app].
    unfold SQL.eval_where, SQL.start.
    cbn [SQL.run SQL.step SQL.p_operand SQL.p_args SQL.p_cur SQL.p_stack].
    unfold SQL.operand. cbn [SQL.p_stack SQL.p_cur SQL.f_or SQL.f_and SQL.and3].
    rewrite <- app_assoc, run_app, run_conj.
    unfold enumerate. cbn [length seq combine flat_map].
    rewrite transfer_tail_args.
    unfold transfer_group_tokens at 1. cbn [fst snd Nat.eqb].
    destruct cs as [|c' cs].
    + cbn [length Nat.sub Nat.eqb combine seq flat_map map].
      rewrite !app_nil_r.
      change ([SQL.TkClose; SQL.TkClose]) with ([SQL.TkClose (col:=tcol)] ++ [SQL.TkClose]).
      rewrite !app_assoc, run_app, <- !app_assoc, run_and_open_group.
      sql_cbn. eexists. split; [reflexivity|]. sql_cbn.
      rewrite !or3_false_l, !is_true_and3, !is_true_conj_value. simpl.
      now rewrite orb_false_r.
    + pose proof (@transfer_tail_tokens (c' :: cs) 1%nat (S (length (c' :: cs)))
                    ltac:(lia) ltac:(congruence) ltac:(reflexivity)) as Ht.
      cbn [length Nat.sub] in *. cbv iota. rewrite Ht.
      rewrite <- !app_assoc.
      rewrite (app_assoc (conj_tokens (transfer_conjuncts c))), (app_assoc _ _ (flat_map _ _ ++ _)).
      rewrite run_app, run_and_open_group.
      rewrite run_app.
      destruct (run_or_groups lookup (map transfer_conjuncts (c' :: cs))
                  [SQL.mkFrame SQL.TFalse (conj_value lookup SQL.TTrue R)] SQL.TFalse
                  (SQL.and3 SQL.TTrue (conj_value lookup SQL.TTrue (transfer_conjuncts c)))
                  rest) as (o' & a' & Hrun & Hv).
      rewrite Hrun, run_close. sql_cbn. eexists. split; [reflexivity|]. sql_cbn.
      rewrite or3_false_l, is_true_and3, Hv, or3_false_l, is_true_and3,
        !is_true_conj_value, existsb_map.
      reflexivity.
Qed.

(** ** From column comparisons to the predicates on rows *)

Lemma range_conjuncts_holds {col} (lookup : col -> SQL.value) (bn bt : col) (x t : Z)
    (r : option Range) :
  lookup bn = SQL.VInt x -> lookup bt = SQL.VInt t ->
  conj_holds lookup (range_conjuncts bn bt r) = range_holds r x t.
Proof.
  intros Hx Ht. destruct r as [[u from to]|]; [|reflexivity].
  unfold range_conjuncts, range_holds. cbn [Unit From To].
  destruct u; destruct (to >=? from);
    cbn [conj_holds forallb fst snd]; rewrite ?Hx, ?Ht, ?is_true_ge_int, ?is_true_le_int;
    rewrite ?andb_true_r; reflexivity.
Qed.

Lemma eq_conjunct_holds {col} (lookup : col -> SQL.value) (c : col) (have : bytes)
    (want : option bytes) :
  lookup c = SQL.VBlob have ->
  conj_holds lookup (eq_conjunct c want) = blob_holds want have.
Proof.
  intros Hc. destruct want as [w|]; [|reflexivity].
  cbn [eq_conjunct conj_holds forallb fst snd blob_holds].
  now rewrite Hc, is_true_eq_blob, andb_true_r.
Qed.

Lemma topic_conjunct_holds {col} (lookup : col -> SQL.value) (c : col)
    (have : option bytes) (want : option thor_Bytes32) :
  lookup c = nullable have ->
  conj_holds lookup (eq_conjunct c want) = topic_holds want have.
Proof.
  intros Hc. destruct want as [w|]; [|reflexivity].
  cbn [eq_conjunct conj_holds forallb fst snd topic_holds]. rewrite Hc.
  destruct have as [b|]; cbn [nullable]; [|reflexivity].
  now rewrite is_true_eq_blob, andb_true_r.
Qed.

Lemma event_conjuncts_hold (c : EventCriteria.t) (r : EventRow) :
  conj_holds (event_get r) (event_conjuncts c) = event_group_holds c r.
Proof.
  unfold event_conjuncts, event_group_holds, enumerate, Array5_list, topic_conjuncts.
  cbn [length seq combine flat_map fst snd].
  rewrite !conj_holds_app.
  change (conj_holds (event_get r) []) with true. rewrite andb_true_r.
  rewrite (@eq_conjunct_holds _ (event_get r) EAddress (er_address r) _ eq_refl).
  rewrite (@topic_conjunct_holds _ (event_get r) (ETopic 0) (slot0 (er_topics r)) _ eq_refl).
  rewrite (@topic_conjunct_holds _ (event_get r) (ETopic 1) (slot1 (er_topics r)) _ eq_refl).
  rewrite (@topic_conjunct_holds _ (event_get r) (ETopic 2) (slot2 (er_topics r)) _ eq_refl).
  rewrite (@topic_conjunct_holds _ (event_get r) (ETopic 3) (slot3 (er_topics r)) _ eq_refl).
  rewrite (@topic_conjunct_holds _ (event_get r) (ETopic 4) (slot4 (er_topics r)) _ eq_refl).
  now rewrite !andb_assoc.
Qed.

Lemma transfer_conjuncts_hold (c : TransferCriteria.t) (r : TransferRow) :
  conj_holds (transfer_get r) (transfer_conjuncts c) = transfer_group_holds c r.
Proof.
  unfold transfer_conjuncts, transfer_group_holds.
  rewrite !conj_holds_app.
  rewrite (@eq_conjunct_holds _ (transfer_get r) TTxOrigin (tr_txOrigin r) _ eq_refl).
  rewrite (@eq_conjunct_holds _ (transfer_get r) TSender (tr_sender r) _ eq_refl).
  rewrite (@eq_conjunct_holds _ (transfer_get r) TRecipient (tr_recipient r) _ eq_refl).
  now rewrite andb_assoc.
Qed.

Lemma existsb_ext' {A} (p q : A -> bool) (l : list A) :
  (forall x, p x = q x) -> existsb p l = existsb q l.
Proof. intros H. induction l as [|x l IH]; simpl; [reflexivity|now rewrite H, IH]. Qed.

Lemma event_where_selected (f : EventFilter.t) (r : EventRow) :
  event_where_holds (event_get r) f = event_selected f r.
Proof.
  unfold event_where_holds, event_selected, event_range_holds.
  rewrite (@range_conjuncts_holds _ (event_get r) EBlockNumber EBlockTime
             (er_blockNumber r) (er_blockTime r) _ eq_refl eq_refl).
  destruct (EventFilter.CriteriaSet f) as [|c cs]; [reflexivity|].
  rewrite event_conjuncts_hold.
  now rewrite (@existsb_ext' _ _ (fun c => event_group_holds c r) cs
                 (fun c => event_conjuncts_hold c r)).
Qed.

Lemma transfer_where_selected (f : TransferFilter.t) (r : TransferRow) :
  transfer_where_holds (transfer_get r) f = transfer_selected f r.
Proof.
  unfold transfer_where_holds, transfer_selected, transfer_range_holds.
  rewrite (@range_conjuncts_holds _ (transfer_get r) TBlockNumber TBlockTime
             (tr_blockNumber r) (tr_blockTime r) _ eq_refl eq_refl).
  rewrite (@eq_conjunct_holds _ (transfer_get r) TTxID (tr_txID r) _ eq_refl).
  destruct (TransferFilter.CriteriaSet f) as [|c cs]; [reflexivity|].
  now rewrite (@existsb_ext' _ _ (fun c => transfer_group_holds c r) (c :: cs)
                 (fun c => transfer_conjuncts_hold c r)).
Qed.

(** ** ORDER BY and LIMIT *)

Section Sorting.
Context {row : Type}.
Variable le : row -> row -> bool.

Lemma insert_by_perm (x : row) (l : list row) :
  Permutation (SQL.insert_by le x l) (x :: l).
Proof.
  induction l as [|y l IH]; simpl; [reflexivity|].
  destruct (le x y); [reflexivity|].
  rewrite IH. apply perm_swap.
Qed.

Lemma sort_by_perm (l : list row) : Permutation (SQL.sort_by le l) l.
Proof.
  induction l as [|x l IH]; simpl; [reflexivity|].
  rewrite insert_by_perm. now constructor.
Qed.

Hypothesis le_total : forall a b, le a b = false -> le b a = true.


End Sorting.

Lemma sort_by_ext {row} (le1 le2 : row -> row -> bool) (l : list row) :
  (forall a b, le1 a b = le2 a b) -> SQL.sort_by le1 l = SQL.sort_by le2 l.
Proof.
  intros H. induction l as [|x l IH]; simpl; [reflexivity|]. rewrite IH.
  generalize (SQL.sort_by le2 l). intros s.
  induction s as [|y s IHs]; simpl; [reflexivity|]. now rewrite H, IHs.
Qed.





Lemma order_leb_int2 {col row} (get : row -> col -> SQL.value) (c1 c2 : col)
    (key : row -> Z * Z) (o : OrderType) (a b : row) :
  (forall r, get r c1 = SQL.VInt (fst (key r))) ->
  (forall r, get r c2 = SQL.VInt (snd (key r))) ->
  SQL.order_leb get (order_sql c1 c2 o) a b = key_leb o (key a) (key b).
Proof.
  intros H1 H2. unfold key_leb, lex_leb.
  destruct o; cbn [order_sql SQL.order_leb]; rewrite !H1, !H2; cbn [SQL.value_order];
    destruct (Z.compare_spec (fst (key a)) (fst (key b)));
    destruct (Z.compare_spec (snd (key a)) (snd (key b))); lia.
Qed.

Lemma apply_limit_paginate {row} (o : Options) (l : list row) :
  0 <= Limit o ->
  SQL.apply_limit (Offset o) (Limit o) l = paginate (Some o) l.
Proof.
  intros H. unfold SQL.apply_limit, paginate.
  destruct (Z.ltb_spec (Limit o) 0); [lia|reflexivity].
Qed.

(** ** The statements run *)

Lemma run_select_where {col row} (get : row -> col -> SQL.value) (tbl : list row)
    (ts : list (SQL.token col)) (order : list (col * SQL.direction)) (limit : bool)
    (args rest : list SQL.value) (sel : (col -> SQL.value) -> bool) :
  (forall lookup, exists v,
      SQL.eval_where lookup ts args = Some (v, rest) /\ SQL.is_true v = sel lookup) ->
  SQL.run_select get tbl (SQL.mkSelect (Some ts) order limit) args
  = let selected := filter (fun r => sel (get r)) tbl in
    let ordered := match order with
                   | [] => selected
                   | spec => SQL.sort_by (SQL.order_leb get spec) selected
                   end in
    match limit, rest with
    | false, [] => Some ordered
    | true, [SQL.VInt off; SQL.VInt cnt] => Some (SQL.apply_limit off cnt ordered)
    | _, _ => None
    end.
Proof.
  intros Hev. unfold SQL.run_select. cbn [SQL.sel_where SQL.sel_order SQL.sel_limit].
  destruct (Hev (fun _ => SQL.VNull)) as (v0 & -> & _).
  replace (filter (SQL.where_true get (SQL.mkSelect (Some ts) order limit) args) tbl)
    with (filter (fun r => sel (get r)) tbl); [destruct order; reflexivity|].
  apply filter_ext. intros r. unfold SQL.where_true. cbn [SQL.sel_where].
  destruct (Hev (get r)) as (v & -> & Hv). now rewrite Hv.
Qed.

Lemma run_select_events (f : EventFilter.t) (tbl : list EventRow) :
  wf_options (EventFilter.Options f) ->
  SQL.run_select event_get tbl (fst (FilterEvents_sql f)) (snd (FilterEvents_sql f))
  = Some (paginate (EventFilter.Options f)
                   (SQL.sort_by (event_order (EventFilter.Order f))
                                (filter (event_selected f) tbl))).
Proof.
  intros Hwf. unfold FilterEvents_sql.
  set (q := fold_left event_criteria_sql (enumerate (EventFilter.CriteriaSet f))
              (range_sql EBlockNumber EBlockTime ([SQL.TkOne], []) (EventFilter.Range f))).
  assert (Hev : forall rest lookup, exists v,
             SQL.eval_where lookup (fst q) (snd q ++ rest) = Some (v, rest)
             /\ SQL.is_true v = event_where_holds lookup f)
    by (intros; apply eval_where_events).
  assert (Hsel : filter (fun r => event_where_holds (event_get r) f) tbl
                 = filter (event_selected f) tbl)
    by (apply filter_ext; intros r; apply event_where_selected).
  assert (Hord : SQL.sort_by (SQL.order_leb event_get
                                (order_sql EBlockNumber EEventIndex (EventFilter.Order f)))
                             (filter (event_selected f) tbl)
                 = SQL.sort_by (event_order (EventFilter.Order f))
                               (filter (event_selected f) tbl)).
  { apply sort_by_ext. intros a b.
    apply (@order_leb_int2 _ _ event_get EBlockNumber EEventIndex event_key);
      reflexivity. }
  unfold limit_sql. destruct (EventFilter.Options f) as [o|]; cbn [fst snd].
  - rewrite (@run_select_where _ _ event_get tbl _ _ _ _ _ _ (Hev _)). cbv zeta.
    rewrite Hsel, <- Hord, <- apply_limit_paginate by (destruct Hwf; assumption).
    destruct (EventFilter.Order f); reflexivity.
  - pose proof (Hev []) as Hev0. rewrite app_nil_r in Hev0.
    rewrite (@run_select_where _ _ event_get tbl _ _ _ _ _ _ Hev0). cbv zeta.
    rewrite Hsel, <- Hord. cbn [paginate].
    destruct (EventFilter.Order f); reflexivity.
Qed.

Lemma run_select_transfers (f : TransferFilter.t) (tbl : list TransferRow) :
  wf_options (TransferFilter.Options f) ->
  SQL.run_select transfer_get tbl (fst (FilterTransfers_sql f))
                 (snd (FilterTransfers_sql f))
  = Some (paginate (TransferFilter.Options f)
                   (SQL.sort_by (transfer_order (TransferFilter.Order f))
                                (filter (transfer_selected f) tbl))).
Proof.
  intros Hwf. unfold FilterTransfers_sql.
  pose proof (fun rest lookup => eval_where_transfers lookup f rest) as Hev.
  cbv zeta in Hev.
  set (q := if (0 <? length (TransferFilter.CriteriaSet f))%nat then _ else _) in *.
  assert (Hsel : filter (fun r => transfer_where_holds (transfer_get r) f) tbl
                 = filter (transfer_selected f) tbl)
    by (apply filter_ext; intros r; apply transfer_where_selected).
  assert (Hord : SQL.sort_by (SQL.order_leb transfer_get
                                (order_sql TBlockNumber TTransferIndex
                                           (TransferFilter.Order f)))
                             (filter (transfer_selected f) tbl)
                 = SQL.sort_by (transfer_order (TransferFilter.Order f))
                               (filter (transfer_selected f) tbl)).
  { apply sort_by_ext. intros a b.
    apply (@order_leb_int2 _ _ transfer_get TBlockNumber TTransferIndex transfer_key);
      reflexivity. }
  unfold limit_sql. destruct (TransferFilter.Options f) as [o|]; cbn [fst snd].
  - rewrite (@run_select_where _ _ transfer_get tbl _ _ _ _ _ _ (Hev _)). cbv zeta.
    rewrite Hsel, <- Hord, <- apply_limit_paginate by (destruct Hwf; assumption).
    destruct (TransferFilter.Order f); reflexivity.
  - pose proof (Hev []) as Hev0. rewrite app_nil_r in Hev0.
    rewrite (@run_select_where _ _ transfer_get tbl _ _ _ _ _ _ Hev0). cbv zeta.
    rewrite Hsel, <- Hord. cbn [paginate].
    destruct (TransferFilter.Order f); reflexivity.
Qed.

(** ** The scan loop and the two filter calls *)

Lemma scan_rows_spec {row A} (decode : row -> A) (ctx : Context) (io : ReadIO) :
  (forall i, next_fails io i = false) ->
  forall rows i acc,
    scan_rows decode ctx io i rows acc
    = if existsb (Done ctx) (seq i (length rows))
      then Err (ContextError (CtxErr ctx))
      else Ok (acc ++ map decode rows).
Proof.
  intros Hio. induction rows as [|r rows IH]; intros i acc; cbn [scan_rows]; rewrite Hio.
  - simpl. now rewrite app_nil_r.
  - cbn [length seq existsb map]. destruct (Done ctx i); [reflexivity|].
    rewrite IH, <- app_assoc. reflexivity.
Qed.

Lemma filter_all {A} (l : list A) : filter (fun _ => true) l = l.
Proof. induction l as [|x l IH]; simpl; [reflexivity|now rewrite IH]. Qed.

Lemma FilterEvents_spec (ctx : Context) (io : ReadIO) (db : DB)
    (f : option EventFilter.t) :
  no_read_fault io -> wf_options (event_filter_options f) ->
  FilterEvents ctx io db f
  = if cancelled ctx (length (selected_events f db))
    then Err (ContextError (CtxErr ctx))
    else Ok (map scan_event (selected_events f db)).
Proof.
  intros [Hq Hn] Hwf. unfold FilterEvents, cancelled.
  assert (Hrun : match f with
                 | None => SQL.run_select event_get (event db) (SQL.mkSelect None [] false) []
                 | Some f => SQL.run_select event_get (event db) (fst (FilterEvents_sql f))
                                            (snd (FilterEvents_sql f))
                 end = Some (selected_events f db)).
  { destruct f as [f|]; [now apply run_select_events|].
    unfold SQL.run_select, SQL.where_true. cbn. now rewrite filter_all. }
  destruct f as [f|]; [destruct (FilterEvents_sql f) as [stmt args]; cbn [fst snd] in Hrun|];
    unfold queryEvents, QueryContext; destruct (Done ctx 0); try reflexivity;
    rewrite Hq, Hrun, (scan_rows_spec scan_event ctx io Hn); reflexivity.
Qed.

Lemma FilterTransfers_spec (ctx : Context) (io : ReadIO) (db : DB)
    (f : option TransferFilter.t) :
  no_read_fault io -> wf_options (transfer_filter_options f) ->
  FilterTransfers ctx io db f
  = if cancelled ctx (length (selected_transfers f db))
    then Err (ContextError (CtxErr ctx))
    else Ok (map scan_transfer (selected_transfers f db)).
Proof.
  intros [Hq Hn] Hwf. unfold FilterTransfers, cancelled.
  assert (Hrun : match f with
                 | None => SQL.run_select transfer_get (transfer db)
                                          (SQL.mkSelect None [] false) []
                 | Some f => SQL.run_select transfer_get (transfer db)
                                            (fst (FilterTransfers_sql f))
                                            (snd (FilterTransfers_sql f))
                 end = Some (selected_transfers f db)).
  { destruct f as [f|]; [now apply run_select_transfers|].
    unfold SQL.run_select, SQL.where_true. cbn. now rewrite filter_all. }
  destruct f as [f|];
    [destruct (FilterTransfers_sql f) as [stmt args]; cbn [fst snd] in Hrun|];
    unfold queryTransfers, QueryContext; destruct (Done ctx 0); try reflexivity;
    rewrite Hq, Hrun, (scan_rows_spec scan_transfer ctx io Hn); reflexivity.
Qed.

Lemma never_done_not_cancelled (ctx : Context) (n : nat) :
  never_done ctx -> cancelled ctx n = false.
Proof.
  intros H. unfold cancelled. rewrite H. simpl.
  induction (seq 0 n) as [|i l IH]; simpl; [reflexivity|now rewrite H].
Qed.

(** ** Transactions *)

Lemma for_each_ok {A} (io : TxIO) (stmt : A -> DB -> DB) (l : list A) :
  forall w k s',
    for_each io stmt l (w, k) = (None, s') ->
    s' = (fold_left (fun d x => stmt x d) l w, (k + length l)%nat).
Proof.
  induction l as [|x l IH]; intros w k s' H; cbn [for_each] in H.
  - unfold skip in H. inversion H. cbn. now rewrite Nat.add_0_r.
  - unfold and_then, Exec in H. cbn [fst snd] in H.
    destruct (exec_fails io k); [discriminate|].
    apply IH in H. subst s'. cbn [fold_left length]. now rewrite Nat.add_succ_r.
Qed.

Lemma for_each_tx_ok {A} (stmt : A -> DB -> DB) (l : list A) : forall w k,
  for_each tx_ok stmt l (w, k)
  = (None, (fold_left (fun d x => stmt x d) l w, (k + length l)%nat)).
Proof.
  induction l as [|x l IH]; intros w k; cbn [for_each].
  - unfold skip. cbn. now rewrite Nat.add_0_r.
  - unfold and_then, Exec. cbn [fst snd tx_ok exec_fails]. rewrite IH.
    cbn [fold_left length]. now rewrite Nat.add_succ_r.
Qed.

(** A commit that reports an error leaves the store as it was. *)
Lemma Commit_error_preserves (io : TxIO) (bb : BlockBatch) (db db' : DB) (e : error) :
  Commit io bb db = (Some e, db') -> db' = db.
Proof.
  unfold Commit, execInTx. destruct (begin_fails io); [congruence|].
  match goal with |- context [match ?p with _ => _ end] => destruct p as [[e'|] [w k]] end;
    [congruence|].
  destruct (commit_fails io); congruence.
Qed.

(** A commit that reports no error has truncated and inserted; the marker
    is updated unless that one statement failed. *)
Lemma Commit_ok_store (io : TxIO) (bb : BlockBatch) (db db' : DB) :
  Commit io bb db = (None, db') ->
  db' = insert_all bb (mark bb (truncate bb db))
  \/ db' = insert_all bb (truncate bb db).
Proof.
  unfold Commit, execInTx, truncate, mark, insert_all.
  destruct (begin_fails io); [discriminate|].
  destruct (Number (header bb) >? 0).
  - unfold and_then at 1 2 3. unfold Exec at 1. cbn [fst snd].
    destruct (exec_fails io 0); [discriminate|].
    unfold Exec at 1. cbn [fst snd].
    destruct (exec_fails io 1); [discriminate|].
    unfold ignore_error, Exec at 1. cbn [fst snd].
    destruct (exec_fails io 2); cbn [fst snd];
      unfold and_then;
      match goal with |- context [for_each io insert_event ?l ?s] =>
        destruct (for_each io insert_event l s) as [[e|] s1] eqn:E1 end;
      try discriminate;
      apply for_each_ok in E1; subst s1;
      match goal with |- context [for_each io insert_transfer ?l ?s] =>
        destruct (for_each io insert_transfer l s) as [[e|] s2] eqn:E2 end;
      try discriminate;
      apply for_each_ok in E2; subst s2;
      destruct (commit_fails io); try discriminate; intros [= <-]; auto.
  - unfold and_then, skip.
    match goal with |- context [for_each io insert_event ?l ?s] =>
      destruct (for_each io insert_event l s) as [[e|] s1] eqn:E1 end;
    try discriminate.
    apply for_each_ok in E1. subst s1.
    match goal with |- context [for_each io insert_transfer ?l ?s] =>
      destruct (for_each io insert_transfer l s) as [[e|] s2] eqn:E2 end;
    try discriminate.
    apply for_each_ok in E2. subst s2.
    destruct (commit_fails io); try discriminate. intros [= <-]. auto.
Qed.

(** Without faults a commit succeeds. *)
Lemma Commit_tx_ok (bb : BlockBatch) (db : DB) :
  Commit tx_ok bb db = (None, insert_all bb (mark bb (truncate bb db))).
Proof.
  unfold Commit, execInTx, truncate, mark, insert_all. cbn [tx_ok begin_fails commit_fails].
  destruct (Number (header bb) >? 0).
  - unfold and_then, ignore_error, Exec. cbn [fst snd tx_ok exec_fails].
    rewrite !for_each_tx_ok. reflexivity.
  - unfold and_then, skip. rewrite !for_each_tx_ok. reflexivity.
Qed.

(** ** Tables after the statements of a commit *)

Lemma key_eqb_true (a b : Z * Z) : key_eqb a b = true <-> a = b.
Proof.
  unfold key_eqb. destruct a, b; cbn [fst snd].
  rewrite andb_true_iff, !Z.eqb_eq. split; [intros []; congruence|intros [= -> ->]; auto].
Qed.

Lemma insert_all_config (bb : BlockBatch) (db : DB) : config (insert_all bb db) = config db.
Proof.
  unfold insert_all.
  assert (He : forall l d, config (fold_left (fun d e => insert_event e d) l d) = config d).
  { induction l as [|e l IH]; intros d; cbn [fold_left]; [reflexivity|now rewrite IH]. }
  assert (Ht : forall l d, config (fold_left (fun d t => insert_transfer t d) l d) = config d).
  { induction l as [|t l IH]; intros d; cbn [fold_left]; [reflexivity|now rewrite IH]. }
  now rewrite Ht, He.
Qed.

Lemma insert_all_event (bb : BlockBatch) (db : DB) :
  event (insert_all bb db)
  = fold_left (fun t r => insert_or_replace event_key r t)
              (map event_row (events bb)) (event db).
Proof.
  unfold insert_all.
  assert (Ht : forall l d, event (fold_left (fun d t => insert_transfer t d) l d) = event d).
  { induction l as [|t l IH]; intros d; cbn [fold_left]; [reflexivity|now rewrite IH]. }
  rewrite Ht. generalize db. induction (events bb) as [|e l IH]; intros d;
    cbn [fold_left map]; [reflexivity|now rewrite IH].
Qed.

Lemma insert_all_transfer (bb : BlockBatch) (db : DB) :
  transfer (insert_all bb db)
  = fold_left (fun t r => insert_or_replace transfer_key r t)
              (map transfer_row (transfers bb)) (transfer db).
Proof.
  unfold insert_all.
  assert (He : forall l d, transfer (fold_left (fun d e => insert_event e d) l d) = transfer d).
  { induction l as [|e l IH]; intros d; cbn [fold_left]; [reflexivity|now rewrite IH]. }
  rewrite <- (He (events bb) db).
  generalize (fold_left (fun d e => insert_event e d) (events bb) db).
  induction (transfers bb) as [|t l IH]; intros d;
    cbn [fold_left map]; [reflexivity|now rewrite IH].
Qed.

Lemma filter_filter {A} (p q : A -> bool) (l : list A) :
  filter p (filter q l) = filter (fun x => q x && p x) l.
Proof.
  induction l as [|x l IH]; simpl; [reflexivity|].
  destruct (q x); simpl; [destruct (p x)|]; now rewrite IH.
Qed.

(** Inserting rows with distinct keys one by one: the rows holding one of
    the keys go, the new rows are added at the end. *)
Lemma insert_rows {row} (key : row -> Z * Z) (rows : list row) :
  NoDup (map key rows) ->
  forall tbl,
    fold_left (fun t r => insert_or_replace key r t) rows tbl
    = filter (fun x => negb (existsb (fun r => key_eqb (key x) (key r)) rows)) tbl ++ rows.
Proof.
  induction rows as [|r rows IH]; intros Hnd tbl; cbn [fold_left].
  - cbn [existsb negb]. now rewrite filter_all, app_nil_r.
  - inversion Hnd as [|k ks Hnotin Hnd']; subst.
    rewrite (IH Hnd'). unfold insert_or_replace. rewrite filter_app, filter_filter.
    cbn [filter].
    replace (existsb (fun r0 => key_eqb (key r) (key r0)) rows) with false.
    + cbn [negb]. rewrite <- app_assoc. cbn [app]. f_equal.
      apply filter_ext. intros x. cbn [existsb]. now rewrite negb_orb.
    + symmetry. apply not_true_is_false. intros Hex.
      apply existsb_exists in Hex. destruct Hex as (r0 & Hin & Heq).
      apply key_eqb_true in Heq. apply Hnotin. rewrite Heq. now apply in_map.
Qed.

(** ** Batches as they are built *)

Lemma nth_error_snoc {A} (l : list A) (x y : A) (i : nat) :
  nth_error (l ++ [x]) i = Some y ->
  nth_error l i = Some y \/ (i = length l /\ y = x).
Proof.
  intros H. destruct (Nat.lt_ge_cases i (length l)) as [Hlt|Hge].
  - left. now rewrite nth_error_app1 in H.
  - right. rewrite nth_error_app2 in H by assumption.
    destruct (i - length l)%nat as [|n] eqn:E; cbn in H.
    + split; [lia|congruence].
    + destruct n; discriminate.
Qed.

Lemma Insert_header bb txID txOrigin evs trs ci :
  header (Insert bb txID txOrigin evs trs ci) = header bb.
Proof.
  unfold Insert.
  assert (H1 : forall l b,
    header (fold_left (fun bb event =>
      mkBatch (header bb)
              (events bb ++ [newEvent (header bb) (uint32 (Z.of_nat (length (events bb))))
                                      txID txOrigin ci event])
              (transfers bb)) l b) = header b).
  { induction l as [|x l IH]; intros b; cbn [fold_left]; [reflexivity|now rewrite IH]. }
  assert (H2 : forall l b,
    header (fold_left (fun bb transfer =>
      mkBatch (header bb) (events bb)
              (transfers bb ++ [newTransfer (header bb)
                                            (uint32 (Z.of_nat (length (transfers bb))))
                                            txID txOrigin ci transfer])) l b) = header b).
  { induction l as [|x l IH]; intros b; cbn [fold_left]; [reflexivity|now rewrite IH]. }
  now rewrite H2, H1.
Qed.

Lemma Insert_indexed bb txID txOrigin evs trs ci :
  batch_indexed bb -> batch_indexed (Insert bb txID txOrigin evs trs ci).
Proof.
  unfold Insert. revert bb.
  assert (H1 : forall l b, batch_indexed b ->
    batch_indexed (fold_left (fun bb event =>
      mkBatch (header bb)
              (events bb ++ [newEvent (header bb) (uint32 (Z.of_nat (length (events bb))))
                                      txID txOrigin ci event])
              (transfers bb)) l b)).
  { induction l as [|x l IH]; intros b Hb; cbn [fold_left]; [exact Hb|].
    apply IH. destruct Hb as [He Ht]. split; cbn [header events transfers]; [|exact Ht].
    intros i e Hi. apply nth_error_snoc in Hi. destruct Hi as [Hi|[-> ->]].
    - now apply He.
    - split; reflexivity. }
  assert (H2 : forall l b, batch_indexed b ->
    batch_indexed (fold_left (fun bb transfer =>
      mkBatch (header bb) (events bb)
              (transfers bb ++ [newTransfer (header bb)
                                            (uint32 (Z.of_nat (length (transfers bb))))
                                            txID txOrigin ci transfer])) l b)).
  { induction l as [|x l IH]; intros b Hb; cbn [fold_left]; [exact Hb|].
    apply IH. destruct Hb as [He Ht]. split; cbn [header events transfers]; [exact He|].
    intros i e Hi. apply nth_error_snoc in Hi. destruct Hi as [Hi|[-> ->]].
    - now apply Ht.
    - split; reflexivity. }
  intros bb Hb. apply H2, H1, Hb.
Qed.

Lemma build_header (h : Header) (calls : list InsertCall) : header (build h calls) = h.
Proof.
  unfold build. change h with (header (Prepare h)) at 2. generalize (Prepare h).
  induction calls as [|c calls IH]; intros b; cbn [fold_left]; [reflexivity|].
  rewrite IH. apply Insert_header.
Qed.

Lemma build_indexed (h : Header) (calls : list InsertCall) : batch_indexed (build h calls).
Proof.
  unfold build.
  assert (H0 : batch_indexed (Prepare h)).
  { split; intros [|i] e Hi; discriminate. }
  revert H0. generalize (Prepare h).
  induction calls as [|c calls IH]; intros b Hb; cbn [fold_left]; [exact Hb|].
  apply IH. now apply Insert_indexed.
Qed.

Lemma newEvent_wf h i txID txOrigin ci e :
  wf_header h -> wf_bytes32 txID -> wf_address txOrigin -> wf_tx_event e ->
  wf_event (newEvent h i txID txOrigin ci e).
Proof.
  intros Hh Hid Ho [Ha Ht].
  assert (Hn : forall j, wf_topic (nth_error (TxEvent.Topics e) j)).
  { intros j. destruct (nth_error (TxEvent.Topics e) j) as [t|] eqn:E; [|exact I].
    cbn. rewrite Forall_forall in Ht. apply Ht. eapply nth_error_In; eauto. }
  unfold wf_event, newEvent, Array5_list.
  cbn [Event.BlockID Event.TxID Event.TxOrigin Event.Address Event.Topics
       slot0 slot1 slot2 slot3 slot4].
  repeat split; try assumption.
  repeat (constructor; [apply Hn|]). constructor.
Qed.

Lemma newTransfer_wf h i txID txOrigin ci t :
  wf_header h -> wf_bytes32 txID -> wf_address txOrigin -> wf_tx_transfer t ->
  wf_transfer (newTransfer h i txID txOrigin ci t).
Proof.
  intros Hh Hid Ho (Hs & Hr & Ha). unfold wf_transfer, newTransfer. cbn.
  repeat split; assumption.
Qed.

Lemma Insert_wf bb txID txOrigin evs trs ci :
  wf_header (header bb) -> wf_bytes32 txID -> wf_address txOrigin ->
  Forall wf_tx_event evs -> Forall wf_tx_transfer trs ->
  wf_batch bb -> wf_batch (Insert bb txID txOrigin evs trs ci).
Proof.
  intros Hh Hid Ho Hevs Htrs. unfold Insert. revert bb Hh.
  assert (H1 : forall l, Forall wf_tx_event l -> forall b,
    wf_header (header b) -> wf_batch b ->
    let b' := fold_left (fun bb event =>
      mkBatch (header bb)
              (events bb ++ [newEvent (header bb) (uint32 (Z.of_nat (length (events bb))))
                                      txID txOrigin ci event])
              (transfers bb)) l b in
    wf_batch b' /\ header b' = header b).
  { induction 1 as [|x l Hx Hl IH]; intros b Hb Hwf; cbn [fold_left]; [now split|].
    cbv zeta in IH.
    match goal with |- context [fold_left ?f l ?b0] => destruct (IH b0) as [IH1 IH2] end.
    - exact Hb.
    - destruct Hwf as [He Ht]. split; cbn [events transfers]; [|exact Ht].
      apply Forall_app. split; [exact He|]. constructor; [|constructor].
      now apply newEvent_wf.
    - split; [exact IH1|exact IH2]. }
  assert (H2 : forall l, Forall wf_tx_transfer l -> forall b,
    wf_header (header b) -> wf_batch b ->
    wf_batch (fold_left (fun bb transfer =>
      mkBatch (header bb) (events bb)
              (transfers bb ++ [newTransfer (header bb)
                                            (uint32 (Z.of_nat (length (transfers bb))))
                                            txID txOrigin ci transfer])) l b)).
  { induction 1 as [|x l Hx Hl IH]; intros b Hb Hwf; cbn [fold_left]; [exact Hwf|].
    apply IH; [exact Hb|].
    destruct Hwf as [He Ht]. split; cbn [events transfers]; [exact He|].
    apply Forall_app. split; [exact Ht|]. constructor; [|constructor].
    now apply newTransfer_wf. }
  intros bb Hh Hwf. destruct (H1 evs Hevs bb Hh Hwf) as [Hw Hhd].
  apply H2; [exact Htrs| |exact Hw]. cbv zeta in Hhd. now rewrite Hhd.
Qed.

Lemma build_wf (h : Header) (calls : list InsertCall) :
  wf_header h -> Forall wf_call calls -> wf_batch (build h calls).
Proof.
  intros Hh Hcalls. unfold build.
  assert (H0 : wf_batch (Prepare h)) by (split; constructor).
  assert (Hh0 : wf_header (header (Prepare h))) by exact Hh.
  revert H0 Hh0. generalize (Prepare h).
  induction Hcalls as [|c calls Hc Hcs IH]; intros b Hb Hhb; cbn [fold_left]; [exact Hb|].
  destruct Hc as (Hid & Ho & He & Ht).
  apply IH.
  - now apply Insert_wf.
  - unfold apply_call. now rewrite Insert_header.
Qed.

(** ** Keys of a batch *)

Lemma uint32_small (z : Z) : 0 <= z < 2 ^ 32 -> uint32 z = z.
Proof. intros H. unfold uint32. now apply Z.mod_small. Qed.

Lemma indexed_events_keys (h : Header) (l : list Event.t) :
  indexed_events h l -> Z.of_nat (length l) <= 2 ^ 32 ->
  NoDup (map event_key (map event_row l)).
Proof.
  intros Hidx Hlen. rewrite map_map. apply NoDup_nth_error. intros i j Hi Hij.
  rewrite length_map in Hi. rewrite !nth_error_map in Hij.
  destruct (nth_error l i) as [ei|] eqn:Ei; [|apply nth_error_None in Ei; lia].
  destruct (nth_error l j) as [ej|] eqn:Ej; [|discriminate].
  assert (Hj : (j < length l)%nat) by (apply nth_error_Some; congruence).
  apply Hidx in Ei. apply Hidx in Ej. destruct Ei as [_ Ei], Ej as [_ Ej].
  cbn in Hij. injection Hij as _ Hk. unfold event_key, event_row in Hk. cbn in Hk.
  rewrite Ei, Ej, !uint32_small in Hk by lia. lia.
Qed.

Lemma indexed_transfers_keys (h : Header) (l : list Transfer.t) :
  indexed_transfers h l -> Z.of_nat (length l) <= 2 ^ 32 ->
  NoDup (map transfer_key (map transfer_row l)).
Proof.
  intros Hidx Hlen. rewrite map_map. apply NoDup_nth_error. intros i j Hi Hij.
  rewrite length_map in Hi. rewrite !nth_error_map in Hij.
  destruct (nth_error l i) as [ei|] eqn:Ei; [|apply nth_error_None in Ei; lia].
  destruct (nth_error l j) as [ej|] eqn:Ej; [|discriminate].
  assert (Hj : (j < length l)%nat) by (apply nth_error_Some; congruence).
  apply Hidx in Ei. apply Hidx in Ej. destruct Ei as [_ Ei], Ej as [_ Ej].
  cbn in Hij. injection Hij as _ Hk. unfold transfer_key, transfer_row in Hk. cbn in Hk.
  rewrite Ei, Ej, !uint32_small in Hk by lia. lia.
Qed.

(** ** Decoding what was encoded *)

Lemma scan_topic_value (t : option thor_Bytes32) :
  wf_topic t -> scan_topic (topicValue t) = t.
Proof.
  destruct t as [h|]; [|reflexivity]. intros Hwf.
  change (length h = 32%nat) in Hwf.
  unfold topicValue, scan_topic, Bytes32_Bytes. rewrite Hwf.
  change (0 <? 32)%nat with true. cbv iota.
  f_equal. now apply set_bytes_exact.
Qed.

Lemma scan_event_row (e : Event.t) : wf_event e -> scan_event (event_row e) = e.
Proof.
  intros (Hb & Ht & Ho & Ha & Htop). destruct e as [bn ix bid bt tid org ci addr tops data].
  cbn [Event.BlockID Event.TxID Event.TxOrigin Event.Address Event.Topics] in *.
  unfold scan_event, event_row.
  cbn [er_blockNumber er_eventIndex er_blockID er_blockTime er_txID er_txOrigin
       er_clauseIndex er_address er_topics er_data
       Event.BlockNumber Event.Index Event.BlockID Event.BlockTime Event.TxID
       Event.TxOrigin Event.ClauseIndex Event.Address Event.Topics Event.Data].
  rewrite !BytesToBytes32_Bytes, !BytesToAddress_Bytes by assumption.
  f_equal. destruct tops as [t0 t1 t2 t3 t4]. unfold Array5_map, Array5_list in *.
  cbn [slot0 slot1 slot2 slot3 slot4] in *.
  inversion Htop as [|? ? H0 Htop1]; subst.
  inversion Htop1 as [|? ? H1 Htop2]; subst.
  inversion Htop2 as [|? ? H2 Htop3]; subst.
  inversion Htop3 as [|? ? H3 Htop4]; subst.
  inversion Htop4 as [|? ? H4 _]; subst.
  now rewrite !scan_topic_value.
Qed.

Lemma scan_transfer_row (t : Transfer.t) :
  wf_transfer t -> scan_transfer (transfer_row t) = t.
Proof.
  intros (Hb & Ht & Ho & Hs & Hr & Ha). destruct t.
  cbn [Transfer.BlockID Transfer.TxID Transfer.TxOrigin Transfer.Sender
       Transfer.Recipient Transfer.Amount] in *.
  unfold scan_transfer, transfer_row.
  cbn [tr_blockNumber tr_transferIndex tr_blockID tr_blockTime tr_txID tr_txOrigin
       tr_clauseIndex tr_sender tr_recipient tr_amount
       Transfer.BlockNumber Transfer.Index Transfer.BlockID Transfer.BlockTime
       Transfer.TxID Transfer.TxOrigin Transfer.ClauseIndex Transfer.Sender
       Transfer.Recipient Transfer.Amount].
  rewrite !BytesToBytes32_Bytes, !BytesToAddress_Bytes, BigInt_roundtrip by assumption.
  reflexivity.
Qed.

Lemma map_scan_event_row (l : list Event.t) :
  Forall wf_event l -> map scan_event (map event_row l) = l.
Proof.
  induction 1 as [|e l He Hl IH]; cbn [map]; [reflexivity|].
  now rewrite scan_event_row, IH.
Qed.

Lemma map_scan_transfer_row (l : list Transfer.t) :
  Forall wf_transfer l -> map scan_transfer (map transfer_row l) = l.
Proof.
  induction 1 as [|e l He Hl IH]; cbn [map]; [reflexivity|].
  now rewrite scan_transfer_row, IH.
Qed.

(** ** The store after a commit *)

Lemma truncate_event (bb : BlockBatch) (db : DB) :
  event (truncate bb db)
  = filter (fun r => negb ((Number (header bb) >? 0)
                           && (er_blockNumber r >=? Number (header bb)))) (event db).
Proof.
  unfold truncate. destruct (Number (header bb) >? 0); cbn [andb negb].
  - reflexivity.
  - now rewrite filter_all.
Qed.

Lemma truncate_transfer (bb : BlockBatch) (db : DB) :
  transfer (truncate bb db)
  = filter (fun r => negb ((Number (header bb) >? 0)
                           && (tr_blockNumber r >=? Number (header bb)))) (transfer db).
Proof.
  unfold truncate. destruct (Number (header bb) >? 0); cbn [andb negb].
  - reflexivity.
  - now rewrite filter_all.
Qed.

Lemma mark_event (bb : BlockBatch) (db : DB) : event (mark bb db) = event db.
Proof. unfold mark. now destruct (Number (header bb) >? 0). Qed.

Lemma mark_transfer (bb : BlockBatch) (db : DB) : transfer (mark bb db) = transfer db.
Proof. unfold mark. now destruct (Number (header bb) >? 0). Qed.

Lemma truncate_config (bb : BlockBatch) (db : DB) : config (truncate bb db) = config db.
Proof. unfold truncate. now destruct (Number (header bb) >? 0). Qed.

Lemma Commit_ok_tables (io : TxIO) (bb : BlockBatch) (db db' : DB) :
  batch_indexed bb -> batch_fits bb ->
  Commit io bb db = (None, db') ->
  event db' = filter (event_kept bb) (event db) ++ map event_row (events bb)
  /\ transfer db' = filter (transfer_kept bb) (transfer db)
                    ++ map transfer_row (transfers bb).
Proof.
  intros [Hie Hit] [Hfe Hft] Hc.
  assert (He : forall d, event d = event (truncate bb db) ->
             event (insert_all bb d)
             = filter (event_kept bb) (event db) ++ map event_row (events bb)).
  { intros d Hd. rewrite insert_all_event, insert_rows
      by (eapply indexed_events_keys; eauto).
    rewrite Hd, truncate_event, filter_filter. f_equal.
    apply filter_ext. intros r. unfold event_kept, event_replaced.
    now rewrite existsb_map. }
  assert (Ht : forall d, transfer d = transfer (truncate bb db) ->
             transfer (insert_all bb d)
             = filter (transfer_kept bb) (transfer db)
               ++ map transfer_row (transfers bb)).
  { intros d Hd. rewrite insert_all_transfer, insert_rows
      by (eapply indexed_transfers_keys; eauto).
    rewrite Hd, truncate_transfer, filter_filter. f_equal.
    apply filter_ext. intros r. unfold transfer_kept, transfer_replaced.
    now rewrite existsb_map. }
  apply Commit_ok_store in Hc. destruct Hc as [-> | ->]; split;
    (apply He || apply Ht); rewrite ?mark_event, ?mark_transfer; reflexivity.
Qed.

(** At a height above 0 the rows kept are those of lower blocks. *)
Lemma event_kept_below (bb : BlockBatch) (tbl : list EventRow) :
  batch_indexed bb -> Number (header bb) > 0 ->
  filter (event_kept bb) tbl
  = filter (fun r => er_blockNumber r <? Number (header bb)) tbl.
Proof.
  intros [Hie _] Hpos. apply filter_ext. intros r. unfold event_kept, event_replaced.
  replace (Number (header bb) >? 0) with true by (symmetry; apply Z.gtb_lt; lia).
  cbn [andb].
  destruct (Z.geb_spec (er_blockNumber r) (Number (header bb))) as [Hge|Hlt]; cbn [negb andb].
  - symmetry. apply Z.ltb_ge. lia.
  - replace (er_blockNumber r <? Number (header bb)) with true
      by (symmetry; apply Z.ltb_lt; lia).
    apply negb_true_iff, not_true_is_false. intros Hex.
    apply existsb_exists in Hex. destruct Hex as (e & Hin & Hk).
    apply key_eqb_true in Hk. apply In_nth_error in Hin. destruct Hin as [i Hi].
    apply Hie in Hi. destruct Hi as [Hbn _].
    unfold event_key, event_row in Hk. cbn in Hk. injection Hk as Hk _. lia.
Qed.

Lemma transfer_kept_below (bb : BlockBatch) (tbl : list TransferRow) :
  batch_indexed bb -> Number (header bb) > 0 ->
  filter (transfer_kept bb) tbl
  = filter (fun r => tr_blockNumber r <? Number (header bb)) tbl.
Proof.
  intros [_ Hit] Hpos. apply filter_ext. intros r. unfold transfer_kept, transfer_replaced.
  replace (Number (header bb) >? 0) with true by (symmetry; apply Z.gtb_lt; lia).
  cbn [andb].
  destruct (Z.geb_spec (tr_blockNumber r) (Number (header bb))) as [Hge|Hlt]; cbn [negb andb].
  - symmetry. apply Z.ltb_ge. lia.
  - replace (tr_blockNumber r <? Number (header bb)) with true
      by (symmetry; apply Z.ltb_lt; lia).
    apply negb_true_iff, not_true_is_false. intros Hex.
    apply existsb_exists in Hex. destruct Hex as (e & Hin & Hk).
    apply key_eqb_true in Hk. apply In_nth_error in Hin. destruct Hin as [i Hi].
    apply Hit in Hi. destruct Hi as [Hbn _].
    unfold transfer_key, transfer_row in Hk. cbn in Hk. injection Hk as Hk _. lia.
Qed.

(** ** The evaluator on small clauses

    [blockNumber >= 10 AND blockNumber <= 20 OR blockNumber <= 3] groups as
    [(... AND ...) OR ...]; parentheses change the grouping; an unbalanced
    clause is refused. *)

Example where_and_binds_tighter :
  SQL.eval_where (fun _ : ecol => SQL.VInt 2)
    [SQL.TkCmp EBlockNumber SQL.OpGe; SQL.TkAnd; SQL.TkCmp EBlockNumber SQL.OpLe;
     SQL.TkOr; SQL.TkCmp EBlockNumber SQL.OpLe]
    [SQL.VInt 10; SQL.VInt 20; SQL.VInt 3]
  = Some (SQL.TTrue, []).
Proof. reflexivity. Qed.

Example where_parentheses_group :
  SQL.eval_where (fun _ : ecol => SQL.VInt 2)
    [SQL.TkCmp EBlockNumber SQL.OpGe; SQL.TkAnd; SQL.TkOpen;
     SQL.TkCmp EBlockNumber SQL.OpLe; SQL.TkOr; SQL.TkCmp EBlockNumber SQL.OpLe;
     SQL.TkClose]
    [SQL.VInt 10; SQL.VInt 20; SQL.VInt 3]
  = Some (SQL.TFalse, []).
Proof. reflexivity. Qed.

Example where_null_is_not_true :
  SQL.eval_where (fun _ : ecol => SQL.VNull)
    [SQL.TkOne; SQL.TkAnd; SQL.TkCmp (ETopic 0) SQL.OpEq] [SQL.VBlob []]
  = Some (SQL.TNull, []).
Proof. reflexivity. Qed.

Example where_unbalanced_refused :
  SQL.eval_where (fun _ : ecol => SQL.VInt 2) [SQL.TkOpen; SQL.TkOne] [] = None.
Proof. reflexivity. Qed.

(** ** The outcome of [Commit] under store faults *)

Lemma for_each_run {A} (io : TxIO) (stmt : A -> DB -> DB) (l : list A) : forall w k,
  (forallb (fun i => negb (exec_fails io i)) (seq k (length l)) = true ->
   for_each io stmt l (w, k)
   = (None, (fold_left (fun d x => stmt x d) l w, (k + length l)%nat)))
  /\ (forallb (fun i => negb (exec_fails io i)) (seq k (length l)) = false ->
      fst (for_each io stmt l (w, k)) = Some StorageError).
Proof.
  induction l as [|x l IH]; intros w k; cbn [for_each length seq forallb fold_left].
  - split; [|discriminate]. intros _. unfold skip. now rewrite Nat.add_0_r.
  - unfold and_then, Exec. cbn [fst snd].
    destruct (exec_fails io k); cbn [negb andb].
    + split; [discriminate|reflexivity].
    + destruct (IH (stmt x w) (S k)) as [IH1 IH2]. split; intros H.
      * rewrite (IH1 H). now rewrite Nat.add_succ_r.
      * specialize (IH2 H).
        destruct (for_each io stmt l (stmt x w, S k)) as [[e|] s]; cbn [fst] in *;
          congruence.
Qed.

Lemma inserts_run (io : TxIO) (bb : BlockBatch) (w : DB) (k : nat) :
  (forallb (fun i => negb (exec_fails io i))
           (seq k (length (events bb) + length (transfers bb))) = true ->
   (for_each io insert_event (events bb) ;; for_each io insert_transfer (transfers bb))
     (w, k)
   = (None, (insert_all bb w, (k + length (events bb) + length (transfers bb))%nat)))
  /\ (forallb (fun i => negb (exec_fails io i))
              (seq k (length (events bb) + length (transfers bb))) = false ->
      fst ((for_each io insert_event (events bb) ;;
            for_each io insert_transfer (transfers bb)) (w, k))
      = Some StorageError).
Proof.
  rewrite seq_app, forallb_app. unfold and_then, insert_all.
  destruct (for_each_run io insert_event (events bb) w k) as [E1 E2].
  destruct (forallb (fun i => negb (exec_fails io i)) (seq k (length (events bb))));
    cbn [andb].
  - rewrite (E1 eq_refl).
    destruct (for_each_run io insert_transfer (transfers bb)
                (fold_left (fun d x => insert_event x d) (events bb) w)
                (k + length (events bb))) as [T1 T2].
    split; intros H; [now rewrite (T1 H)|exact (T2 H)].
  - split; [discriminate|]. intros _. specialize (E2 eq_refl).
    destruct (for_each io insert_event (events bb) (w, k)) as [[e|] s]; cbn [fst] in *;
      [assumption|discriminate].
Qed.

(** What [Commit] returns, in full. *)
Lemma Commit_result (io : TxIO) (bb : BlockBatch) (db : DB) :
  Commit io bb db
  = if negb (begin_fails io)
       && forallb (fun i => negb (exec_fails io i)) (commit_checked bb)
       && negb (commit_fails io)
    then (None, insert_all bb (if exec_fails io 2 then truncate bb db
                               else mark bb (truncate bb db)))
    else (Some StorageError, db).
Proof.
  unfold Commit, execInTx, commit_checked, truncate, mark.
  destruct (begin_fails io); [reflexivity|]. cbn [negb andb].
  assert (Hfin : forall w k,
    match (for_each io insert_event (events bb) ;;
           for_each io insert_transfer (transfers bb)) (w, k) with
    | (Some e, _) => (Some e, db)
    | (None, (db', _)) => if commit_fails io then (Some StorageError, db) else (None, db')
    end
    = if forallb (fun i => negb (exec_fails io i))
                 (seq k (length (events bb) + length (transfers bb)))
         && negb (commit_fails io)
      then (None, insert_all bb w) else (Some StorageError, db)).
  { intros w k. destruct (inserts_run io bb w k) as [I1 I2].
    destruct (forallb _ (seq k _)); cbn [andb].
    - rewrite (I1 eq_refl). now destruct (commit_fails io).
    - specialize (I2 eq_refl).
      destruct ((for_each io insert_event (events bb) ;;
                 for_each io insert_transfer (transfers bb)) (w, k)) as [[e|] [d n]];
        cbn [fst] in I2; [congruence|discriminate]. }
  destruct (Number (header bb) >? 0).
  - cbn [app forallb].
    unfold and_then at 1 2 3. unfold Exec at 1. cbn [fst snd].
    destruct (exec_fails io 0); [reflexivity|]. cbn [negb andb].
    unfold Exec at 1. cbn [fst snd].
    destruct (exec_fails io 1); [reflexivity|]. cbn [negb andb].
    unfold ignore_error, Exec at 1. cbn [fst snd].
    destruct (exec_fails io 2); cbn [fst snd]; apply Hfin.
  - unfold and_then at 1. unfold skip at 1.
    rewrite Hfin. now destruct (exec_fails io 2).
Qed.

(* ================================================================== *)
(** * The claims *)

(** C1 (as the code behaves).  On a store holding an event of contract B at
    block 5 and events of contracts A and B at block 15, [FilterEvents] with
    Range = blocks 10..20 and the two criteria groups {address = A},
    {address = B} returns the event of block 5 too: the Range is conjoined
    with the first group only, so a record matching a later group escapes
    it.  Range AND (Group1 OR Group2) selects the two events of block 15
    only, and [FilterTransfers], which wraps the groups in parentheses, does
    keep to the Range on the same store. *)
Theorem C1_FilterEvents_later_group_escapes_range :
  Sample.keys (FilterEvents Background read_ok Sample.db15 (Some Sample.two_groups))
  = Some [(5, 0); (15, 0); (15, 1)]
  /\ map event_key (filter (event_range_and_groups Sample.two_groups) (event Sample.db15))
     = [(15, 0); (15, 1)]
  /\ Sample.transfer_keys
       (FilterTransfers Background read_ok Sample.db15 (Some Sample.two_groups_transfers))
     = Some [(15, 0); (15, 1)].
Proof. repeat split; vm_compute; reflexivity. Qed.

(** C2 (as the code behaves).  A batch for block 3 is committed to a store
    indexed up to block 15 while the statement that updates the marker
    fails.  [Commit] reports no error, the truncation and the insertion are
    in the store, and the marker still reads 15: the failure of that one
    statement is neither reported nor rolled back. *)
Theorem C2_Commit_marker_failure_unreported :
  let r := Commit Sample.marker_fault (build (Sample.hdr 3) [Sample.call Sample.addrB])
                  Sample.db15 in
  fst r = None
  /\ QueryLastBlockNumber read_ok Sample.db15 = Ok 15
  /\ QueryLastBlockNumber read_ok (snd r) = Ok 15
  /\ Sample.keys (FilterEvents Background read_ok Sample.db15 None)
     = Some [(5, 0); (15, 0); (15, 1)]
  /\ Sample.keys (FilterEvents Background read_ok (snd r) None) = Some [(3, 0)].
Proof. repeat split; vm_compute; reflexivity. Qed.

(** C3, refuted as stated.  The same batch is committed twice, both calls
    succeed; after a commit that failed, the same batch is committed with
    success; and [Insert] on the committed batch still appends. *)
Lemma C3_committed_batch_is_not_terminal :
  let bb := build (Sample.hdr 5) [Sample.call Sample.addrB] in
  Commit tx_ok bb Sample.empty = (None, Sample.db5)
  /\ Commit tx_ok bb Sample.db5 = (None, Sample.db5)
  /\ Commit (mkTxIO true (fun _ => false) false) bb Sample.empty
     = (Some StorageError, Sample.empty)
  /\ length (events (apply_call bb (Sample.call Sample.addrA))) = 2%nat.
Proof. repeat split; vm_compute; reflexivity. Qed.

Lemma DB_ext (a b : DB) :
  config a = config b -> event a = event b -> transfer a = transfer b -> a = b.
Proof. destruct a, b; cbn; congruence. Qed.

Lemma filter_none {A} (p : A -> bool) (l : list A) :
  (forall x, In x l -> p x = false) -> filter p l = [].
Proof.
  induction l as [|x l IH]; intros H; cbn [filter]; [reflexivity|].
  rewrite (H x) by (now left). apply IH. intros y Hy. apply H. now right.
Qed.

Lemma filter_idem {A} (p : A -> bool) (l : list A) : filter p (filter p l) = filter p l.
Proof. rewrite filter_filter. apply filter_ext. intros x. now destruct (p x). Qed.

Lemma key_eqb_refl (a : Z * Z) : key_eqb a a = true.
Proof. now apply key_eqb_true. Qed.

Lemma event_kept_rows (bb : BlockBatch) :
  filter (event_kept bb) (map event_row (events bb)) = [].
Proof.
  apply filter_none. intros r Hr. apply in_map_iff in Hr. destruct Hr as (e & <- & He).
  unfold event_kept, event_replaced.
  replace (existsb _ (events bb)) with true; [now rewrite andb_false_r|].
  symmetry. apply existsb_exists. exists e. split; [exact He|apply key_eqb_refl].
Qed.

Lemma transfer_kept_rows (bb : BlockBatch) :
  filter (transfer_kept bb) (map transfer_row (transfers bb)) = [].
Proof.
  apply filter_none. intros r Hr. apply in_map_iff in Hr. destruct Hr as (e & <- & He).
  unfold transfer_kept, transfer_replaced.
  replace (existsb _ (transfers bb)) with true; [now rewrite andb_false_r|].
  symmetry. apply existsb_exists. exists e. split; [exact He|apply key_eqb_refl].
Qed.

Lemma mark_config_idem (bb : BlockBatch) (a b : DB) :
  config a = config (mark bb b) -> config (mark bb a) = config (mark bb b).
Proof.
  unfold mark. destruct (Number (header bb) >? 0); [|auto].
  unfold replace_config. cbn [config]. intros ->.
  rewrite filter_app, filter_idem. cbn [filter fst].
  rewrite String.eqb_refl. cbn [negb]. now rewrite app_nil_r.
Qed.

(** Committing a batch a second time changes nothing. *)
Lemma Commit_twice (bb : BlockBatch) (db : DB) :
  batch_indexed bb -> batch_fits bb ->
  Commit tx_ok bb (snd (Commit tx_ok bb db)) = Commit tx_ok bb db.
Proof.
  intros Hi Hf. rewrite (Commit_tx_ok bb db). cbn [snd].
  set (db1 := insert_all bb (mark bb (truncate bb db))).
  rewrite (Commit_tx_ok bb db1). f_equal.
  destruct (@Commit_ok_tables tx_ok bb db _ Hi Hf (Commit_tx_ok bb db)) as [He1 Ht1].
  destruct (@Commit_ok_tables tx_ok bb db1 _ Hi Hf (Commit_tx_ok bb db1)) as [He2 Ht2].
  fold db1 in He1, Ht1.
  apply DB_ext.
  - unfold db1 at 2. rewrite !insert_all_config.
    assert (Hm : forall d, config (mark bb (truncate bb d)) = config (mark bb d)).
    { intros d. unfold mark. destruct (Number (header bb) >? 0);
        [unfold replace_config; cbn [config]|]; now rewrite truncate_config. }
    rewrite !Hm. apply mark_config_idem. unfold db1.
    now rewrite insert_all_config, Hm.
  - rewrite He2, He1, filter_app, filter_idem, event_kept_rows, app_nil_r. reflexivity.
  - rewrite Ht2, Ht1, filter_app, filter_idem, transfer_kept_rows, app_nil_r. reflexivity.
Qed.

Lemma Insert_lengths bb txID txOrigin evs trs ci :
  length (events (Insert bb txID txOrigin evs trs ci))
  = (length (events bb) + length evs)%nat
  /\ length (transfers (Insert bb txID txOrigin evs trs ci))
     = (length (transfers bb) + length trs)%nat.
Proof.
  unfold Insert.
  assert (H1 : forall l b,
    let b' := fold_left (fun bb event =>
      mkBatch (header bb)
              (events bb ++ [newEvent (header bb) (uint32 (Z.of_nat (length (events bb))))
                                      txID txOrigin ci event])
              (transfers bb)) l b in
    length (events b') = (length (events b) + length l)%nat
    /\ transfers b' = transfers b).
  { induction l as [|x l IH]; intros b; cbn [fold_left length].
    - split; [lia|reflexivity].
    - cbv zeta in IH.
      match goal with |- context [fold_left ?f l ?b0] => destruct (IH b0) as [-> ->] end.
      cbn [events transfers]. rewrite length_app. cbn [length]. split; [lia|reflexivity]. }
  assert (H2 : forall l b,
    let b' := fold_left (fun bb transfer =>
      mkBatch (header bb) (events bb)
              (transfers bb ++ [newTransfer (header bb)
                                            (uint32 (Z.of_nat (length (transfers bb))))
                                            txID txOrigin ci transfer])) l b in
    length (transfers b') = (length (transfers b) + length l)%nat
    /\ events b' = events b).
  { induction l as [|x l IH]; intros b; cbn [fold_left length].
    - split; [lia|reflexivity].
    - cbv zeta in IH.
      match goal with |- context [fold_left ?f l ?b0] => destruct (IH b0) as [-> ->] end.
      cbn [events transfers]. rewrite length_app. cbn [length]. split; [lia|reflexivity]. }
  cbv zeta in H1, H2.
  match goal with |- context [fold_left ?f trs ?b0] => destruct (H2 trs b0) as [-> ->] end.
  destruct (H1 evs bb) as [-> ->]. split; reflexivity.
Qed.

(** C3, amended.  A batch carries no lifecycle state.  For every batch built
    by [Prepare] and [Insert] (short of index wrap-around) and every store:
    a commit without store faults succeeds, and committing the same batch
    again succeeds too and leaves the store as the first commit left it; a
    commit that reports an error leaves the store unchanged and the same
    batch can then be committed with success; and [Insert] keeps appending
    to the batch whatever was committed. *)
Theorem C3_batch_has_no_lifecycle (h : Header) (calls : list InsertCall) (db : DB) :
  batch_fits (build h calls) ->
  (exists db1, Commit tx_ok (build h calls) db = (None, db1)
               /\ Commit tx_ok (build h calls) db1 = (None, db1))
  /\ (forall io e db', Commit io (build h calls) db = (Some e, db') ->
        db' = db /\ fst (Commit tx_ok (build h calls) db') = None)
  /\ (forall c,
        length (events (apply_call (build h calls) c))
        = (length (events (build h calls)) + length (call_events c))%nat
        /\ length (transfers (apply_call (build h calls) c))
           = (length (transfers (build h calls)) + length (call_transfers c))%nat).
Proof.
  intros Hf. pose proof (build_indexed h calls) as Hi. repeat split.
  - eexists. split; [apply Commit_tx_ok|].
    pose proof (@Commit_twice (build h calls) db Hi Hf) as H2.
    rewrite (Commit_tx_ok (build h calls) db) in H2. exact H2.
  - eapply Commit_error_preserves; eauto.
  - now rewrite Commit_tx_ok.
  - apply Insert_lengths.
  - apply Insert_lengths.
Qed.

Lemma C3_batch_has_no_lifecycle_witness :
  batch_fits (build (Sample.hdr 5) [Sample.call Sample.addrB])
  /\ exists db1,
       Commit tx_ok (build (Sample.hdr 5) [Sample.call Sample.addrB]) Sample.empty
       = (None, db1)
       /\ Commit tx_ok (build (Sample.hdr 5) [Sample.call Sample.addrB]) db1 = (None, db1).
Proof.
  assert (Hf : batch_fits (build (Sample.hdr 5) [Sample.call Sample.addrB]))
    by (split; vm_compute; discriminate).
  split; [exact Hf|].
  exact (proj1 (@C3_batch_has_no_lifecycle (Sample.hdr 5) [Sample.call Sample.addrB]
                                             Sample.empty Hf)).
Defined.

Lemma filter_disjoint {A} (p q : A -> bool) (l : list A) :
  (forall x, p x = true -> q x = false) -> filter q (filter p l) = [].
Proof.
  intros H. apply filter_none. intros x Hx. apply filter_In in Hx. now apply H.
Qed.

Lemma batch_events_block (bb : BlockBatch) :
  batch_indexed bb ->
  Forall (fun e => Event.BlockNumber e = Number (header bb)) (events bb).
Proof.
  intros [Hie _]. apply Forall_forall. intros e He.
  apply In_nth_error in He. destruct He as [i Hi]. now apply Hie in Hi.
Qed.

Lemma batch_transfers_block (bb : BlockBatch) :
  batch_indexed bb ->
  Forall (fun t => Transfer.BlockNumber t = Number (header bb)) (transfers bb).
Proof.
  intros [_ Hit]. apply Forall_forall. intros e He.
  apply In_nth_error in He. destruct He as [i Hi]. now apply Hit in Hi.
Qed.

(** C4.  A batch built for a header of height H > 0 is committed (the
    commit reports no error).  Then, for events and for transfers alike: the
    table is the rows it held below H, unchanged and in place, followed by
    the rows of the batch; hence the rows below H are the ones it held
    before, and the rows at or above H are exactly the rows of the batch,
    all of which carry block number H. *)
Theorem C4_Commit_reorg_truncation (io : TxIO) (h : Header) (calls : list InsertCall)
    (db db' : DB) :
  Number h > 0 ->
  batch_fits (build h calls) ->
  Commit io (build h calls) db = (None, db') ->
  (event db' = filter (fun r => er_blockNumber r <? Number h) (event db)
               ++ map event_row (events (build h calls))
   /\ filter (fun r => er_blockNumber r <? Number h) (event db')
      = filter (fun r => er_blockNumber r <? Number h) (event db)
   /\ filter (fun r => er_blockNumber r >=? Number h) (event db')
      = map event_row (events (build h calls))
   /\ Forall (fun e => Event.BlockNumber e = Number h) (events (build h calls)))
  /\ (transfer db' = filter (fun r => tr_blockNumber r <? Number h) (transfer db)
                     ++ map transfer_row (transfers (build h calls))
      /\ filter (fun r => tr_blockNumber r <? Number h) (transfer db')
         = filter (fun r => tr_blockNumber r <? Number h) (transfer db)
      /\ filter (fun r => tr_blockNumber r >=? Number h) (transfer db')
         = map transfer_row (transfers (build h calls))
      /\ Forall (fun t => Transfer.BlockNumber t = Number h) (transfers (build h calls))).
Proof.
  intros Hpos Hf Hc.
  pose proof (build_indexed h calls) as Hi.
  pose proof (build_header h calls) as Hh.
  destruct (@Commit_ok_tables io _ db db' Hi Hf Hc) as [He Ht].
  rewrite event_kept_below in He by (rewrite ?Hh; assumption).
  rewrite transfer_kept_below in Ht by (rewrite ?Hh; assumption).
  rewrite Hh in He, Ht.
  pose proof (batch_events_block Hi) as Be. pose proof (batch_transfers_block Hi) as Bt.
  rewrite Hh in Be, Bt.
  split; (split; [assumption|]).
  - rewrite He. repeat split.
    + rewrite filter_app, filter_idem.
      rewrite (@filter_none _ _ (map event_row _)); [now rewrite app_nil_r|].
      intros r Hr. apply in_map_iff in Hr. destruct Hr as (e & <- & Hin).
      rewrite Forall_forall in Be. apply Be in Hin. cbn. rewrite Hin. apply Z.ltb_irrefl.
    + rewrite filter_app, filter_disjoint by (intros x Hx; apply Z.ltb_lt in Hx;
        apply not_true_is_false; intros Hg; apply Z.geb_le in Hg; lia).
      cbn [app]. apply forallb_filter_id. apply forallb_forall.
      intros r Hr. apply in_map_iff in Hr. destruct Hr as (e & <- & Hin).
      rewrite Forall_forall in Be. apply Be in Hin. cbn. rewrite Hin. apply Z.geb_le. lia.
    + exact Be.
  - rewrite Ht. repeat split.
    + rewrite filter_app, filter_idem.
      rewrite (@filter_none _ _ (map transfer_row _)); [now rewrite app_nil_r|].
      intros r Hr. apply in_map_iff in Hr. destruct Hr as (e & <- & Hin).
      rewrite Forall_forall in Bt. apply Bt in Hin. cbn. rewrite Hin. apply Z.ltb_irrefl.
    + rewrite filter_app, filter_disjoint by (intros x Hx; apply Z.ltb_lt in Hx;
        apply not_true_is_false; intros Hg; apply Z.geb_le in Hg; lia).
      cbn [app]. apply forallb_filter_id. apply forallb_forall.
      intros r Hr. apply in_map_iff in Hr. destruct Hr as (e & <- & Hin).
      rewrite Forall_forall in Bt. apply Bt in Hin. cbn. rewrite Hin. apply Z.geb_le. lia.
    + exact Bt.
Qed.

Lemma C4_Commit_reorg_truncation_witness :
  Number (Sample.hdr 15) > 0
  /\ batch_fits (build (Sample.hdr 15) [Sample.call Sample.addrA; Sample.call Sample.addrB])
  /\ filter (fun r => er_blockNumber r >=? 15) (event Sample.db15)
     = map event_row
           (events (build (Sample.hdr 15)
                          [Sample.call Sample.addrA; Sample.call Sample.addrB])).
Proof.
  assert (Hp : Number (Sample.hdr 15) > 0) by (vm_compute; reflexivity).
  assert (Hf : batch_fits (build (Sample.hdr 15)
                                 [Sample.call Sample.addrA; Sample.call Sample.addrB]))
    by (split; vm_compute; discriminate).
  split; [exact Hp|]. split; [exact Hf|].
  exact (proj1 (proj2 (proj2 (proj1
    (@C4_Commit_reorg_truncation tx_ok (Sample.hdr 15)
       [Sample.call Sample.addrA; Sample.call Sample.addrB]
       Sample.db5 Sample.db15 Hp Hf eq_refl))))).
Defined.

(** C5.  A batch built from well-formed payloads (hashes of 32 bytes,
    addresses of 20 bytes, non-negative amounts; short of index wrap-around)
    is committed.  A following unfiltered read, neither cancelled nor
    failing, returns the records the store kept from before followed by the
    records of the batch, each equal to the input in every field; on a store
    that keeps nothing from before (a fresh one, for instance) it returns
    exactly the records of the batch. *)
Theorem C5_commit_then_read_roundtrip (ctx : Context) (rio : ReadIO) (io : TxIO)
    (h : Header) (calls : list InsertCall) (db db' : DB) :
  wf_header h -> Forall wf_call calls ->
  batch_fits (build h calls) ->
  never_done ctx -> no_read_fault rio ->
  Commit io (build h calls) db = (None, db') ->
  (FilterEvents ctx rio db' None
   = Ok (map scan_event (filter (event_kept (build h calls)) (event db))
         ++ events (build h calls))
   /\ FilterTransfers ctx rio db' None
      = Ok (map scan_transfer (filter (transfer_kept (build h calls)) (transfer db))
            ++ transfers (build h calls)))
  /\ (filter (event_kept (build h calls)) (event db) = [] ->
      FilterEvents ctx rio db' None = Ok (events (build h calls)))
  /\ (filter (transfer_kept (build h calls)) (transfer db) = [] ->
      FilterTransfers ctx rio db' None = Ok (transfers (build h calls))).
Proof.
  intros Hh Hcalls Hf Hctx Hrio Hc.
  pose proof (build_indexed h calls) as Hi.
  destruct (build_wf Hh Hcalls) as [Hwe Hwt].
  destruct (@Commit_ok_tables io _ db db' Hi Hf Hc) as [He Ht].
  assert (HE : FilterEvents ctx rio db' None
               = Ok (map scan_event (filter (event_kept (build h calls)) (event db))
                     ++ events (build h calls))).
  { rewrite (@FilterEvents_spec ctx rio db' None Hrio I).
    rewrite never_done_not_cancelled by assumption.
    cbn [selected_events]. now rewrite He, map_app, map_scan_event_row. }
  assert (HT : FilterTransfers ctx rio db' None
               = Ok (map scan_transfer (filter (transfer_kept (build h calls)) (transfer db))
                     ++ transfers (build h calls))).
  { rewrite (@FilterTransfers_spec ctx rio db' None Hrio I).
    rewrite never_done_not_cancelled by assumption.
    cbn [selected_transfers]. now rewrite Ht, map_app, map_scan_transfer_row. }
  repeat split; try assumption.
  - intros Hk. now rewrite HE, Hk.
  - intros Hk. now rewrite HT, Hk.
Qed.

Lemma C5_commit_then_read_roundtrip_witness :
  FilterEvents Background read_ok Sample.db5 None
  = Ok (events (build (Sample.hdr 5) [Sample.call Sample.addrB]))
  /\ FilterTransfers Background read_ok Sample.db5 None
     = Ok (transfers (build (Sample.hdr 5) [Sample.call Sample.addrB])).
Proof.
  assert (Hh : wf_header (Sample.hdr 5)) by reflexivity.
  assert (Hc : Forall wf_call [Sample.call Sample.addrB]).
  { repeat constructor; vm_compute; discriminate. }
  assert (Hf : batch_fits (build (Sample.hdr 5) [Sample.call Sample.addrB]))
    by (split; vm_compute; discriminate).
  assert (Hd : never_done Background) by (intros i; reflexivity).
  assert (Hr : no_read_fault read_ok) by (split; [reflexivity|intros i; reflexivity]).
  pose proof (@C5_commit_then_read_roundtrip Background read_ok tx_ok (Sample.hdr 5)
                [Sample.call Sample.addrB] Sample.empty Sample.db5
                Hh Hc Hf Hd Hr eq_refl) as (_ & He & Ht).
  split; [apply He|apply Ht]; reflexivity.
Defined.

Lemma not_replaced_other_block (bb : BlockBatch) :
  batch_indexed bb ->
  (forall r, er_blockNumber r <> Number (header bb) -> event_replaced bb r = false)
  /\ (forall r, tr_blockNumber r <> Number (header bb) -> transfer_replaced bb r = false).
Proof.
  intros [Hie Hit]. split; intros r Hr; apply not_true_is_false; intros Hex;
    apply existsb_exists in Hex; destruct Hex as (e & Hin & Hk);
    apply key_eqb_true in Hk; apply In_nth_error in Hin; destruct Hin as [i Hi].
  - apply Hie in Hi. destruct Hi as [Hbn _]. injection Hk as Hk _. cbn in Hk. congruence.
  - apply Hit in Hi. destruct Hi as [Hbn _]. injection Hk as Hk _. cbn in Hk. congruence.
Qed.

(** C6.  A batch built for a header of height 0 is committed.  Whatever the
    outcome, table [config] is unchanged and [QueryLastBlockNumber] returns
    what it returned before.  The transaction holds the INSERTs only, one
    per record: the commit reports no error exactly when [Begin], each of
    these INSERTs and the final commit do not fail.  It then has truncated
    nothing and has inserted the records: each record table is the rows it
    held, except those whose key a record of the batch takes over, followed
    by the rows of the batch; so every row of a block other than 0 is still
    there, and every record of the batch is in its table. *)
Theorem C6_genesis_exemption (io : TxIO) (rio : ReadIO) (h : Header)
    (calls : list InsertCall) (db : DB) :
  Number h = 0 ->
  batch_fits (build h calls) ->
  config (snd (Commit io (build h calls) db)) = config db
  /\ QueryLastBlockNumber rio (snd (Commit io (build h calls) db))
     = QueryLastBlockNumber rio db
  /\ (fst (Commit io (build h calls) db) = None
      <-> begin_fails io = false
          /\ (forall i, (i < length (events (build h calls))
                             + length (transfers (build h calls)))%nat ->
                exec_fails io i = false)
          /\ commit_fails io = false)
  /\ (fst (Commit io (build h calls) db) = None ->
      event (snd (Commit io (build h calls) db))
      = filter (fun r => negb (event_replaced (build h calls) r)) (event db)
        ++ map event_row (events (build h calls))
      /\ transfer (snd (Commit io (build h calls) db))
         = filter (fun r => negb (transfer_replaced (build h calls) r)) (transfer db)
           ++ map transfer_row (transfers (build h calls))
      /\ (forall r, In r (event db) -> er_blockNumber r <> 0 ->
            In r (event (snd (Commit io (build h calls) db))))
      /\ (forall r, In r (transfer db) -> tr_blockNumber r <> 0 ->
            In r (transfer (snd (Commit io (build h calls) db))))
      /\ (forall e, In e (events (build h calls)) ->
            In (event_row e) (event (snd (Commit io (build h calls) db))))
      /\ (forall t, In t (transfers (build h calls)) ->
            In (transfer_row t) (transfer (snd (Commit io (build h calls) db))))).
Proof.
  intros H0 Hf.
  pose proof (build_indexed h calls) as Hi.
  pose proof (build_header h calls) as Hh.
  assert (Hout : fst (Commit io (build h calls) db) = None
                 <-> begin_fails io = false
                     /\ (forall i, (i < length (events (build h calls))
                                        + length (transfers (build h calls)))%nat ->
                           exec_fails io i = false)
                     /\ commit_fails io = false).
  { rewrite Commit_result. unfold commit_checked. rewrite Hh, H0.
    change (0 >? 0) with false. cbv iota.
    set (n := (length (events (build h calls)) + length (transfers (build h calls)))%nat).
    assert (Hall : forallb (fun i => negb (exec_fails io i)) (seq 0 n) = true
                   <-> forall i, (i < n)%nat -> exec_fails io i = false).
    { rewrite forallb_forall. split.
      - intros H i Hlt. specialize (H i). rewrite in_seq in H.
        destruct (exec_fails io i); [|reflexivity].
        assert (negb true = true) by (apply H; lia). discriminate.
      - intros H i Hin. apply in_seq in Hin. rewrite H by lia. reflexivity. }
    destruct (begin_fails io); cbn [negb andb fst].
    - split; [discriminate|]. intros [? _]. discriminate.
    - destruct (forallb _ (seq 0 n)) eqn:E; cbn [andb].
      + destruct (commit_fails io); cbn [negb fst].
        * split; [discriminate|]. intros (_ & _ & ?). discriminate.
        * split; [|reflexivity]. intros _. split; [reflexivity|]. split; [|reflexivity].
          now apply Hall.
      + cbn [fst]. split; [discriminate|]. intros (_ & H & _).
        apply Hall in H. congruence. }
  destruct (Commit io (build h calls) db) as [[e|] db'] eqn:Hc; cbn [fst snd] in *.
  - apply Commit_error_preserves in Hc. subst db'.
    split; [reflexivity|]. split; [reflexivity|]. split; [exact Hout|discriminate].
  - assert (Hcfg : config db' = config db).
    { apply Commit_ok_store in Hc. unfold mark, truncate in Hc. rewrite Hh, H0 in Hc.
      cbn in Hc. destruct Hc as [-> | ->]; apply insert_all_config. }
    destruct (@Commit_ok_tables io _ db db' Hi Hf Hc) as [He Ht].
    assert (Hke : forall tbl, filter (event_kept (build h calls)) tbl
                  = filter (fun r => negb (event_replaced (build h calls) r)) tbl).
    { intros tbl. apply filter_ext. intros r. unfold event_kept. now rewrite Hh, H0. }
    assert (Hkt : forall tbl, filter (transfer_kept (build h calls)) tbl
                  = filter (fun r => negb (transfer_replaced (build h calls) r)) tbl).
    { intros tbl. apply filter_ext. intros r. unfold transfer_kept. now rewrite Hh, H0. }
    rewrite Hke in He. rewrite Hkt in Ht.
    destruct (not_replaced_other_block Hi) as [Hne Hnt]. rewrite Hh, H0 in Hne, Hnt.
    split; [exact Hcfg|]. split; [unfold QueryLastBlockNumber; now rewrite Hcfg|].
    split; [exact Hout|]. intros _.
    split; [exact He|]. split; [exact Ht|]. split; [|split; [|split]].
    + intros r Hin Hbn. rewrite He. apply in_or_app. left. apply filter_In.
      split; [exact Hin|]. now rewrite Hne.
    + intros r Hin Hbn. rewrite Ht. apply in_or_app. left. apply filter_In.
      split; [exact Hin|]. now rewrite Hnt.
    + intros e Hin. rewrite He. apply in_or_app. right. now apply in_map.
    + intros t Hin. rewrite Ht. apply in_or_app. right. now apply in_map.
Qed.

Lemma C6_genesis_exemption_witness :
  let bb := build (Sample.hdr 0) [Sample.call Sample.addrA] in
  Number (Sample.hdr 0) = 0
  /\ fst (Commit tx_ok bb Sample.db15) = None
  /\ QueryLastBlockNumber read_ok (snd (Commit tx_ok bb Sample.db15))
     = QueryLastBlockNumber read_ok Sample.db15
  /\ event (snd (Commit tx_ok bb Sample.db15))
     = filter (fun r => negb (event_replaced bb r)) (event Sample.db15)
       ++ map event_row (events bb)
  /\ transfer (snd (Commit tx_ok bb Sample.db15))
     = filter (fun r => negb (transfer_replaced bb r)) (transfer Sample.db15)
       ++ map transfer_row (transfers bb)
  /\ Forall (fun e => In (event_row e) (event (snd (Commit tx_ok bb Sample.db15))))
            (events bb).
Proof.
  intros bb.
  assert (Hf : batch_fits bb) by (split; vm_compute; discriminate).
  destruct (@C6_genesis_exemption tx_ok read_ok (Sample.hdr 0)
              [Sample.call Sample.addrA] Sample.db15 eq_refl Hf)
    as (_ & Hq & Hout & Hins).
  assert (Hok : fst (Commit tx_ok bb Sample.db15) = None).
  { apply Hout. split; [reflexivity|]. split; [intros i _; reflexivity|reflexivity]. }
  destruct (Hins Hok) as (He & Ht & _ & _ & Hin & _).
  split; [reflexivity|]. split; [exact Hok|]. split; [exact Hq|].
  split; [exact He|]. split; [exact Ht|]. apply Forall_forall. exact Hin.
Defined.

Lemma paginate_map {A B} (f : A -> B) (o : option Options) (l : list A) :
  map f (paginate o l) = paginate o (map f l).
Proof.
  destruct o as [o|]; cbn [paginate]; [|reflexivity].
  now rewrite <- firstn_map, <- skipn_map.
Qed.



(** C7 (as the code behaves).  The store holds one event of contract B at
    block 5 (block time 1005) and events of contracts A and B at block 15
    (block time 1015).  [FilterEvents] with the two criteria groups
    {address = A}, {address = B} returns the event of block 5 under each
    of three Ranges that exclude it: blocks 10 to 20, block times 1010 to
    1020, and the open Range of blocks from 10 on ([To < From]).  The Range
    is conjoined with the first group only, so it does not constrain the
    records of a later group.  On the same store and under the same Ranges,
    no returned record lies outside the Range for [FilterEvents] with the
    single group {address = B} or with no group, nor for [FilterTransfers]
    with two groups. *)
Theorem C7_Range_not_applied_to_later_event_groups :
  let events f := FilterEvents Background read_ok Sample.db15 (Some f) in
  let transfers f := FilterTransfers Background read_ok Sample.db15 (Some f) in
  let blocks := mkRange Block 10 20 in
  let times := mkRange Time 1010 1020 in
  let onward := mkRange Block 10 0 in
  (Sample.keys (events (Sample.groups_in blocks)) = Some [(5, 0); (15, 0); (15, 1)]
   /\ Sample.events_outside blocks (events (Sample.groups_in blocks)) = Some [(5, 0)])
  /\ (Sample.keys (events (Sample.groups_in times)) = Some [(5, 0); (15, 0); (15, 1)]
      /\ Sample.events_outside times (events (Sample.groups_in times)) = Some [(5, 0)])
  /\ (Sample.keys (events (Sample.groups_in onward)) = Some [(5, 0); (15, 0); (15, 1)]
      /\ Sample.events_outside onward (events (Sample.groups_in onward)) = Some [(5, 0)])
  /\ (Sample.keys (events (Sample.one_group_in blocks)) = Some [(15, 1)]
      /\ Sample.keys (events (Sample.one_group_in times)) = Some [(15, 1)]
      /\ Sample.keys (events (Sample.one_group_in onward)) = Some [(15, 1)])
  /\ (Sample.keys (events (EventFilter.mk [] (Some blocks) None ASC))
      = Some [(15, 0); (15, 1)]
      /\ Sample.keys (events (EventFilter.mk [] (Some times) None ASC))
         = Some [(15, 0); (15, 1)]
      /\ Sample.keys (events (EventFilter.mk [] (Some onward) None ASC))
         = Some [(15, 0); (15, 1)])
  /\ (Sample.transfer_keys (transfers (Sample.transfer_groups_in blocks))
      = Some [(15, 0); (15, 1)]
      /\ Sample.transfers_outside blocks (transfers (Sample.transfer_groups_in blocks))
         = Some []
      /\ Sample.transfers_outside times (transfers (Sample.transfer_groups_in times))
         = Some []
      /\ Sample.transfers_outside onward (transfers (Sample.transfer_groups_in onward))
         = Some []).
Proof. repeat split; vm_compute; reflexivity. Qed.

Lemma cancelled_at (ctx : Context) (n i : nat) :
  (i < n)%nat -> Done ctx i = true -> cancelled ctx n = true.
Proof.
  intros Hi Hd. unfold cancelled. apply orb_true_iff. right.
  apply existsb_exists. exists i. split; [apply in_seq; lia|exact Hd].
Qed.

Lemma not_cancelled (ctx : Context) (n : nat) :
  Done ctx 0%nat = false -> (forall i, (i < n)%nat -> Done ctx i = false) ->
  cancelled ctx n = false.
Proof.
  intros H0 Hn. unfold cancelled. rewrite H0. cbn [orb].
  apply not_true_is_false. intros Hex. apply existsb_exists in Hex.
  destruct Hex as (i & Hin & Hd). apply in_seq in Hin. rewrite Hn in Hd by lia.
  discriminate.
Qed.

(** C8.  The Done channel of the caller's context is polled by
    [QueryContext] and then once before each row that is produced.  With a
    context that is already done, both filter calls return the context's
    error, whatever the filter, the store and its faults.  On a store
    without read faults, if the channel is found closed before any row [i]
    of the rows the call would produce, the call returns the context's error
    and no record; if no poll finds it closed, the call returns the records.
    The context's error is not the storage error. *)
Theorem C8_cancellation (ctx : Context) (rio : ReadIO) (db : DB) :
  (Done ctx 0%nat = true ->
   (forall rio' f, FilterEvents ctx rio' db f = Err (ContextError (CtxErr ctx)))
   /\ (forall rio' f, FilterTransfers ctx rio' db f = Err (ContextError (CtxErr ctx))))
  /\ (no_read_fault rio ->
      (forall f i, wf_options (event_filter_options f) ->
         (i < length (selected_events f db))%nat -> Done ctx i = true ->
         FilterEvents ctx rio db f = Err (ContextError (CtxErr ctx)))
      /\ (forall f i, wf_options (transfer_filter_options f) ->
            (i < length (selected_transfers f db))%nat -> Done ctx i = true ->
            FilterTransfers ctx rio db f = Err (ContextError (CtxErr ctx)))
      /\ (forall f, wf_options (event_filter_options f) ->
            Done ctx 0%nat = false ->
            (forall i, (i < length (selected_events f db))%nat -> Done ctx i = false) ->
            FilterEvents ctx rio db f = Ok (map scan_event (selected_events f db)))
      /\ (forall f, wf_options (transfer_filter_options f) ->
            Done ctx 0%nat = false ->
            (forall i, (i < length (selected_transfers f db))%nat -> Done ctx i = false) ->
            FilterTransfers ctx rio db f = Ok (map scan_transfer (selected_transfers f db))))
  /\ (forall e, ContextError e <> StorageError).
Proof.
  split; [|split].
  - intros H0. split; intros rio' f.
    + unfold FilterEvents. destruct f as [f|];
        [destruct (FilterEvents_sql f) as [stmt args]|];
        unfold queryEvents, QueryContext; now rewrite H0.
    + unfold FilterTransfers. destruct f as [f|];
        [destruct (FilterTransfers_sql f) as [stmt args]|];
        unfold queryTransfers, QueryContext; now rewrite H0.
  - intros Hrio. split; [|split; [|split]].
    + intros f i Hwf Hi Hd. rewrite (@FilterEvents_spec ctx rio db f Hrio Hwf).
      now rewrite (cancelled_at ctx Hi Hd).
    + intros f i Hwf Hi Hd. rewrite (@FilterTransfers_spec ctx rio db f Hrio Hwf).
      now rewrite (cancelled_at ctx Hi Hd).
    + intros f Hwf H0 Hn. rewrite (@FilterEvents_spec ctx rio db f Hrio Hwf).
      now rewrite not_cancelled.
    + intros f Hwf H0 Hn. rewrite (@FilterTransfers_spec ctx rio db f Hrio Hwf).
      now rewrite not_cancelled.
  - intros e. discriminate.
Qed.

Lemma C8_cancellation_witness :
  FilterEvents Sample.cancelled_ctx read_ok Sample.db15 None
  = Err (ContextError Canceled)
  /\ FilterEvents Sample.late_ctx read_ok Sample.db15 None
     = Err (ContextError DeadlineExceeded).
Proof.
  assert (Hr : no_read_fault read_ok) by (split; [reflexivity|intros i; reflexivity]).
  split.
  - exact (proj1 (proj1 (@C8_cancellation Sample.cancelled_ctx read_ok Sample.db15) eq_refl)
                 read_ok None).
  - refine (proj1 (proj1 (proj2 (@C8_cancellation Sample.late_ctx read_ok Sample.db15)) Hr)
                  None 1%nat I _ eq_refl).
    vm_compute. apply le_n_S, le_n_S, le_0_n.
Defined.



(** C10.  For every non-nil transfer filter and a read that is neither
    cancelled nor failing, the records returned are those stored transfers
    that satisfy Range AND (Group1 OR Group2 OR ...) and, when [TxID] is not
    nil, whose transaction id is that value; sorted, then paginated.  With a
    nil [TxID] the transaction id is not constrained. *)
Theorem C10_transfer_TxID_constraint (ctx : Context) (rio : ReadIO) (db : DB)
    (f : TransferFilter.t) :
  never_done ctx -> no_read_fault rio -> wf_options (TransferFilter.Options f) ->
  FilterTransfers ctx rio db (Some f)
  = Ok (map scan_transfer
         (paginate (TransferFilter.Options f)
            (SQL.sort_by (transfer_order (TransferFilter.Order f))
               (filter (fun r =>
                          transfer_range_and_groups f r
                          && match TransferFilter.TxID f with
                             | Some id => bytes_eqb (tr_txID r) (Bytes32_Bytes id)
                             | None => true
                             end)
                       (transfer db))))).
Proof.
  intros Hctx Hrio Hwf.
  rewrite (@FilterTransfers_spec ctx rio db (Some f) Hrio Hwf).
  rewrite never_done_not_cancelled by assumption.
  cbn [selected_transfers]. do 4 f_equal. apply filter_ext. intros r.
  unfold transfer_selected, transfer_range_and_groups, blob_holds, Bytes32_Bytes.
  destruct (TransferFilter.TxID f); destruct (transfer_range_holds f r);
    destruct (TransferFilter.CriteriaSet f); cbn [andb];
    rewrite ?andb_true_r, ?andb_false_r; try reflexivity; apply andb_comm.
Qed.

Lemma C10_transfer_TxID_constraint_witness :
  Sample.transfer_keys (FilterTransfers Background read_ok Sample.db15 (Some Sample.by_txid))
  = Some [(15, 0)].
Proof.
  assert (Hd : never_done Background) by (intros i; reflexivity).
  assert (Hr : no_read_fault read_ok) by (split; [reflexivity|intros i; reflexivity]).
  assert (Hw : wf_options (TransferFilter.Options Sample.by_txid))
    by (split; vm_compute; discriminate).
  rewrite (@C10_transfer_TxID_constraint Background read_ok Sample.db15 Sample.by_txid
             Hd Hr Hw).
  reflexivity.
Defined.

(* ================================================================== *)
(** * Further properties of the package *)

(** ** The marker *)

Lemma lor_shiftl_add (a b k : Z) :
  0 <= k -> 0 <= b < 2 ^ k -> Z.lor (Z.shiftl a k) b = a * 2 ^ k + b.
Proof.
  intros Hk Hb.
  assert (Hl : Z.land (Z.shiftl a k) b = 0).
  { apply Z.bits_inj'. intros n Hn. rewrite Z.land_spec, Z.bits_0.
    destruct (Z.lt_ge_cases n k) as [Hlt|Hge].
    - now rewrite Z.shiftl_spec_low.
    - destruct (Z.eq_dec b 0) as [->|Hne]; [now rewrite Z.bits_0, andb_false_r|].
      rewrite (Z.bits_above_log2 b n), andb_false_r; [reflexivity|lia|].
      assert (Z.log2 b < k) by (apply Z.log2_lt_pow2; lia). lia. }
  rewrite <- Z.lxor_lor, <- Z.add_nocarry_lxor, Z.shiftl_mul_pow2 by assumption.
  reflexivity.
Qed.

Lemma Z_of_byte_range (b : byte) : 0 <= Z_of_byte b < 256.
Proof.
  unfold Z_of_byte. pose proof (Byte.to_N_bounded b). lia.
Qed.

Lemma lor_mul_add (a b k : Z) :
  0 <= k -> 0 <= b < 2 ^ k -> Z.lor (a * 2 ^ k) b = a * 2 ^ k + b.
Proof.
  intros Hk Hb. rewrite <- (Z.shiftl_mul_pow2 a k) at 1 by assumption.
  now apply lor_shiftl_add.
Qed.

Lemma Uint32_value (b0 b1 b2 b3 : byte) (rest : bytes) :
  Uint32 (b0 :: b1 :: b2 :: b3 :: rest)
  = Some (Z_of_byte b0 * 2 ^ 24 + Z_of_byte b1 * 2 ^ 16 + Z_of_byte b2 * 2 ^ 8
          + Z_of_byte b3).
Proof.
  pose proof (Z_of_byte_range b0). pose proof (Z_of_byte_range b1).
  pose proof (Z_of_byte_range b2). pose proof (Z_of_byte_range b3).
  unfold Uint32. f_equal. rewrite !Z.shiftl_mul_pow2 by lia.
  assert (E1 : Z.lor (Z_of_byte b0 * 2 ^ 24) (Z_of_byte b1 * 2 ^ 16)
               = Z_of_byte b0 * 2 ^ 24 + Z_of_byte b1 * 2 ^ 16)
    by (apply lor_mul_add; lia).
  rewrite E1.
  assert (E2 : Z.lor (Z_of_byte b0 * 2 ^ 24 + Z_of_byte b1 * 2 ^ 16) (Z_of_byte b2 * 2 ^ 8)
               = Z_of_byte b0 * 2 ^ 24 + Z_of_byte b1 * 2 ^ 16 + Z_of_byte b2 * 2 ^ 8).
  { replace (Z_of_byte b0 * 2 ^ 24 + Z_of_byte b1 * 2 ^ 16)
      with ((Z_of_byte b0 * 2 ^ 8 + Z_of_byte b1) * 2 ^ 16) by lia.
    apply lor_mul_add; lia. }
  rewrite E2.
  replace (Z_of_byte b0 * 2 ^ 24 + Z_of_byte b1 * 2 ^ 16 + Z_of_byte b2 * 2 ^ 8)
    with ((Z_of_byte b0 * 2 ^ 16 + Z_of_byte b1 * 2 ^ 8 + Z_of_byte b2) * 2 ^ 8) by lia.
  apply lor_mul_add; lia.
Qed.

Lemma Uint32_PutUint32 (n : Z) : 0 <= n < 2 ^ 32 -> Uint32 (PutUint32 n) = Some n.
Proof.
  intros Hn. unfold PutUint32. rewrite Uint32_value, !Z_of_byte_of_Z.
  rewrite !Z.shiftr_div_pow2 by lia. f_equal.
  change (2 ^ 24) with (256 * 256 * 256). change (2 ^ 16) with (256 * 256).
  change (2 ^ 8) with 256.
  rewrite <- !Z.div_div by lia.
  pose proof (Z.div_mod n 256 ltac:(lia)) as D0.
  pose proof (Z.div_mod (n / 256) 256 ltac:(lia)) as D1.
  pose proof (Z.div_mod (n / 256 / 256) 256 ltac:(lia)) as D2.
  pose proof (Z.mod_pos_bound n 256 ltac:(lia)).
  pose proof (Z.mod_pos_bound (n / 256) 256 ltac:(lia)).
  pose proof (Z.mod_pos_bound (n / 256 / 256) 256 ltac:(lia)).
  assert (H3 : 0 <= n / 256 / 256 / 256 < 256).
  { split; [repeat apply Z.div_pos; lia|].
    repeat (apply Z.div_lt_upper_bound; [lia|]). change (2 ^ 32) with 4294967296 in Hn. lia. }
  rewrite (Z.mod_small (n / 256 / 256 / 256)) by assumption.
  pose proof (Z.div_mod (n / 256 / 256) 256 ltac:(lia)). lia.
Qed.

Lemma Uint32_range (b : bytes) (n : Z) : Uint32 b = Some n -> 0 <= n < 2 ^ 32.
Proof.
  destruct b as [|b0 [|b1 [|b2 [|b3 rest]]]]; try discriminate.
  rewrite Uint32_value. intros [= <-].
  pose proof (Z_of_byte_range b0). pose proof (Z_of_byte_range b1).
  pose proof (Z_of_byte_range b2). pose proof (Z_of_byte_range b3).
  change (2 ^ 32) with 4294967296. change (2 ^ 24) with 16777216.
  change (2 ^ 16) with 65536. change (2 ^ 8) with 256. lia.
Qed.

Lemma config_lookup_replace (k : string) (v : bytes) (c : list (string * bytes)) :
  config_lookup k (filter (fun kv => negb (String.eqb (fst kv) k)) c ++ [(k, v)]) = Some v.
Proof.
  induction c as [|[k' v'] c IH]; cbn [filter app config_lookup fst].
  - now rewrite String.eqb_refl.
  - destruct (String.eqb k' k) eqn:E; cbn [negb]; [exact IH|].
    cbn [app config_lookup]. rewrite String.eqb_sym, E. exact IH.
Qed.

(** X1.  After a commit at a height H with 0 < H < 2^32 that reports no
    error and whose marker statement did not fail, [QueryLastBlockNumber]
    (when its own read does not fail) returns H, whatever the marker was
    before. *)
Theorem X1_marker_after_commit (io : TxIO) (rio : ReadIO) (bb : BlockBatch) (db db' : DB) :
  0 < Number (header bb) < 2 ^ 32 ->
  exec_fails io 2 = false -> query_fails rio = false ->
  Commit io bb db = (None, db') ->
  QueryLastBlockNumber rio db' = Ok (Number (header bb)).
Proof.
  intros Hh H2 Hq Hc. rewrite Commit_result, H2 in Hc.
  destruct (_ && _) in Hc; [|discriminate]. injection Hc as <-.
  unfold QueryLastBlockNumber. rewrite Hq, insert_all_config. unfold mark.
  replace (Number (header bb) >? 0) with true by (symmetry; apply Z.gtb_lt; lia).
  unfold replace_config. cbn [config]. rewrite truncate_config, config_lookup_replace.
  rewrite Uint32_PutUint32 by lia. reflexivity.
Qed.

Lemma X1_marker_after_commit_witness :
  QueryLastBlockNumber read_ok Sample.db15 = Ok 15.
Proof.
  refine (@X1_marker_after_commit tx_ok read_ok
            (build (Sample.hdr 15) [Sample.call Sample.addrA; Sample.call Sample.addrB])
            Sample.db5 Sample.db15 _ eq_refl eq_refl eq_refl).
  split; vm_compute; reflexivity.
Defined.

(** X3.  [Commit] returns nil exactly when [Begin] does not fail, none of the
    statements whose error it looks at fails, and the final commit does not
    fail; in every other case it returns the storage error and the store is
    unchanged.  For a height above 0 the marker update (statement 2 of the
    transaction) is not among the statements looked at. *)
Theorem X3_Commit_outcome (io : TxIO) (bb : BlockBatch) (db : DB) :
  (fst (Commit io bb db) = None
   <-> begin_fails io = false
       /\ (forall i, In i (commit_checked bb) -> exec_fails io i = false)
       /\ commit_fails io = false)
  /\ (fst (Commit io bb db) <> None -> Commit io bb db = (Some StorageError, db))
  /\ (Number (header bb) > 0 -> ~ In 2%nat (commit_checked bb)).
Proof.
  rewrite Commit_result.
  assert (Hall : forallb (fun i => negb (exec_fails io i)) (commit_checked bb) = true
                 <-> forall i, In i (commit_checked bb) -> exec_fails io i = false).
  { rewrite forallb_forall. split; intros H i Hi; specialize (H i Hi);
      now destruct (exec_fails io i). }
  split; [|split].
  - destruct (begin_fails io); cbn [negb andb fst].
    + split; [discriminate|]. intros [? _]. discriminate.
    + destruct (forallb _ (commit_checked bb)) eqn:E; cbn [andb].
      * destruct (commit_fails io); cbn [negb fst].
        -- split; [discriminate|]. intros (_ & _ & ?). discriminate.
        -- split; [|reflexivity]. intros _. repeat split. now apply Hall.
      * cbn [fst]. split; [discriminate|]. intros (_ & H & _).
        apply Hall in H. congruence.
  - destruct (_ && _); cbn [fst]; [congruence|reflexivity].
  - intros Hpos. unfold commit_checked.
    replace (Number (header bb) >? 0) with true by (symmetry; apply Z.gtb_lt; lia).
    intros Hin. apply in_app_or in Hin. destruct Hin as [[H|[H|[]]]|H]; try discriminate.
    apply in_seq in H. lia.
Qed.

Lemma X3_Commit_outcome_witness :
  Commit (mkTxIO false (fun i => Nat.eqb i 3) false)
         (build (Sample.hdr 3) [Sample.call Sample.addrB]) Sample.db15
  = (Some StorageError, Sample.db15).
Proof.
  apply (proj1 (proj2 (X3_Commit_outcome (mkTxIO false (fun i => Nat.eqb i 3) false)
                         (build (Sample.hdr 3) [Sample.call Sample.addrB]) Sample.db15))).
  vm_compute. discriminate.
Defined.

Lemma Insert_events bb txID txOrigin evs trs ci :
  events (Insert bb txID txOrigin evs trs ci)
  = events bb
    ++ map (fun je => newEvent (header bb) (uint32 (Z.of_nat (fst je))) txID txOrigin ci
                               (snd je))
           (combine (seq (length (events bb)) (length evs)) evs).
Proof.
  unfold Insert.
  assert (H2 : forall l b,
    events (fold_left (fun bb transfer =>
      mkBatch (header bb) (events bb)
              (transfers bb ++ [newTransfer (header bb)
                                            (uint32 (Z.of_nat (length (transfers bb))))
                                            txID txOrigin ci transfer])) l b) = events b).
  { induction l as [|x l IH]; intros b; cbn [fold_left]; [reflexivity|now rewrite IH]. }
  rewrite H2. revert bb.
  induction evs as [|x evs IH]; intros bb; cbn [fold_left length seq combine map].
  - now rewrite app_nil_r.
  - rewrite IH. cbn [header events]. rewrite length_app, <- app_assoc. cbn [length app].
    now rewrite Nat.add_1_r.
Qed.

Lemma Insert_transfers bb txID txOrigin evs trs ci :
  transfers (Insert bb txID txOrigin evs trs ci)
  = transfers bb
    ++ map (fun jt => newTransfer (header bb) (uint32 (Z.of_nat (fst jt))) txID txOrigin ci
                                  (snd jt))
           (combine (seq (length (transfers bb)) (length trs)) trs).
Proof.
  unfold Insert.
  assert (H1 : forall l b,
    let b' := fold_left (fun bb event =>
      mkBatch (header bb)
              (events bb ++ [newEvent (header bb) (uint32 (Z.of_nat (length (events bb))))
                                      txID txOrigin ci event])
              (transfers bb)) l b in
    transfers b' = transfers b /\ header b' = header b).
  { induction l as [|x l IH]; intros b; cbn [fold_left]; [now split|].
    cbv zeta in IH.
    match goal with |- context [fold_left ?f l ?b0] => destruct (IH b0) as [-> ->] end.
    split; reflexivity. }
  cbv zeta in H1.
  destruct (H1 evs bb) as [Ht Hh]. rewrite <- Ht, <- Hh.
  generalize (fold_left (fun bb event =>
      mkBatch (header bb)
              (events bb ++ [newEvent (header bb) (uint32 (Z.of_nat (length (events bb))))
                                      txID txOrigin ci event])
              (transfers bb)) evs bb).
  clear. intros bb. revert bb.
  induction trs as [|x trs IH]; intros bb; cbn [fold_left length seq combine map].
  - now rewrite app_nil_r.
  - rewrite IH. cbn [header transfers]. rewrite length_app, <- app_assoc. cbn [length app].
    now rewrite Nat.add_1_r.
Qed.

(** X4.  [Insert] only appends: the records the batch held stay as they
    are and in place; one event (transfer) is added per input, in input
    order, carrying the batch's header, the given transaction id, origin and
    clause index, and as sequence index the number of events (transfers)
    that precede it in the batch, as a uint32.  Events and transfers are
    counted apart, and the header is unchanged. *)
Theorem X4_Insert_appends (bb : BlockBatch) (txID : thor_Bytes32) (txOrigin : thor_Address)
    (evs : list TxEvent.t) (trs : list TxTransfer.t) (ci : Z) :
  header (Insert bb txID txOrigin evs trs ci) = header bb
  /\ events (Insert bb txID txOrigin evs trs ci)
     = events bb
       ++ map (fun je => newEvent (header bb) (uint32 (Z.of_nat (fst je))) txID txOrigin ci
                                  (snd je))
              (combine (seq (length (events bb)) (length evs)) evs)
  /\ transfers (Insert bb txID txOrigin evs trs ci)
     = transfers bb
       ++ map (fun jt => newTransfer (header bb) (uint32 (Z.of_nat (fst jt))) txID txOrigin
                                     ci (snd jt))
              (combine (seq (length (transfers bb)) (length trs)) trs).
Proof.
  split; [apply Insert_header|]. split; [apply Insert_events|apply Insert_transfers].
Qed.

(** X5.  In a batch built by [Prepare] and [Insert] that holds at most 2^32
    events and at most 2^32 transfers, no two events share (block number,
    sequence index), and no two transfers do. *)
Theorem X5_batch_keys_distinct (h : Header) (calls : list InsertCall) :
  batch_fits (build h calls) ->
  NoDup (map (fun e => (Event.BlockNumber e, Event.Index e)) (events (build h calls)))
  /\ NoDup (map (fun t => (Transfer.BlockNumber t, Transfer.Index t))
                (transfers (build h calls))).
Proof.
  intros [Hf1 Hf2]. destruct (build_indexed h calls) as [Hi1 Hi2]. split.
  - pose proof (indexed_events_keys Hi1 Hf1) as H. now rewrite map_map in H.
  - pose proof (indexed_transfers_keys Hi2 Hf2) as H. now rewrite map_map in H.
Qed.

Lemma X5_batch_keys_distinct_witness :
  NoDup (map (fun e => (Event.BlockNumber e, Event.Index e))
             (events (build (Sample.hdr 15)
                            [Sample.call Sample.addrA; Sample.call Sample.addrB]))).
Proof.
  apply (@X5_batch_keys_distinct (Sample.hdr 15)
           [Sample.call Sample.addrA; Sample.call Sample.addrB]).
  split; vm_compute; discriminate.
Defined.

(** ** Reads *)

Lemma In_paginate {A} (o : option Options) (l : list A) (x : A) :
  In x (paginate o l) -> In x l.
Proof.
  destruct o as [o|]; cbn [paginate]; [|auto]. intros H.
  rewrite <- (firstn_skipn (Z.to_nat (Offset o)) l). apply in_or_app. right.
  rewrite <- (firstn_skipn (Z.to_nat (Limit o)) (skipn (Z.to_nat (Offset o)) l)).
  apply in_or_app. now left.
Qed.

Lemma In_selected {row} (o : option Options) (le : row -> row -> bool) (p : row -> bool)
    (tbl : list row) (r : row) :
  In r (paginate o (SQL.sort_by le (filter p tbl))) -> In r tbl /\ p r = true.
Proof.
  intros H. apply In_paginate in H.
  apply (Permutation_in _ (sort_by_perm le (filter p tbl))) in H.
  now apply filter_In in H.
Qed.

Lemma FilterEvents_rows (ctx : Context) (io : ReadIO) (db : DB) (f : option EventFilter.t) :
  wf_options (event_filter_options f) ->
  FilterEvents ctx io db f
  = if Done ctx 0%nat then Err (ContextError (CtxErr ctx))
    else if query_fails io then Err StorageError
    else scan_rows scan_event ctx io 0 (selected_events f db) [].
Proof.
  intros Hwf. unfold FilterEvents.
  destruct f as [f|].
  - pose proof (run_select_events f (event db) Hwf) as Hrun.
    destruct (FilterEvents_sql f) as [stmt args]. cbn [fst snd] in Hrun.
    unfold queryEvents, QueryContext. rewrite Hrun.
    destruct (Done ctx 0), (query_fails io); reflexivity.
  - unfold queryEvents, QueryContext, SQL.run_select, SQL.where_true.
    cbn [SQL.sel_where SQL.sel_order SQL.sel_limit selected_events].
    rewrite filter_all. destruct (Done ctx 0), (query_fails io); reflexivity.
Qed.

Lemma FilterTransfers_rows (ctx : Context) (io : ReadIO) (db : DB)
    (f : option TransferFilter.t) :
  wf_options (transfer_filter_options f) ->
  FilterTransfers ctx io db f
  = if Done ctx 0%nat then Err (ContextError (CtxErr ctx))
    else if query_fails io then Err StorageError
    else scan_rows scan_transfer ctx io 0 (selected_transfers f db) [].
Proof.
  intros Hwf. unfold FilterTransfers.
  destruct f as [f|].
  - pose proof (run_select_transfers f (transfer db) Hwf) as Hrun.
    destruct (FilterTransfers_sql f) as [stmt args]. cbn [fst snd] in Hrun.
    unfold queryTransfers, QueryContext. rewrite Hrun.
    destruct (Done ctx 0), (query_fails io); reflexivity.
  - unfold queryTransfers, QueryContext, SQL.run_select, SQL.where_true.
    cbn [SQL.sel_where SQL.sel_order SQL.sel_limit selected_transfers].
    rewrite filter_all. destruct (Done ctx 0), (query_fails io); reflexivity.
Qed.

Lemma scan_rows_fault {row A} (decode : row -> A) (ctx : Context) (io : ReadIO) :
  never_done ctx ->
  forall rows k acc i,
    (i <= length rows)%nat -> next_fails io (k + i) = true ->
    scan_rows decode ctx io k rows acc = Err StorageError.
Proof.
  intros Hctx. induction rows as [|r rows IH]; intros k acc i Hi Hf; cbn [scan_rows].
  - cbn [length] in Hi. replace i with 0%nat in Hf by lia.
    rewrite Nat.add_0_r in Hf. now rewrite Hf.
  - destruct (next_fails io k) eqn:E; [reflexivity|]. rewrite Hctx.
    destruct i as [|i]; [rewrite Nat.add_0_r in Hf; congruence|].
    apply (IH (S k) _ i); [cbn [length] in Hi; lia|].
    now replace (S k + i)%nat with (k + S i)%nat by lia.
Qed.

(** X6.  With a nil filter, a read that is neither cancelled nor failing
    returns every stored record of the kind, in the order of the table (no
    ORDER BY is issued), each decoded from its row. *)
Theorem X6_nil_filter_returns_table (ctx : Context) (rio : ReadIO) (db : DB) :
  never_done ctx -> no_read_fault rio ->
  FilterEvents ctx rio db None = Ok (map scan_event (event db))
  /\ FilterTransfers ctx rio db None = Ok (map scan_transfer (transfer db)).
Proof.
  intros Hctx Hrio. split.
  - rewrite (@FilterEvents_spec ctx rio db None Hrio I).
    now rewrite never_done_not_cancelled.
  - rewrite (@FilterTransfers_spec ctx rio db None Hrio I).
    now rewrite never_done_not_cancelled.
Qed.

Lemma X6_nil_filter_returns_table_witness :
  FilterEvents Background read_ok Sample.db15 None
  = Ok (map scan_event (event Sample.db15)).
Proof.
  apply (@X6_nil_filter_returns_table Background read_ok Sample.db15).
  - intros i. reflexivity.
  - split; [reflexivity|intros i; reflexivity].
Defined.

(** X7.  What [FilterEvents] selects for a non-nil filter, in general: the
    stored events that satisfy (Range AND Group1) OR Group2 OR ... OR Groupn
    (the Range alone when there is no group), then sorted and paginated.
    With at most one criteria group this is Range AND (Group1 OR ...). *)
Theorem X7_FilterEvents_selection (ctx : Context) (rio : ReadIO) (db : DB)
    (f : EventFilter.t) :
  never_done ctx -> no_read_fault rio -> wf_options (EventFilter.Options f) ->
  FilterEvents ctx rio db (Some f)
  = Ok (map scan_event
         (paginate (EventFilter.Options f)
            (SQL.sort_by (event_order (EventFilter.Order f))
               (filter (fun r =>
                          match EventFilter.CriteriaSet f with
                          | [] => event_range_holds f r
                          | c :: cs =>
                              (event_range_holds f r && event_group_holds c r)
                              || existsb (fun c => event_group_holds c r) cs
                          end)
                       (event db)))))
  /\ ((length (EventFilter.CriteriaSet f) <= 1)%nat ->
      FilterEvents ctx rio db (Some f)
      = Ok (map scan_event
             (paginate (EventFilter.Options f)
                (SQL.sort_by (event_order (EventFilter.Order f))
                   (filter (event_range_and_groups f) (event db)))))).
Proof.
  intros Hctx Hrio Hwf.
  rewrite (@FilterEvents_spec ctx rio db (Some f) Hrio Hwf).
  rewrite never_done_not_cancelled by assumption. cbn [selected_events].
  split; [reflexivity|]. intros Hlen. do 4 f_equal. apply filter_ext. intros r.
  unfold event_selected, event_range_and_groups.
  destruct (EventFilter.CriteriaSet f) as [|c [|c' cs]]; cbn [existsb].
  - now rewrite andb_true_r.
  - now rewrite !orb_false_r.
  - cbn [length] in Hlen. lia.
Qed.

Lemma X7_FilterEvents_selection_witness :
  FilterEvents Background read_ok Sample.db15
               (Some (EventFilter.mk [EventCriteria.mk (Some Sample.addrB) Sample.no_topics]
                                     (Some (mkRange Block 10 20)) None ASC))
  = Ok (map scan_event
          (SQL.sort_by (event_order ASC)
             (filter (event_range_and_groups
                        (EventFilter.mk
                           [EventCriteria.mk (Some Sample.addrB) Sample.no_topics]
                           (Some (mkRange Block 10 20)) None ASC))
                     (event Sample.db15)))).
Proof.
  refine (proj2 (@X7_FilterEvents_selection Background read_ok Sample.db15
                   (EventFilter.mk [EventCriteria.mk (Some Sample.addrB) Sample.no_topics]
                                   (Some (mkRange Block 10 20)) None ASC) _ _ I) _).
  - intros i. reflexivity.
  - split; [reflexivity|intros i; reflexivity].
  - apply le_n.
Defined.

Lemma topic_holds_scan (want : option thor_Bytes32) (have : option bytes) (t : thor_Bytes32) :
  topic_holds want have = true -> want = Some t -> wf_bytes32 t ->
  scan_topic have = Some t.
Proof.
  intros H -> Hwf. destruct have as [b|]; cbn [topic_holds] in H; [|discriminate].
  apply bytes_eqb_true in H. subst b. change (length t = 32%nat) in Hwf.
  unfold scan_topic. rewrite Hwf. change (0 <? 32)%nat with true. cbv iota.
  f_equal. now apply set_bytes_exact.
Qed.

Lemma event_group_matches (c : EventCriteria.t) (r : EventRow) :
  wf_event_criteria c -> event_group_holds c r = true -> event_matches c (scan_event r).
Proof.
  intros [Hwa Hwt] H. unfold event_group_holds in H.
  repeat (apply andb_true_iff in H; destruct H as [H ?]).
  unfold Array5_list in Hwt.
  inversion Hwt as [|? ? W0 Hwt1]; subst. inversion Hwt1 as [|? ? W1 Hwt2]; subst.
  inversion Hwt2 as [|? ? W2 Hwt3]; subst. inversion Hwt3 as [|? ? W3 Hwt4]; subst.
  inversion Hwt4 as [|? ? W4 _]; subst.
  split.
  - intros a Ha. rewrite Ha in H. cbn [blob_holds] in H. apply bytes_eqb_true in H.
    unfold scan_event. cbn [Event.Address]. rewrite H.
    apply BytesToAddress_Bytes. now apply Hwa.
  - intros j t Hj. unfold Array5_get, Array5_list, scan_event, Array5_map in *.
    cbn [Event.Topics slot0 slot1 slot2 slot3 slot4].
    destruct j as [|[|[|[|[|j]]]]]; cbn [nth] in *.
    + rewrite Hj in W0. eapply topic_holds_scan; eauto.
    + rewrite Hj in W1. eapply topic_holds_scan; eauto.
    + rewrite Hj in W2. eapply topic_holds_scan; eauto.
    + rewrite Hj in W3. eapply topic_holds_scan; eauto.
    + rewrite Hj in W4. eapply topic_holds_scan; eauto.
    + destruct j; discriminate.
Qed.

(** X8.  With a non-empty list of criteria groups (addresses of 20 bytes,
    topics of 32 bytes), every event that [FilterEvents] returns matches at
    least one of the groups: it has the group's address if the group names
    one, and for each non-nil topic of the group it has that very topic in
    the same slot.  An event whose slot is empty never matches a group that
    constrains the slot. *)
Theorem X8_returned_event_matches_a_group (ctx : Context) (rio : ReadIO) (db : DB)
    (f : EventFilter.t) (l : list Event.t) :
  no_read_fault rio -> wf_options (EventFilter.Options f) ->
  EventFilter.CriteriaSet f <> [] ->
  Forall wf_event_criteria (EventFilter.CriteriaSet f) ->
  FilterEvents ctx rio db (Some f) = Ok l ->
  forall e, In e l ->
    exists c, In c (EventFilter.CriteriaSet f) /\ event_matches c e.
Proof.
  intros Hrio Hwf Hne Hwc Hres e He.
  rewrite (@FilterEvents_spec ctx rio db (Some f) Hrio Hwf) in Hres.
  destruct (cancelled ctx _); [discriminate|]. injection Hres as <-.
  apply in_map_iff in He. destruct He as (r & <- & Hr).
  cbn [selected_events] in Hr. apply In_selected in Hr. destruct Hr as [_ Hsel].
  unfold event_selected in Hsel.
  destruct (EventFilter.CriteriaSet f) as [|c cs]; [congruence|].
  rewrite Forall_forall in Hwc.
  apply orb_true_iff in Hsel. destruct Hsel as [Hsel|Hsel].
  - apply andb_true_iff in Hsel. destruct Hsel as [_ Hg].
    exists c. split; [now left|]. apply event_group_matches; [apply Hwc; now left|exact Hg].
  - apply existsb_exists in Hsel. destruct Hsel as (c' & Hin & Hg).
    exists c'. split; [now right|]. apply event_group_matches; [apply Hwc; now right|exact Hg].
Qed.

Lemma X8_returned_event_matches_a_group_witness :
  Forall (fun e => exists c, In c (EventFilter.CriteriaSet Sample.two_groups)
                             /\ event_matches c e)
         (map scan_event
              (SQL.sort_by (event_order ASC)
                 (filter (event_selected Sample.two_groups) (event Sample.db15)))).
Proof.
  apply Forall_forall.
  refine (@X8_returned_event_matches_a_group Background read_ok Sample.db15
            Sample.two_groups _ _ I _ _ _).
  - split; [reflexivity|intros i; reflexivity].
  - discriminate.
  - repeat constructor; cbn; try discriminate; intros a [= <-]; reflexivity.
  - reflexivity.
Defined.

(** X9.  [FilterTransfers] never returns a transfer that the filter
    excludes: every transfer it returns for a non-nil filter has its block
    number (or block time, by the unit) within the Range, carries the
    filter's transaction id when the filter names one (of 32 bytes), and,
    when there are criteria groups, was stored by a row that satisfies one of
    them. *)
Theorem X9_returned_transfer_satisfies_filter (ctx : Context) (rio : ReadIO) (db : DB)
    (f : TransferFilter.t) (l : list Transfer.t) :
  no_read_fault rio -> wf_options (TransferFilter.Options f) ->
  FilterTransfers ctx rio db (Some f) = Ok l ->
  forall t, In t l ->
    range_holds (TransferFilter.Range f) (Transfer.BlockNumber t) (Transfer.BlockTime t)
    = true
    /\ (forall id, TransferFilter.TxID f = Some id -> wf_bytes32 id -> Transfer.TxID t = id)
    /\ (TransferFilter.CriteriaSet f <> [] ->
        exists c r, In c (TransferFilter.CriteriaSet f) /\ In r (transfer db)
                    /\ t = scan_transfer r /\ transfer_group_holds c r = true).
Proof.
  intros Hrio Hwf Hres t Ht.
  rewrite (@FilterTransfers_spec ctx rio db (Some f) Hrio Hwf) in Hres.
  destruct (cancelled ctx _); [discriminate|]. injection Hres as <-.
  apply in_map_iff in Ht. destruct Ht as (r & <- & Hr).
  cbn [selected_transfers] in Hr. apply In_selected in Hr. destruct Hr as [Hin Hsel].
  unfold transfer_selected in Hsel.
  apply andb_true_iff in Hsel. destruct Hsel as [Hsel Hg].
  apply andb_true_iff in Hsel. destruct Hsel as [Hrange Hid].
  split; [exact Hrange|]. split.
  - intros id Hf Hw. rewrite Hf in Hid. cbn [blob_holds] in Hid.
    apply bytes_eqb_true in Hid. unfold scan_transfer. cbn [Transfer.TxID].
    rewrite Hid. now apply BytesToBytes32_Bytes.
  - intros Hne. destruct (TransferFilter.CriteriaSet f) as [|c cs]; [congruence|].
    apply existsb_exists in Hg. destruct Hg as (c' & Hc & Hh).
    exists c', r. auto.
Qed.

Lemma X9_returned_transfer_satisfies_filter_witness :
  Forall (fun t => range_holds (Some (mkRange Block 10 20))
                               (Transfer.BlockNumber t) (Transfer.BlockTime t) = true)
         (map scan_transfer
              (SQL.sort_by (transfer_order ASC)
                 (filter (transfer_selected Sample.two_groups_transfers)
                         (transfer Sample.db15)))).
Proof.
  apply Forall_forall. intros t Ht.
  refine (proj1 (@X9_returned_transfer_satisfies_filter Background read_ok Sample.db15
                   Sample.two_groups_transfers _ _ I _ t Ht)).
  - split; [reflexivity|intros i; reflexivity].
  - reflexivity.
Defined.

(** X10.  Pagination is a slice of the unpaginated result: if the filter
    without Options returns [l0], then the same filter with Options {Offset,
    Limit} returns the [Limit] records of [l0] that follow its first
    [Offset] records; so it returns at most [Limit] records, and none when
    [Offset] reaches the length of [l0]. *)
Theorem X10_pagination_slices (ctx : Context) (rio : ReadIO) (db : DB)
    (cs : list EventCriteria.t) (tcs : list TransferCriteria.t)
    (id : option thor_Bytes32) (rg : option Range) (ord : OrderType) (o : Options) :
  never_done ctx -> no_read_fault rio -> 0 <= Offset o -> 0 <= Limit o ->
  (exists l0,
     FilterEvents ctx rio db (Some (EventFilter.mk cs rg None ord)) = Ok l0
     /\ FilterEvents ctx rio db (Some (EventFilter.mk cs rg (Some o) ord))
        = Ok (firstn (Z.to_nat (Limit o)) (skipn (Z.to_nat (Offset o)) l0)))
  /\ (exists l0,
        FilterTransfers ctx rio db (Some (TransferFilter.mk id tcs rg None ord)) = Ok l0
        /\ FilterTransfers ctx rio db (Some (TransferFilter.mk id tcs rg (Some o) ord))
           = Ok (firstn (Z.to_nat (Limit o)) (skipn (Z.to_nat (Offset o)) l0))).
Proof.
  intros Hctx Hrio Hoff Hlim. split; eexists; split.
  - rewrite (@FilterEvents_spec ctx rio db (Some (EventFilter.mk cs rg None ord)) Hrio I).
    rewrite never_done_not_cancelled by assumption. reflexivity.
  - rewrite (@FilterEvents_spec ctx rio db (Some (EventFilter.mk cs rg (Some o) ord)) Hrio
               (conj Hoff Hlim)).
    rewrite never_done_not_cancelled by assumption.
    cbn [selected_events EventFilter.Options EventFilter.Order]. rewrite paginate_map.
    reflexivity.
  - rewrite (@FilterTransfers_spec ctx rio db
               (Some (TransferFilter.mk id tcs rg None ord)) Hrio I).
    rewrite never_done_not_cancelled by assumption. reflexivity.
  - rewrite (@FilterTransfers_spec ctx rio db
               (Some (TransferFilter.mk id tcs rg (Some o) ord)) Hrio (conj Hoff Hlim)).
    rewrite never_done_not_cancelled by assumption.
    cbn [selected_transfers TransferFilter.Options TransferFilter.Order].
    rewrite paginate_map. reflexivity.
Qed.

Lemma X10_pagination_slices_witness :
  exists l0,
    FilterTransfers Background read_ok Sample.db15
                    (Some (TransferFilter.mk (Some (Sample.hash x02)) [] None None DESC))
    = Ok l0
    /\ FilterTransfers Background read_ok Sample.db15 (Some Sample.by_txid)
       = Ok (firstn 1 (skipn 1 l0)).
Proof.
  refine (proj2 (@X10_pagination_slices Background read_ok Sample.db15 [] []
                   (Some (Sample.hash x02)) None DESC (mkOptions 1 1) _ _ _ _)).
  - intros i. reflexivity.
  - split; [reflexivity|intros i; reflexivity].
  - discriminate.
  - discriminate.
Defined.

(** X11.  A failure of the store during a read is returned as the storage
    error, with no records: when the query itself fails, or when fetching
    any row fails, were it after rows have already been decoded, or when
    the iteration ends on an error.  (The context is not cancelled.) *)
Theorem X11_read_failure_discards_rows (ctx : Context) (rio : ReadIO) (db : DB) :
  never_done ctx ->
  (forall f, wf_options (event_filter_options f) ->
     (query_fails rio = true -> FilterEvents ctx rio db f = Err StorageError)
     /\ (forall i, (i <= length (selected_events f db))%nat -> next_fails rio i = true ->
           FilterEvents ctx rio db f = Err StorageError))
  /\ (forall f, wf_options (transfer_filter_options f) ->
        (query_fails rio = true -> FilterTransfers ctx rio db f = Err StorageError)
        /\ (forall i, (i <= length (selected_transfers f db))%nat ->
              next_fails rio i = true ->
              FilterTransfers ctx rio db f = Err StorageError)).
Proof.
  intros Hctx. split; intros f Hwf; split.
  - intros Hq. rewrite FilterEvents_rows by assumption. now rewrite Hctx, Hq.
  - intros i Hi Hf. rewrite FilterEvents_rows by assumption. rewrite Hctx.
    destruct (query_fails rio); [reflexivity|].
    now apply (@scan_rows_fault _ _ scan_event ctx rio Hctx _ 0%nat [] i).
  - intros Hq. rewrite FilterTransfers_rows by assumption. now rewrite Hctx, Hq.
  - intros i Hi Hf. rewrite FilterTransfers_rows by assumption. rewrite Hctx.
    destruct (query_fails rio); [reflexivity|].
    now apply (@scan_rows_fault _ _ scan_transfer ctx rio Hctx _ 0%nat [] i).
Qed.

Lemma X11_read_failure_discards_rows_witness :
  FilterEvents Background (mkReadIO false (fun i => Nat.eqb i 2)) Sample.db15 None
  = Err StorageError.
Proof.
  refine (proj2 (proj1 (@X11_read_failure_discards_rows Background
                          (mkReadIO false (fun i => Nat.eqb i 2)) Sample.db15 _) None I)
                2%nat _ eq_refl).
  - intros i. reflexivity.
  - vm_compute. apply le_n_S, le_n_S, le_0_n.
Defined.

(** ** Commits in sequence *)

Lemma replace_config_twice (k : string) (v1 v2 : bytes) (c : list (string * bytes)) :
  filter (fun kv => negb (String.eqb (fst kv) k))
         (filter (fun kv => negb (String.eqb (fst kv) k)) c ++ [(k, v1)]) ++ [(k, v2)]
  = filter (fun kv => negb (String.eqb (fst kv) k)) c ++ [(k, v2)].
Proof.
  rewrite filter_app, filter_idem. cbn [filter fst]. rewrite String.eqb_refl.
  cbn [negb]. now rewrite app_nil_r.
Qed.

(** X12.  A commit at a height H2 with 0 < H2 <= H1 wipes out an earlier
    commit at height H1: committing the batch of H1 and then the batch of H2
    leaves the store exactly as committing the batch of H2 alone (no store
    faults; batches built by [Prepare] and [Insert], short of index
    wrap-around). *)
Theorem X12_reorg_commit_supersedes (h1 h2 : Header) (calls1 calls2 : list InsertCall)
    (db : DB) :
  0 < Number h2 <= Number h1 ->
  batch_fits (build h1 calls1) -> batch_fits (build h2 calls2) ->
  snd (Commit tx_ok (build h2 calls2) (snd (Commit tx_ok (build h1 calls1) db)))
  = snd (Commit tx_ok (build h2 calls2) db).
Proof.
  intros Hh Hf1 Hf2.
  pose proof (build_indexed h1 calls1) as Hi1. pose proof (build_indexed h2 calls2) as Hi2.
  pose proof (build_header h1 calls1) as Hh1. pose proof (build_header h2 calls2) as Hh2.
  set (bb1 := build h1 calls1) in *. set (bb2 := build h2 calls2) in *.
  rewrite (Commit_tx_ok bb1 db). cbn [snd].
  set (db1 := insert_all bb1 (mark bb1 (truncate bb1 db))).
  rewrite (Commit_tx_ok bb2 db1), (Commit_tx_ok bb2 db). cbn [snd].
  assert (T1 := @Commit_ok_tables tx_ok bb1 db _ Hi1 Hf1 (Commit_tx_ok bb1 db)).
  assert (T12 := @Commit_ok_tables tx_ok bb2 db1 _ Hi2 Hf2 (Commit_tx_ok bb2 db1)).
  assert (T2 := @Commit_ok_tables tx_ok bb2 db _ Hi2 Hf2 (Commit_tx_ok bb2 db)).
  fold db1 in T1.
  destruct T1 as [Te1 Tt1], T12 as [Te12 Tt12], T2 as [Te2 Tt2].
  rewrite event_kept_below in Te1, Te12, Te2 by (rewrite ?Hh1, ?Hh2; try assumption; lia).
  rewrite transfer_kept_below in Tt1, Tt12, Tt2
    by (rewrite ?Hh1, ?Hh2; try assumption; lia).
  rewrite Hh1 in Te1, Tt1. rewrite Hh2 in Te12, Tt12, Te2, Tt2.
  pose proof (batch_events_block Hi1) as Be. pose proof (batch_transfers_block Hi1) as Bt.
  rewrite Hh1, Forall_forall in Be, Bt.
  apply DB_ext.
  - rewrite !insert_all_config. unfold db1, mark. rewrite Hh1, Hh2.
    replace (Number h1 >? 0) with true by (symmetry; apply Z.gtb_lt; lia).
    replace (Number h2 >? 0) with true by (symmetry; apply Z.gtb_lt; lia).
    unfold replace_config. cbn [config]. rewrite !truncate_config, insert_all_config.
    cbn [config]. apply replace_config_twice.
  - rewrite Te12, Te2, Te1, filter_app, filter_filter. f_equal.
    rewrite (@filter_none _ _ (map event_row _)).
    + rewrite app_nil_r. apply filter_ext. intros r.
      destruct (Z.ltb_spec (er_blockNumber r) (Number h2)); [|now rewrite andb_false_r].
      rewrite andb_true_r. apply Z.ltb_lt. lia.
    + intros r Hr. apply in_map_iff in Hr. destruct Hr as (e & <- & Hin).
      apply Be in Hin. cbn. rewrite Hin. apply Z.ltb_ge. lia.
  - rewrite Tt12, Tt2, Tt1, filter_app, filter_filter. f_equal.
    rewrite (@filter_none _ _ (map transfer_row _)).
    + rewrite app_nil_r. apply filter_ext. intros r.
      destruct (Z.ltb_spec (tr_blockNumber r) (Number h2)); [|now rewrite andb_false_r].
      rewrite andb_true_r. apply Z.ltb_lt. lia.
    + intros r Hr. apply in_map_iff in Hr. destruct Hr as (e & <- & Hin).
      apply Bt in Hin. cbn. rewrite Hin. apply Z.ltb_ge. lia.
Qed.

Lemma X12_reorg_commit_supersedes_witness :
  snd (Commit tx_ok (build (Sample.hdr 5) [Sample.call Sample.addrA])
              (snd (Commit tx_ok (build (Sample.hdr 15) [Sample.call Sample.addrB])
                           Sample.db5)))
  = snd (Commit tx_ok (build (Sample.hdr 5) [Sample.call Sample.addrA]) Sample.db5).
Proof.
  apply (@X12_reorg_commit_supersedes (Sample.hdr 15) (Sample.hdr 5)
           [Sample.call Sample.addrB] [Sample.call Sample.addrA] Sample.db5).
  - split; vm_compute; [reflexivity|discriminate].
  - split; vm_compute; discriminate.
  - split; vm_compute; discriminate.
Defined.

(** ** Amounts *)

Lemma BigInt_SetBytes_nonneg (b : bytes) : 0 <= BigInt_SetBytes b.
Proof.
  unfold BigInt_SetBytes.
  assert (H : forall l acc, 0 <= acc ->
             0 <= fold_left (fun acc x => acc * 256 + Z_of_byte x) l acc).
  { induction l as [|x l IH]; intros acc Hacc; cbn [fold_left]; [exact Hacc|].
    apply IH. pose proof (Z_of_byte_range x). lia. }
  apply H. lia.
Qed.

(** X13.  The sign of an amount is not stored: a transfer written with
    amount [a] is read back with amount [|a|] (so a non-negative amount comes
    back unchanged, of any size), and whatever bytes the amount column holds,
    the amount read is never negative. *)
Theorem X13_amount_sign_is_lost (t : Transfer.t) (r : TransferRow) :
  Transfer.Amount (scan_transfer (transfer_row t)) = Z.abs (Transfer.Amount t)
  /\ 0 <= Transfer.Amount (scan_transfer r).
Proof.
  split.
  - unfold scan_transfer, transfer_row. cbn [Transfer.Amount tr_amount].
    rewrite <- (@BigInt_roundtrip (Z.abs (Transfer.Amount t)) (Z.abs_nonneg _)).
    unfold BigInt_Bytes. now rewrite Z.abs_idemp.
  - unfold scan_transfer. cbn [Transfer.Amount]. apply BigInt_SetBytes_nonneg.
Qed.

(** ** Statements are always well formed *)

Lemma run_select_events_accepted (f : EventFilter.t) (tbl : list EventRow) :
  exists rows,
    SQL.run_select event_get tbl (fst (FilterEvents_sql f)) (snd (FilterEvents_sql f))
    = Some rows.
Proof.
  unfold FilterEvents_sql.
  set (q := fold_left event_criteria_sql (enumerate (EventFilter.CriteriaSet f))
              (range_sql EBlockNumber EBlockTime ([SQL.TkOne], []) (EventFilter.Range f))).
  assert (Hev : forall rest lookup, exists v,
             SQL.eval_where lookup (fst q) (snd q ++ rest) = Some (v, rest)
             /\ SQL.is_true v = event_where_holds lookup f)
    by (intros; apply eval_where_events).
  unfold limit_sql. destruct (EventFilter.Options f) as [o|]; cbn [fst snd].
  - rewrite (@run_select_where _ _ event_get tbl _ _ _ _ _ _ (Hev _)). now eexists.
  - pose proof (Hev []) as Hev0. rewrite app_nil_r in Hev0.
    rewrite (@run_select_where _ _ event_get tbl _ _ _ _ _ _ Hev0). now eexists.
Qed.

Lemma run_select_transfers_accepted (f : TransferFilter.t) (tbl : list TransferRow) :
  exists rows,
    SQL.run_select transfer_get tbl (fst (FilterTransfers_sql f))
                   (snd (FilterTransfers_sql f))
    = Some rows.
Proof.
  unfold FilterTransfers_sql.
  pose proof (fun rest lookup => eval_where_transfers lookup f rest) as Hev.
  cbv zeta in Hev.
  set (q := if (0 <? length (TransferFilter.CriteriaSet f))%nat then _ else _) in *.
  unfold limit_sql. destruct (TransferFilter.Options f) as [o|]; cbn [fst snd].
  - rewrite (@run_select_where _ _ transfer_get tbl _ _ _ _ _ _ (Hev _)). now eexists.
  - pose proof (Hev []) as Hev0. rewrite app_nil_r in Hev0.
    rewrite (@run_select_where _ _ transfer_get tbl _ _ _ _ _ _ Hev0). now eexists.
Qed.

(** X14.  The statement that [FilterEvents] and [FilterTransfers] compose is
    well formed for every filter: on any table the engine accepts its text
    with its parameters, that is, parentheses balance, operators and
    operands alternate, and the parameters are as many as the placeholders,
    whatever the Range, the number of criteria groups, their nil and non-nil
    fields, the Order and the Options; with one parameter more than the
    code supplies, the engine refuses the same statement.  This is about the
    text and the number of parameters only: whether the driver takes the
    value of a parameter (database/sql refuses a uint64 of 2^63 or more) is
    not part of it. *)
Theorem X14_statements_well_formed :
  (forall (f : EventFilter.t) (tbl : list EventRow),
     exists rows,
       SQL.run_select event_get tbl (fst (FilterEvents_sql f)) (snd (FilterEvents_sql f))
       = Some rows)
  /\ (forall (f : TransferFilter.t) (tbl : list TransferRow),
        exists rows,
          SQL.run_select transfer_get tbl (fst (FilterTransfers_sql f))
                         (snd (FilterTransfers_sql f))
          = Some rows)
  /\ (forall (f : EventFilter.t) (tbl : list EventRow) (surplus : SQL.value),
        SQL.run_select event_get tbl (fst (FilterEvents_sql f))
                       (snd (FilterEvents_sql f) ++ [surplus])
        = None)
  /\ (forall (f : TransferFilter.t) (tbl : list TransferRow) (surplus : SQL.value),
        SQL.run_select transfer_get tbl (fst (FilterTransfers_sql f))
                       (snd (FilterTransfers_sql f) ++ [surplus])
        = None).
Proof.
  split; [|split; [|split]].
  - intros f tbl. apply run_select_events_accepted.
  - intros f tbl. apply run_select_transfers_accepted.
  - intros f tbl surplus. unfold FilterEvents_sql.
    set (q := fold_left event_criteria_sql (enumerate (EventFilter.CriteriaSet f))
                (range_sql EBlockNumber EBlockTime ([SQL.TkOne], []) (EventFilter.Range f))).
    assert (Hev : forall rest lookup, exists v,
               SQL.eval_where lookup (fst q) (snd q ++ rest) = Some (v, rest)
               /\ SQL.is_true v = event_where_holds lookup f)
      by (intros; apply eval_where_events).
    unfold limit_sql. destruct (EventFilter.Options f) as [o|]; cbn [fst snd].
    + rewrite <- app_assoc.
      rewrite (@run_select_where _ _ event_get tbl _ _ _ _ _ _ (Hev _)). reflexivity.
    + rewrite (@run_select_where _ _ event_get tbl _ _ _ _ _ _ (Hev _)). reflexivity.
  - intros f tbl surplus. unfold FilterTransfers_sql.
    pose proof (fun rest lookup => eval_where_transfers lookup f rest) as Hev.
    cbv zeta in Hev.
    set (q := if (0 <? length (TransferFilter.CriteriaSet f))%nat then _ else _) in *.
    unfold limit_sql. destruct (TransferFilter.Options f) as [o|]; cbn [fst snd].
    + rewrite <- app_assoc.
      rewrite (@run_select_where _ _ transfer_get tbl _ _ _ _ _ _ (Hev _)). reflexivity.
    + rewrite (@run_select_where _ _ transfer_get tbl _ _ _ _ _ _ (Hev _)). reflexivity.
Qed.

(** ** Stores written by commits *)

Lemma config_lookup_In (k : string) (c : list (string * bytes)) (v : bytes) :
  config_lookup k c = Some v -> exists k', In (k', v) c.
Proof.
  induction c as [|[k' v'] c IH]; cbn [config_lookup]; [discriminate|].
  destruct (String.eqb k k').
  - intros [= <-]. exists k'. now left.
  - intros H. destruct (IH H) as [k'' Hin]. exists k''. now right.
Qed.

Lemma Commit_marker_well_formed (io : TxIO) (bb : BlockBatch) (db : DB) :
  marker_well_formed db -> marker_well_formed (snd (Commit io bb db)).
Proof.
  intros Hdb. rewrite Commit_result. destruct (_ && _); cbn [snd]; [|exact Hdb].
  unfold marker_well_formed. rewrite insert_all_config.
  assert (Hm : Forall (fun kv => length (snd kv) = 4%nat) (config (mark bb (truncate bb db)))).
  { unfold mark. destruct (Number (header bb) >? 0);
      [|rewrite truncate_config; exact Hdb].
    unfold replace_config. cbn [config]. rewrite truncate_config.
    apply Forall_app. split.
    - apply Forall_forall. intros kv Hkv. apply filter_In in Hkv.
      unfold marker_well_formed in Hdb. rewrite Forall_forall in Hdb. now apply Hdb.
    - constructor; [reflexivity|constructor]. }
  destruct (exec_fails io 2); [rewrite truncate_config; exact Hdb|exact Hm].
Qed.

(** X15.  On a store that only [Commit] has written, starting from an empty
    one, whatever the batches and whatever failed on the way,
    [QueryLastBlockNumber] does not panic: the marker, when present, is four
    bytes long, and the call returns a number below 2^32 (0 when no marker
    was ever written), unless its own read fails. *)
Theorem X15_marker_never_malformed (rio : ReadIO) (db : DB) :
  written_by_commits db -> query_fails rio = false ->
  exists n, QueryLastBlockNumber rio db = Ok n /\ 0 <= n < 2 ^ 32.
Proof.
  intros Hw Hq.
  assert (Hm : marker_well_formed db).
  { induction Hw as [|db io bb Hw IH]; [constructor|now apply Commit_marker_well_formed]. }
  unfold QueryLastBlockNumber. rewrite Hq.
  destruct (config_lookup configBlockNumKey (config db)) as [data|] eqn:E.
  - destruct (config_lookup_In _ _ E) as [k Hin].
    unfold marker_well_formed in Hm. rewrite Forall_forall in Hm.
    specialize (Hm _ Hin). cbn [snd] in Hm.
    destruct data as [|b0 [|b1 [|b2 [|b3 [|]]]]]; try discriminate.
    destruct (Uint32 [b0; b1; b2; b3]) as [n|] eqn:U.
    + exists n. split; [reflexivity|]. eapply Uint32_range; eauto.
    + rewrite Uint32_value in U. discriminate.
  - exists 0. split; [reflexivity|]. split; [lia|]. now apply Z.pow_pos_nonneg.
Qed.

Lemma X15_marker_never_malformed_witness :
  exists n,
    QueryLastBlockNumber read_ok
      (snd (Commit Sample.marker_fault (build (Sample.hdr 3) [Sample.call Sample.addrB])
                   (snd (Commit tx_ok (build (Sample.hdr 5) [Sample.call Sample.addrB])
                                (mkDB [] [] [])))))
    = Ok n
    /\ 0 <= n < 2 ^ 32.
Proof.
  apply X15_marker_never_malformed; [|reflexivity].
  apply written_commit, written_commit, written_new.
Defined.

Lemma filter_keep_all {A} (p : A -> bool) (l : list A) :
  (forall x, In x l -> p x = true) -> filter p l = l.
Proof.
  intros H. apply forallb_filter_id. now apply forallb_forall.
Qed.

(** X16.  Blocks indexed in chain order accumulate: after one commit per
    block, at strictly increasing heights above 0, on a store whose records
    all lie below the first of these heights (an empty store, for instance)
    and that does not fail, each record table is what it was followed by the
    records of the batches, batch after batch, each in its append order;
    nothing is deleted or replaced. *)
Theorem X16_chain_order_commits_accumulate (blocks : list (Header * list InsertCall))
    (db : DB) :
  StronglySorted (fun a b => Number (fst a) < Number (fst b)) blocks ->
  Forall (fun b => 0 < Number (fst b) /\ batch_fits (block_batch b)) blocks ->
  Forall (fun b => Forall (fun r => er_blockNumber r < Number (fst b)) (event db)
                   /\ Forall (fun r => tr_blockNumber r < Number (fst b)) (transfer db))
         blocks ->
  event (commit_all db (map block_batch blocks))
  = event db ++ flat_map (fun b => map event_row (events (block_batch b))) blocks
  /\ transfer (commit_all db (map block_batch blocks))
     = transfer db ++ flat_map (fun b => map transfer_row (transfers (block_batch b))) blocks.
Proof.
  revert db. induction blocks as [|b blocks IH]; intros db Hs Hpos Hlow; cbn [map flat_map].
  - unfold commit_all. cbn [fold_left]. now rewrite !app_nil_r.
  - unfold commit_all. cbn [fold_left]. fold (commit_all (snd (Commit tx_ok (block_batch b) db))
                                               (map block_batch blocks)).
    inversion Hs as [|? ? Hs' Hlt]; subst. inversion Hpos as [|? ? [Hb Hf] Hpos']; subst.
    inversion Hlow as [|? ? [Hle Hlt'] Hlow']; subst.
    pose proof (build_indexed (fst b) (snd b)) as Hi.
    pose proof (build_header (fst b) (snd b)) as Hh.
    fold (block_batch b) in Hi, Hh.
    destruct (@Commit_ok_tables tx_ok (block_batch b) db _ Hi Hf
                (Commit_tx_ok (block_batch b) db)) as [He Ht].
    rewrite event_kept_below in He by (rewrite ?Hh; try assumption; lia).
    rewrite transfer_kept_below in Ht by (rewrite ?Hh; try assumption; lia).
    rewrite Hh in He, Ht.
    rewrite filter_keep_all in He
      by (intros r Hr; rewrite Forall_forall in Hle; apply Z.ltb_lt; now apply Hle).
    rewrite filter_keep_all in Ht
      by (intros r Hr; rewrite Forall_forall in Hlt'; apply Z.ltb_lt; now apply Hlt').
    rewrite Commit_tx_ok in *. cbn [snd] in *.
    pose proof (batch_events_block Hi) as Be. pose proof (batch_transfers_block Hi) as Bt.
    rewrite Hh, Forall_forall in Be, Bt.
    destruct (IH (insert_all (block_batch b)
                    (mark (block_batch b) (truncate (block_batch b) db))) Hs' Hpos')
      as [IHe IHt].
    + rewrite Forall_forall in *. intros b' Hb'. specialize (Hlow' b' Hb').
      specialize (Hlt b' Hb'). destruct Hlow' as [L1 L2]. rewrite Forall_forall in L1, L2.
      split; apply Forall_forall; intros r Hr.
      * rewrite He in Hr. apply in_app_or in Hr. destruct Hr as [Hr|Hr]; [now apply L1|].
        apply in_map_iff in Hr. destruct Hr as (e & <- & Hin). apply Be in Hin.
        cbn. lia.
      * rewrite Ht in Hr. apply in_app_or in Hr. destruct Hr as [Hr|Hr]; [now apply L2|].
        apply in_map_iff in Hr. destruct Hr as (e & <- & Hin). apply Bt in Hin.
        cbn. lia.
    + rewrite IHe, IHt, He, Ht, <- !app_assoc. split; reflexivity.
Qed.

Lemma X16_chain_order_commits_accumulate_witness :
  event (commit_all Sample.empty
           (map block_batch [(Sample.hdr 5, [Sample.call Sample.addrB]);
                             (Sample.hdr 15, [Sample.call Sample.addrA;
                                              Sample.call Sample.addrB])]))
  = event Sample.empty
    ++ flat_map (fun b => map event_row (events (block_batch b)))
                [(Sample.hdr 5, [Sample.call Sample.addrB]);
                 (Sample.hdr 15, [Sample.call Sample.addrA; Sample.call Sample.addrB])].
Proof.
  refine (proj1 (@X16_chain_order_commits_accumulate
                   [(Sample.hdr 5, [Sample.call Sample.addrB]);
                    (Sample.hdr 15, [Sample.call Sample.addrA; Sample.call Sample.addrB])]
                   Sample.empty _ _ _)).
  - repeat constructor.
  - repeat constructor; vm_compute; discriminate.
  - repeat constructor.
Defined.
